(** * SyntaxSQLNet: the embedding layer ([embedding/embeddings.py])

    A shallow embedding of the pretrained-embedding wrappers
    ([PretrainedEmbedding], [GloveEmbedding], [LaserEmbedding]) and the
    properties of their batching, padding, caching and vocabulary code.

    Conventions.
    - A Python [str] is a [string]; its characters are the code points
      below 256.
    - A dict keyed by strings is a [gmap string _]; the column cache is
      keyed by [str(db)], which is injective on lists of strings, so the
      key is kept as the [list string] itself.
    - A tensor or numpy array is a nested list, outermost dimension
      first; the entries are an abstract [scalar] (see [Scalar]).
    - A Python exception is [Raise e]; code that mutates the object and
      may raise is a function [state -> result * state], so that the
      mutations made before an exception survive it, as in Python.
    - The device flag ([gpu], [.cuda()], [.cpu()]) and [trainable] do not
      change any value computed here and are left out. *)

From Stdlib Require Import ZArith QArith Lia Bool Ascii.
From stdpp Require Import base option list gmap strings fin_maps.

Local Open Scope string_scope.
Local Open Scope list_scope.
Local Open Scope nat_scope.

(** ** Exceptions and results *)

Inductive exn : Type :=
| IndexError
| ValueError
| RuntimeError
| AssertionError.

Inductive result (A : Type) : Type :=
| Ok (a : A)
| Raise (e : exn).
Arguments Ok {A} a.
Arguments Raise {A} e.

Definition rbind {A B} (r : result A) (k : A -> result B) : result B :=
  match r with
  | Ok a => k a
  | Raise e => Raise e
  end.

Definition is_raise {A} (r : result A) : Prop :=
  match r with
  | Ok _ => False
  | Raise _ => True
  end.

Global Instance result_ret : MRet result := fun _ a => Ok a.
Global Instance result_bind : MBind result := fun _ _ k r => rbind r k.

Fixpoint rmapM {A B} (f : A -> result B) (l : list A) : result (list B) :=
  match l with
  | [] => Ok []
  | x :: l' => y ← f x; ys ← rmapM f l'; Ok (y :: ys)
  end.

(** ** Python built-ins used by the module *)

Module Py.

(** [str.isspace] on one character (code points below 256). *)
Definition isspace (c : ascii) : bool :=
  let n := nat_of_ascii c in
  ((9 <=? n) && (n <=? 13)) || ((28 <=? n) && (n <=? 32))
  || (n =? 133) || (n =? 160).

(** [s.split()]: the maximal runs of non-whitespace characters. *)
Fixpoint split (s : string) : list string :=
  match s with
  | EmptyString => []
  | String c s' =>
      if isspace c then split s'
      else match s' with
           | EmptyString => [String c EmptyString]
           | String c' _ =>
               if isspace c' then String c EmptyString :: split s'
               else match split s' with
                    | w :: ws => String c w :: ws
                    | [] => [String c EmptyString]
                    end
           end
  end.

(** [s.split(sep)] for a one-character separator: empty pieces are
    kept. *)
Fixpoint split_on (sep : ascii) (s : string) : list string :=
  match s with
  | EmptyString => [EmptyString]
  | String c s' =>
      if Ascii.eqb c sep then EmptyString :: split_on sep s'
      else match split_on sep s' with
           | w :: ws => String c w :: ws
           | [] => [String c EmptyString]
           end
  end.

(** [sep.join(l)]. *)
Fixpoint join (sep : string) (l : list string) : string :=
  match l with
  | [] => EmptyString
  | [x] => x
  | x :: l' => x +:+ sep +:+ join sep l'
  end.

(** [max(l)] raises [ValueError] on an empty sequence. *)
Definition max (l : list nat) : result nat :=
  match l with
  | [] => Raise ValueError
  | _ => Ok (max_list l)
  end.

(** Truth value of a string: [if element:]. *)
Definition truthy (s : string) : bool :=
  match s with
  | EmptyString => false
  | _ => true
  end.

(** [l[:n] = src] where [src] has exactly the [n] entries of the
    slice: the slice is replaced. *)
Definition slice_assign {A} (n : nat) (src dst : list A) : list A :=
  take n src ++ drop n dst.

End Py.

(** ** Scalars and the external collaborators *)

(** The entries of arrays and tensors. The module computes with them
    through [np.zeros], [torch.sum], the tensor division and
    [torch.mean] only; [sparse] is the text-to-float conversion of
    [np.asarray(_, dtype=float)], [None] where it raises. *)
Class Scalar (R : Type) : Type := {
  szero : R;
  sadd : R -> R -> R;
  sdiv : R -> R -> R;
  sof_nat : nat -> R;
  sparse : string -> option R
}.

(** The two facts about the arithmetic that the mean of a single
    vector needs: adding to zero and dividing by one are exact. *)
Class ScalarLaws (R : Type) `{Scalar R} : Prop := {
  sadd_zero_l : forall x : R, sadd szero x = x;
  sdiv_one : forall x : R, sdiv x (sof_nat 1) = x
}.

(** [str.lower] and nltk's [word_tokenize]. *)
Class Tokenizer : Type := {
  lower : string -> string;
  word_tokenize : string -> list string
}.

(** Lowercasing a text without tokens gives a text without tokens. *)
Class TokenizerLaws `{Tokenizer} : Prop := {
  tokenize_lower_nil :
    forall s, word_tokenize s = [] -> word_tokenize (lower s) = []
}.

(** ** Tensors *)

Section Tensors.
Context {R : Type} `{Scalar R}.

(** [np.zeros(n)]. *)
Definition zeros (n : nat) : list R := replicate n szero.

(** What [forward] returns: [batch, seq, dim] without the mean,
    [batch, dim] with it. *)
Inductive tensor : Type :=
| Rank2 (t : list (list R))
| Rank3 (t : list (list (list R))).

Definition vadd (u v : list R) : list R := zip_with sadd u v.

(** [torch.sum(t, dim=1)] on one batch item: the sum of its [dim]-sized
    rows, zero when there is none. *)
Definition vsum (dim : nat) (rows : list (list R)) : list R :=
  foldl vadd (zeros dim) rows.

(** [t / d] for [t] of shape [[b, dim]] and [d] of shape [[n]], with
    torch's broadcasting: the trailing dimensions [dim] and [n] are
    aligned, so they have to be equal unless one of them is 1. *)
Definition tensor_div (dim : nat) (t : list (list R)) (d : list R)
  : result (list (list R)) :=
  match d with
  | [d0] => Ok (map (map (fun x => sdiv x d0)) t)
  | _ =>
      if length d =? dim then Ok (map (fun row => zip_with sdiv row d) t)
      else if dim =? 1 then
        Ok (map (fun row => map (fun dk => sdiv (hd szero row) dk) d) t)
      else Raise RuntimeError
  end.

(** The row lengths of a rank-2 tensor (its shape, for a rectangular
    one). *)
Definition shape2 (t : list (list R)) : list nat := map length t.

Definition same_shape (t u : list (list R)) : bool :=
  bool_decide (shape2 t = shape2 u).

Definition madd (t u : list (list R)) : list (list R) :=
  zip_with vadd t u.

(** [torch.mean(torch.stack(l), dim=0)] for rank-2 tensors: [stack]
    raises on an empty list and on tensors of different shapes. *)
Definition stack_mean (l : list (list (list R))) : result (list (list R)) :=
  match l with
  | [] => Raise RuntimeError
  | t0 :: _ =>
      if forallb (same_shape t0) l then
        let total := foldl madd (map (fun row => zeros (length row)) t0) l in
        Ok (map (map (fun x => sdiv x (sof_nat (length l)))) total)
      else Raise RuntimeError
  end.

(** The value a rank-2 result of [forward] carries; a rank-3 one cannot
    be stacked with it. *)
Definition as_rank2 (t : tensor) : result (list (list R)) :=
  match t with
  | Rank2 m => Ok m
  | Rank3 _ => Raise RuntimeError
  end.

(** [dst[:m1, :m2, :] = src[:m1, :m2, :]]. *)
Definition assign_region {A} (m1 m2 : nat) (src dst : list (list A))
  : list (list A) :=
  zip_with (Py.slice_assign m2) (take m1 src) (take m1 dst) ++ drop m1 dst.

End Tensors.

Arguments tensor R : clear implicits.

(** ** [PretrainedEmbedding] *)

Inductive sentences_arg : Type :=
| Str (s : string)
| StrList (l : list string).

(** The fields of the object that no method changes. [weight] is
    [self.embedding.weight]. *)
Record PretrainedEmbedding (R : Type) : Type := {
  num_embeddings : nat;
  embedding_dim : nat;
  word2idx : gmap string nat;
  vectors : list (list R);
  use_column_cache : bool;
  weight : list (list R)
}.
Arguments num_embeddings {R} _.
Arguments embedding_dim {R} _.
Arguments word2idx {R} _.
Arguments vectors {R} _.
Arguments use_column_cache {R} _.
Arguments weight {R} _.

(** The part of the object that methods change, [column_cache], and the
    record of the calls [self(...)] made so far. A cache entry is the
    pair (embedding of the schema, token counts of its columns). *)
Record mstate (R : Type) : Type := {
  column_cache : gmap (list string) (list (list (list R)) * list nat);
  calls : list (sentences_arg * bool)
}.
Arguments column_cache {R} _.
Arguments calls {R} _.
Arguments Build_mstate {R} _ _.

Definition M (R A : Type) : Type := mstate R -> result A * mstate R.

Global Instance M_ret {R} : MRet (M R) := fun _ a st => (Ok a, st).
Global Instance M_bind {R} : MBind (M R) := fun _ _ k m st =>
  match m st with
  | (Ok a, st') => k a st'
  | (Raise e, st') => (Raise e, st')
  end.

Definition lift {R A} (r : result A) : M R A := fun st => (r, st).

Fixpoint foldM {R A B} (f : A -> B -> M R A) (a : A) (l : list B) : M R A :=
  match l with
  | [] => mret a
  | x :: l' => a' ← f a x; foldM f a' l'
  end.

(** [enumerate(l)]. *)
Definition enumerate {A} (l : list A) : list (nat * A) :=
  imap (fun i x => (i, x)) l.

Section Pretrained.
Context {R : Type} `{Scalar R} `{Tokenizer}.

(** [weight.data.copy_(torch.from_numpy(vectors))]: the source is
    broadcast to the [n] by [dim] weight; a source with one row or
    one column is repeated, any other shape raises. *)
Definition copy_weight (n dim : nat) (vs : list (list R))
  : result (list (list R)) :=
  match vs with
  | [] => Raise RuntimeError
  | v0 :: _ =>
      let c := length v0 in
      if negb (forallb (fun v => length v =? c) vs) then Raise RuntimeError
      else if negb ((c =? dim) || (c =? 1)) then Raise RuntimeError
      else if negb ((length vs =? n) || (length vs =? 1)) then
        Raise RuntimeError
      else
        let wide :=
          map (fun v => if c =? dim then v else replicate dim (hd szero v))
              vs in
        Ok (if length vs =? n then wide else replicate n (hd [] wide))
  end.

(** [PretrainedEmbedding.__init__] with [use_embedding=True].
    [Embedding(n, dim, padding_idx=0)] fills row 0 of its new weight
    with zeros, and a weight of no rows has no row 0. *)
Definition PretrainedEmbedding_init (n dim : nat)
    (w2i : gmap string nat) (vs : list (list R)) (cache : bool)
  : result (PretrainedEmbedding R) :=
  if n =? 0 then Raise IndexError
  else
    w ← copy_weight n dim vs;
    Ok {| num_embeddings := n; embedding_dim := dim; word2idx := w2i;
          vectors := vs; use_column_cache := cache; weight := w |}.

(** A new object starts with an empty cache. *)
Definition fresh : mstate R := Build_mstate ∅ [].

Section Methods.
Variable self : PretrainedEmbedding R.

(** [for j, word in enumerate(sentence): indicies[i,j] = word2idx.get(word, 0)] *)
Definition fill_row (row : list nat) (sentence : list string) : list nat :=
  foldl (fun row '(j, word) => <[j := default 0 (word2idx self !! word)]> row)
        row (enumerate sentence).

(** [for i, sentence in enumerate(sentences_words): ...] *)
Definition fill_indicies (indicies : list (list nat))
    (sentences_words : list (list string)) : list (list nat) :=
  foldl (fun ind '(i, sentence) =>
           <[i := fill_row (ind !!! i) sentence]> ind)
        indicies (enumerate sentences_words).

(** [self.embedding(indicies)]: an index outside the weight raises. *)
Definition embedding (indicies : list (list nat))
  : result (list (list (list R))) :=
  rmapM (rmapM (fun idx => match weight self !! idx with
                           | Some v => Ok v
                           | None => Raise IndexError
                           end)) indicies.

Definition as_list (sentences : sentences_arg) : list string :=
  match sentences with
  | Str s => [s]
  | StrList l => l
  end.

(** [PretrainedEmbedding.forward]. *)
Definition forward (sentences : sentences_arg) (mean_sequence : bool)
  : result (tensor R * list nat) :=
  let sentences := as_list sentences in
  let sentences := map lower sentences in
  let batch_size := length sentences in
  let sentences_words := map word_tokenize sentences in
  let lenghts := map length sentences_words in
  max_len ← Py.max lenghts;
  let indicies := replicate batch_size (replicate max_len 0) in
  let indicies := fill_indicies indicies sentences_words in
  word_embeddings ← embedding indicies;
  if mean_sequence then
    t ← tensor_div (embedding_dim self)
          (map (vsum (embedding_dim self)) word_embeddings)
          (map sof_nat lenghts);
    Ok (Rank2 t, lenghts)
  else Ok (Rank3 word_embeddings, lenghts).

(** [self(sentences, mean_sequence)]: the call is recorded, then
    [forward] runs. *)
Definition call (sentences : sentences_arg) (mean_sequence : bool)
  : M R (tensor R * list nat) :=
  fun st =>
    (forward sentences mean_sequence,
     Build_mstate (column_cache st) (calls st ++ [(sentences, mean_sequence)])).

(** The inner loop of [embed_token]: the sub-parts of one word. *)
Definition embed_element (emb_list : list (list (list R))) (element : string)
  : M R (list (list (list R))) :=
  if Py.truthy element then
    '(emb, _) ← call (Str element) true;
    e ← lift (as_rank2 emb);
    mret (emb_list ++ [e])
  else mret emb_list.

(** The outer loop of [embed_token]: one word. *)
Definition embed_word (embs : list (list (list R))) (word : string)
  : M R (list (list (list R))) :=
  emb_list ← foldM embed_element [] (Py.split_on "_" word);
  m ← lift (stack_mean emb_list);
  mret (embs ++ [m]).

(** [PretrainedEmbedding.embed_token]. *)
Definition embed_token (token : string) : M R (list (list R)) :=
  let words := Py.split token in
  embs ← foldM embed_word [] words;
  lift (stack_mean embs).

End Methods.
End Pretrained.

Section Columns.
Context {R : Type} `{Scalar R} `{Tokenizer}.
Variable self : PretrainedEmbedding R.

(** The two arrays [get_columns_emb] fills: [embeddings] of shape
    [batch, max_len, max_col_name_len, dim] and [col_name_lengths] of
    shape [batch, max_len]. *)
Definition col_acc : Type := list (list (list (list R))) * list (list nat).

(** [embeddings[i,j,:L,:] = emb] for the [L] rows of [emb]: the slice
    has [min L m2] rows; a source of one row is broadcast to it, any
    other number of rows has to match. *)
Definition assign_rows (m2 L : nat) (emb dst : list (list R))
  : result (list (list R)) :=
  if L <=? m2 then Ok (Py.slice_assign L emb dst)
  else if L =? 1 then Ok dst
  else Raise RuntimeError.

(** The body of [for j, column in enumerate(db)]. *)
Definition column_step (m2 i : nat) (acc : col_acc) (jc : nat * string)
  : M R col_acc :=
  let '(embeddings, col_name_lengths) := acc in
  let '(j, column) := jc in
  '(emb, col_name_len) ← call self (Str column) false;
  let L := hd 0 col_name_len in
  rows ← lift (match emb with
               | Rank3 [rows] => Ok rows
               | _ => Raise RuntimeError
               end);
  dst ← lift (assign_rows m2 L rows ((embeddings !!! i) !!! j));
  mret (<[i := <[j := dst]> (embeddings !!! i)]> embeddings,
        <[i := <[j := L]> (col_name_lengths !!! i)]> col_name_lengths).

(** The cache-hit branch: the part of the cached tensor that fits is
    copied, and the cached token counts are capped. The last dimension
    of a cached tensor is the embedding dimension of the object that
    stored it. The tensor size in dimension 1 is read off the first
    row; a stored tensor always has one, and the stored counts have
    one entry per row of the stored tensor. *)
Definition cache_hit (m1 m2 i : nat) (acc : col_acc)
    (entry : list (list (list R)) * list nat) : col_acc :=
  let '(embeddings, col_name_lengths) := acc in
  let '(cached_emb, cached_lengths) := entry in
  let min_size1 := Nat.min (length cached_emb) m1 in
  let min_size2 := Nat.min (length (hd [] cached_emb)) m2 in
  (<[i := assign_region min_size1 min_size2 cached_emb (embeddings !!! i)]>
     embeddings,
   <[i := Py.slice_assign min_size1
            (take min_size1 (map (fun l => Nat.min l m2) cached_lengths))
            (col_name_lengths !!! i)]> col_name_lengths).

(** The body of [for i, db in enumerate(columns_joined)]. The tuple
    stored in the cache shares its memory with row [i] of the arrays
    being returned; nothing in this module writes to that row again. *)
Definition db_step (m1 m2 : nat) (acc : col_acc) (idb : nat * list string)
  : M R col_acc :=
  let '(i, db) := idb in
  fun st =>
    match column_cache st !! db with
    | Some entry => (Ok (cache_hit m1 m2 i acc entry), st)
    | None =>
        match foldM (column_step m2 i) acc (enumerate db) st with
        | (Ok (embeddings, col_name_lengths), st') =>
            (Ok (embeddings, col_name_lengths),
             if use_column_cache self then
               Build_mstate
                 (<[db := (embeddings !!! i, col_name_lengths !!! i)]>
                    (column_cache st'))
                 (calls st')
             else st')
        | (Raise e, st') => (Raise e, st')
        end
    end.

Definition columns_joined (columns : list (list (list string)))
  : list (list string) :=
  map (map (Py.join " ")) columns.

(** [PretrainedEmbedding.get_columns_emb]. The first value given to
    [col_name_lengths] in the source is never read and is left out. *)
Definition get_columns_emb (columns : list (list (list string)))
  : M R (list (list (list (list R))) * list nat * list (list nat)) :=
  let batch_size := length columns in
  let lengths := map length columns in
  max_len ← lift (Py.max lengths);
  let joined := columns_joined columns in
  let token_counts :=
    map (map (fun column => length (word_tokenize column))) joined in
  maxes ← lift (rmapM Py.max token_counts);
  max_col_name_len ← lift (Py.max maxes);
  let embeddings :=
    replicate batch_size
      (replicate max_len
         (replicate max_col_name_len (zeros (embedding_dim self)))) in
  let col_name_lengths := replicate batch_size (replicate max_len 0) in
  '(embeddings, col_name_lengths) ←
    foldM (db_step max_len max_col_name_len)
          (embeddings, col_name_lengths) (enumerate joined);
  mret (embeddings, lengths, col_name_lengths).

End Columns.

(** ** [GloveEmbedding] *)

Section Glove.
Context {R : Type} `{Scalar R}.

(** [np.asarray(vector, dtype=np.float)]: every field has to read as a
    float. *)
Definition asarray (vector : list string) : result (list R) :=
  rmapM (fun x => match sparse x with
                  | Some r => Ok r
                  | None => Raise ValueError
                  end) vector.

(** The body of [for idx, linee in enumerate(f, 1)]. *)
Definition glove_line (acc : gmap string nat * list (list R))
    (il : nat * string) : result (gmap string nat * list (list R)) :=
  let '(w2i, vecs) := acc in
  let '(idx, linee) := il in
  let line := Py.split linee in
  match line with
  | [] => Raise IndexError
  | token :: vector =>
      if (length vector =? 300) && negb (bool_decide (is_Some (w2i !! token)))
      then
        v ← asarray vector;
        Ok (<[token := idx]> w2i, vecs ++ [v])
      else Ok (w2i, vecs)
  end.

Fixpoint glove_loop (acc : gmap string nat * list (list R))
    (lines : list (nat * string))
  : result (gmap string nat * list (list R)) :=
  match lines with
  | [] => Ok acc
  | il :: lines' => acc' ← glove_line acc il; glove_loop acc' lines'
  end.

(** [enumerate(f, 1)]. *)
Definition enumerate1 {A} (l : list A) : list (nat * A) :=
  imap (fun i x => (S i, x)) l.

(** The dictionary and the rows [GloveEmbedding.__init__] builds from
    the lines of the file, before it hands them to the base class. *)
Definition glove_table (f : list string)
  : result (gmap string nat * list (list R)) :=
  '(w2i, vecs) ← glove_loop (∅, []) (enumerate1 f);
  let w2i := <["<unknown>" := 0]> w2i in
  match vecs with
  | [] => Raise IndexError
  | v0 :: _ => Ok (w2i, zeros (length v0) :: vecs)
  end.

(** [GloveEmbedding.__init__], given the lines of the file at [path]. *)
Definition GloveEmbedding_init (f : list string) (cache : bool)
  : result (PretrainedEmbedding R) :=
  '(w2i, vecs) ← glove_table f;
  PretrainedEmbedding_init (size w2i) (length (hd [] vecs)) w2i vecs cache.

End Glove.

(** ** [LaserEmbedding] *)

(** A numpy array or torch tensor of any rank: its shape and its
    entries in row-major order. *)
Record ndarray (R : Type) : Type := {
  shape : list nat;
  flat : list R
}.
Arguments shape {R} _.
Arguments flat {R} _.
Arguments Build_ndarray {R} _ _.

(** The external LASER embedder, [self.embedder(text, method="sentence",
    language='en')]: the array the call returns when it returns.
    [EmbedderFailure] below says when it raises instead. *)
Class Embedder (R : Type) : Type := {
  embedder : string -> ndarray R
}.

Module Laser.

(** The fields of a [LaserEmbedding] that [forward] reads and writes, and
  the record of the texts given to the embedder so far. *)
Record LaserEmbedding (R : Type) : Type := {
num_embeddings : nat;
embedding_dim : nat;
word2idx : gmap string nat;
vectors : list (ndarray R);
embedder_calls : list string
}.
Arguments num_embeddings {R} _.
Arguments embedding_dim {R} _.
Arguments word2idx {R} _.
Arguments vectors {R} _.
Arguments embedder_calls {R} _.
Arguments Build_LaserEmbedding {R} _ _ _ _ _.

Section Laser.
Context {R : Type} `{Scalar R} `{Tokenizer} `{Embedder R}.

(** [LaserEmbedding.__init__]. *)
Definition init : LaserEmbedding R := Build_LaserEmbedding 1 1024 ∅ [] [].

Definition eq_shape (s1 s2 : list nat) : bool := bool_decide (s1 = s2).

(** [a.reshape(-1)]. *)
Definition reshape_flat (a : ndarray R) : ndarray R :=
Build_ndarray [length (flat a)] (flat a).

(** [np.zeros((1, dim))]. *)
Definition zeros_row (dim : nat) : ndarray R :=
Build_ndarray [1; dim] (zeros dim).

(** [torch.tensor(l)] for a list of arrays: the shape is read off the
  first array, and every array has to have it. *)
Definition tensor_of_arrays (l : list (ndarray R)) : result (ndarray R) :=
match l with
| [] => Ok (Build_ndarray [0] [])
| a0 :: _ =>
    if forallb (fun a => eq_shape (shape a) (shape a0)) l
    then Ok (Build_ndarray (length l :: shape a0) (concat (map flat l)))
    else Raise ValueError
end.

(** [torch.tensor(l)] for a list of lists of arrays. *)
Definition tensor_of_rows (l : list (list (ndarray R))) : result (ndarray R) :=
match l with
| [] => Ok (Build_ndarray [0] [])
| row0 :: _ =>
    if negb (forallb (fun row => length row =? length row0) l)
    then Raise ValueError
    else
      match row0 with
      | [] => Ok (Build_ndarray [length l; 0] [])
      | a0 :: _ =>
          if forallb (forallb (fun a => eq_shape (shape a) (shape a0))) l
          then Ok (Build_ndarray (length l :: length row0 :: shape a0)
                     (concat (map (fun row => concat (map flat row)) l)))
          else Raise ValueError
      end
end.

(** [t.squeeze()]: every dimension of size 1 goes. *)
Definition squeeze (t : ndarray R) : ndarray R :=
Build_ndarray (filter (fun d => d ≠ 1) (shape t)) (flat t).

(** [t.unsqueeze(0)]. *)
Definition unsqueeze0 (t : ndarray R) : ndarray R :=
Build_ndarray (1 :: shape t) (flat t).

(** The body of the first loop of the branch without the mean:
  [if word not in self.word2idx: ...], in the run where the
  embedder returns. [LaserExn.learn_word] is the body with the
  exceptions of the embedder. *)
Definition learn_word (st : LaserEmbedding R) (word : string) : LaserEmbedding R :=
match word2idx st !! word with
| Some _ => st
| None =>
    Build_LaserEmbedding (num_embeddings st) (embedding_dim st)
      (<[word := size (word2idx st)]> (word2idx st))
      (vectors st ++ [embedder word])
      (embedder_calls st ++ [word])
end.

Definition learn_words (st : LaserEmbedding R) (sentences_words : list (list string))
: LaserEmbedding R :=
foldl (fun st sentence => foldl learn_word st sentence) st sentences_words.

(** [self.vectors[self.word2idx.get(word,0)].reshape(-1)] *)
Definition fetch (st : LaserEmbedding R) (word : string) : result (ndarray R) :=
match vectors st !! default 0 (word2idx st !! word) with
| Some a => Ok (reshape_flat a)
| None => Raise IndexError
end.

(** [while lengths[i] + length < max_len: sentence_list.append(zeros)],
  which runs [max_len - lengths[i]] times. *)
Fixpoint pad (n : nat) (dim : nat) (sentence_list : list (ndarray R))
: list (ndarray R) :=
match n with
| 0 => sentence_list
| S n' => pad n' dim (sentence_list ++ [zeros_row dim])
end.

(** The body of the second loop. *)
Definition retrieve (st : LaserEmbedding R) (max_len : nat) (sentence : list string)
: result (list (ndarray R)) :=
sentence_list ← rmapM (fetch st) sentence;
Ok (pad (max_len - length sentence) (embedding_dim st) sentence_list).

(** The last lines of [forward]. *)
Definition finish (t : ndarray R) : ndarray R :=
let t := squeeze t in
if length (shape t) <? 3 then unsqueeze0 t else t.

(** [LaserEmbedding.forward], in the run where the embedder returns
  ([LaserExn.forward] is the method with the exceptions of the
  embedder). The store is a list from the start, so the
  conversion [self.vectors = list(self.vectors)] changes
  nothing. *)
Definition forward (sentences : sentences_arg) (mean_sequence : bool)
  (st : LaserEmbedding R) : result (ndarray R * list nat) * LaserEmbedding R :=
let sentences := as_list sentences in
let sentences := map lower sentences in
let sentences_words := map word_tokenize sentences in
let lengths := map length sentences_words in
match Py.max lengths with
| Raise e => (Raise e, st)
| Ok max_len =>
    if mean_sequence then
      let st' :=
        Build_LaserEmbedding (num_embeddings st) (embedding_dim st)
          (word2idx st) (vectors st)
          (embedder_calls st ++ sentences) in
      (t ← tensor_of_arrays (map embedder sentences);
       Ok (finish t, lengths), st')
    else
      let st1 := learn_words st sentences_words in
      let st2 :=
        Build_LaserEmbedding (size (word2idx st1)) (embedding_dim st1)
          (word2idx st1) (vectors st1) (embedder_calls st1) in
      (word_embeddings ← rmapM (retrieve st2 max_len) sentences_words;
       t ← tensor_of_rows word_embeddings;
       Ok (finish t, lengths), st2)
end.

End Laser.
End Laser.

(** ** Sample collaborators

    Exact rationals with plain decimal literals as scalars, ASCII
    lowercasing with whitespace splitting as tokenizer, and an embedder
    that returns a constant row: the instances at which the statements
    below are evaluated. *)

Module Sample.

Definition digit (c : ascii) : option Z :=
  let n := nat_of_ascii c in
  if (48 <=? n) && (n <=? 57) then Some (Z.of_nat (n - 48)) else None.

(** Reads the digits at the front of [s]: their value continuing
    [acc], how many there were, and the rest of [s]. *)
Fixpoint read_digits (s : string) (acc : Z) (n : nat) : Z * nat * string :=
  match s with
  | EmptyString => (acc, n, s)
  | String c s' =>
      match digit c with
      | Some d => read_digits s' (acc * 10 + d)%Z (S n)
      | None => (acc, n, s)
      end
  end.

Definition parse_unsigned (s : string) : option Q :=
  let '(i, ni, rest) := read_digits s 0%Z 0 in
  match rest with
  | EmptyString => if ni =? 0 then None else Some (i # 1)
  | String "."%char rest' =>
      let '(f, nf, rest'') := read_digits rest' 0%Z 0 in
      match rest'' with
      | EmptyString =>
          if ni + nf =? 0 then None
          else Some ((i * 10 ^ Z.of_nat nf + f) # Pos.pow 10 (Pos.of_nat nf))
      | _ => None
      end
  | _ => None
  end.

Definition parse_decimal (s : string) : option Q :=
  match s with
  | String "-"%char s' => Qopp <$> parse_unsigned s'
  | String "+"%char s' => parse_unsigned s'
  | _ => parse_unsigned s
  end.

Global Instance Q_scalar : Scalar Q := {|
  szero := 0%Q;
  sadd := Qplus;
  sdiv := Qdiv;
  sof_nat := fun n => inject_Z (Z.of_nat n);
  sparse := parse_decimal
|}.

Definition lower_char (c : ascii) : ascii :=
  let n := nat_of_ascii c in
  if (65 <=? n) && (n <=? 90) then ascii_of_nat (n + 32) else c.

Fixpoint lower_ascii (s : string) : string :=
  match s with
  | EmptyString => EmptyString
  | String c s' => String (lower_char c) (lower_ascii s')
  end.

Global Instance ws_tokenizer : Tokenizer := {|
  lower := lower_ascii;
  word_tokenize := Py.split
|}.

Global Instance const_embedder : Embedder Q := {|
  embedder := fun s =>
    Build_ndarray [1; 1024]
      (replicate 1024 (inject_Z (Z.of_nat (String.length s))))
|}.

(** A line of a vocabulary file: a token and 300 copies of a value. *)
Definition line300 (token value : string) : string :=
  token +:+ String.concat EmptyString (replicate 300 (" " +:+ value)).

End Sample.

Module SampleTable.
Import Sample.

(** A table of two words with vectors of dimension 2, as the base
    constructor returns it. *)
Definition tiny : PretrainedEmbedding Q := {|
  num_embeddings := 3;
  embedding_dim := 2;
  word2idx := <["a" := 1]> (<["b" := 2]> ∅);
  vectors := [[0; 0]; [1; 2]; [3; 4]]%Q;
  use_column_cache := true;
  weight := [[0; 0]; [1; 2]; [3; 4]]%Q
|}.

(** Three lines of a vocabulary file with 300 values each. *)
Definition abc_file : list string :=
  [line300 "a" "0.5"; line300 "b" "1"; line300 "c" "2"].

(** The state of [tiny] after [get_columns_emb] on a batch that holds
    the schema of the single column [a] and nothing else. *)
Definition cached_a : mstate Q :=
  (get_columns_emb tiny [[["a"]]] fresh).2.

End SampleTable.

(** ** The vocabulary table, as the specification words it

    A line is retained when its vector has the expected number of
    values and no earlier line with a vector of that size carries the
    same token. *)

Section GloveSpec.

Definition fields_at (f : list string) (i : nat) : list string :=
  default [] (Py.split <$> f !! i).

Definition token_at (f : list string) (i : nat) : string :=
  hd EmptyString (fields_at f i).

Definition vector_at (f : list string) (i : nat) : list string :=
  tail (fields_at f i).

(** Line [l] carries [token] and a vector of [dim] values. *)
Definition carries (dim : nat) (token : string) (l : string) : bool :=
  match Py.split l with
  | t :: v => bool_decide (t = token) && (length v =? dim)
  | [] => false
  end.

Definition retained (dim : nat) (f : list string) (i : nat) : bool :=
  match fields_at f i with
  | token :: vector =>
      (length vector =? dim) && negb (existsb (carries dim token) (take i f))
  | [] => false
  end.

(** The positions (from 0) of the retained lines, in file order. *)
Definition retained_lines (dim : nat) (f : list string) : list nat :=
  filter (fun i => retained dim f i = true) (seq 0 (length f)).

End GloveSpec.

(** What the loop of [GloveEmbedding.__init__] has built after the lines
    [f]: the dictionary knows exactly the tokens carried with a full
    vector, maps the token of a retained line to its line number and has
    one entry per retained line, and the rows are the vectors of the
    retained lines in file order. *)
Definition glove_inv {R : Type} `{Scalar R} (f : list string)
    (w2i : gmap string nat) (vecs : list (list R)) : Prop :=
  (forall t, is_Some (w2i !! t) <-> existsb (carries 300 t) f = true) /\
  (forall i, i ∈ retained_lines 300 f -> w2i !! token_at f i = Some (S i)) /\
  (forall t idx, w2i !! t = Some idx ->
     exists i, idx = S i /\ i ∈ retained_lines 300 f /\ token_at f i = t) /\
  rmapM asarray (map (vector_at f) (retained_lines 300 f)) = Ok vecs /\
  size w2i = length (retained_lines 300 f).

(** ** The vocabulary of the data model

    Every index of the dictionary is a row of the weight, and row 0,
    the row of the unknown token and of the padding, is the zero vector
    of the embedding dimension. *)
Definition vocab_ok {R : Type} `{Scalar R} (self : PretrainedEmbedding R) : Prop :=
  (forall w i, word2idx self !! w = Some i -> i < length (weight self)) /\
  weight self !! 0 = Some (zeros (embedding_dim self)).

(** Every row of the weight has [embedding_dim] entries. *)
Definition weight_ok {R : Type} (self : PretrainedEmbedding R) : Prop :=
  Forall (fun v => length v = embedding_dim self) (weight self).

(** [word2idx.get(word, 0)]. *)
Definition index_of {R : Type} (self : PretrainedEmbedding R) (word : string) : nat :=
  default 0 (word2idx self !! word).

(** The index tensor [forward] looks up, in closed form: the indices of
    the words of each sentence, then zeros up to [max_len]. *)
Definition padded_indices {R : Type} (self : PretrainedEmbedding R)
    (max_len : nat) (sentences_words : list (list string)) : list (list nat) :=
  map (fun ws => map (index_of self) ws ++ replicate (max_len - length ws) 0)
      sentences_words.

(** The token lists of a batch, as [forward] computes them. *)
Definition tokens_of `{Tokenizer} (sentences : list string) : list (list string) :=
  map word_tokenize (map lower sentences).

(** ** [embed_token], as the specification words it *)

Section TokenSpec.
Context {R : Type} `{Scalar R} `{Tokenizer}.
Variable self : PretrainedEmbedding R.

(** The vector of one sub-part: [self(x, mean_sequence=True)]. *)
Definition vec (x : string) : result (list (list R)) :=
  '(t, _) ← forward self (Str x) true; as_rank2 t.

(** The sub-parts of a word that are embedded: the non-empty pieces
    between underscores. *)
Definition sub_parts (word : string) : list string :=
  filter (fun p => p <> EmptyString) (Py.split_on "_" word).

(** The mean over the sub-parts of one word. *)
Definition word_mean (word : string) : result (list (list R)) :=
  parts ← rmapM vec (sub_parts word); stack_mean parts.

(** The two-level mean: the mean over the words of the mean over the
    sub-parts of each word. *)
Definition embed_token_spec (token : string) : result (list (list R)) :=
  word_means ← rmapM word_mean (Py.split token);
  stack_mean word_means.

(** All the sub-parts of a token, in order. *)
Definition token_parts (token : string) : list string :=
  concat (map sub_parts (Py.split token)).

(** The mean of two tensors of one shape, entry by entry. *)
Definition mean2 (t u : list (list R)) : list (list R) :=
  zip_with (zip_with (fun x y => sdiv (sadd x y) (sof_nat 2))) t u.

End TokenSpec.

(** What a call of [self(p, mean_sequence=True)] leaves in the record. *)
Definition mean_call (p : string) : sentences_arg * bool := (Str p, true).

(** Every character of [s] satisfies [p]. *)
Fixpoint all_chars (p : ascii -> bool) (s : string) : bool :=
  match s with
  | EmptyString => true
  | String c s' => p c && all_chars p s'
  end.

Definition is_underscore (c : ascii) : bool := Ascii.eqb c "_".

(** ** The dynamic vocabulary of the data model

    The vector store has one vector per index, and the vector at the
    index of a token is the one the embedder gives for it. *)
Definition laser_ok {R : Type} `{Embedder R} (st : Laser.LaserEmbedding R) : Prop :=
  length (Laser.vectors st) = size (Laser.word2idx st) /\
  forall w i, Laser.word2idx st !! w = Some i -> Laser.vectors st !! i = Some (embedder w).

(** ** The column cache *)

Section CacheSpec.
Context {R : Type} `{Scalar R}.

(** Row [i] of the two arrays before iteration [i] writes to it. *)
Definition zero_row (m1 m2 dim : nat) : list (list (list R)) :=
  replicate m1 (replicate m2 (zeros dim)).

Definition zero_lens (m1 : nat) : list nat := replicate m1 0.

(** What a cache hit on [entry] writes to row [i]. *)
Definition hit_emb (m1 m2 dim : nat)
    (entry : list (list (list R)) * list nat) : list (list (list R)) :=
  assign_region (Nat.min (length entry.1) m1)
                (Nat.min (length (hd [] entry.1)) m2)
                entry.1 (zero_row m1 m2 dim).

Definition hit_lens (m1 m2 : nat)
    (entry : list (list (list R)) * list nat) : list nat :=
  Py.slice_assign (Nat.min (length entry.1) m1)
    (take (Nat.min (length entry.1) m1) (map (fun l => Nat.min l m2) entry.2))
    (zero_lens m1).

(** A tensor of rank 3 whose rows all have as many vectors as the
    first one. *)
Definition rectangular (t : list (list (list R))) : Prop :=
  Forall (fun row => length row = length (hd [] t)) t.

(** The maxima [get_columns_emb] computes for a batch. *)
Definition max_columns (columns : list (list (list string))) : nat :=
  max_list (map length columns).

Definition max_tokens `{Tokenizer} (columns : list (list (list string))) : nat :=
  max_list (map (fun db => max_list (map (fun c => length (word_tokenize c)) db))
                (columns_joined columns)).

End CacheSpec.

(** The token counts of the joined columns of a batch. *)
Definition token_counts `{Tokenizer} (columns : list (list (list string)))
  : list (list nat) :=
  map (map (fun column => length (word_tokenize column))) (columns_joined columns).

(** Lowercasing does not create tokens in a batch whose columns have
    none. *)
Definition lower_keeps_empty `{Tokenizer} (m2 : nat) (dbs : list (list string))
  : Prop :=
  forall db c, db ∈ dbs -> c ∈ db -> m2 = 0 -> word_tokenize (lower c) = [].

(** What the loop of [get_columns_emb] has reached after the schemas
    [dbs] of a batch of [b], started in state [st0]: the rows not yet
    visited are untouched; the entries of the cache at the start are
    still there, and the others were stored by this loop, padded to
    [m1] by [m2]; a visited row whose schema was in the cache at the
    start is the copy a hit on that entry gives, and so is every
    visited row whose schema is in the cache now, as long as
    lowercasing creates no token; with caching on every visited schema
    is in the cache. *)
Definition db_inv {R : Type} `{Scalar R} `{Tokenizer}
    (self : PretrainedEmbedding R)
    (m1 m2 b : nat) (dbs : list (list string)) (st0 st : mstate R)
    (E : list (list (list (list R)))) (C : list (list nat)) : Prop :=
  length E = b /\ length C = b /\
  (forall i, length dbs <= i -> i < b ->
     E !! i = Some (zero_row m1 m2 (embedding_dim self)) /\
     C !! i = Some (zero_lens m1)) /\
  (forall key e, column_cache st0 !! key = Some e ->
     column_cache st !! key = Some e) /\
  (forall key e, column_cache st !! key = Some e ->
     column_cache st0 !! key = Some e \/
     (length e.1 = m1 /\ Forall (fun r => length r = m2) e.1 /\ length e.2 = m1)) /\
  (forall i db e, dbs !! i = Some db -> column_cache st0 !! db = Some e ->
     E !! i = Some (hit_emb m1 m2 (embedding_dim self) e) /\
     C !! i = Some (hit_lens m1 m2 e)) /\
  (lower_keeps_empty m2 dbs ->
   forall i db e, dbs !! i = Some db -> column_cache st !! db = Some e ->
     E !! i = Some (hit_emb m1 m2 (embedding_dim self) e) /\
     C !! i = Some (hit_lens m1 m2 e)) /\
  (use_column_cache self = true ->
   forall db, db ∈ dbs -> is_Some (column_cache st !! db)).

(** ** [get_history_emb] *)

Section History.
Context {R : Type} `{Scalar R} `{Tokenizer}.
Variable self : PretrainedEmbedding R.

(** [embeddings[i,j,:] = emb]: the slice has [dim] entries; the
    leading dimensions of size 1 of [emb] are dropped, a single entry
    is repeated, and any other shape raises. *)
Definition assign_vector (dim : nat) (emb : list (list R)) : result (list R) :=
  match emb with
  | [v] =>
      if length v =? dim then Ok v
      else if length v =? 1 then Ok (replicate dim (hd szero v))
      else Raise RuntimeError
  | _ => Raise RuntimeError
  end.

(** The body of [for j, token in enumerate(history)]. *)
Definition history_token (i : nat) (embeddings : list (list (list R)))
    (jt : nat * string) : M R (list (list (list R))) :=
  let '(j, token) := jt in
  emb ← embed_token self token;
  v ← lift (assign_vector (embedding_dim self) emb);
  mret (<[i := <[j := v]> (embeddings !!! i)]> embeddings).

(** The body of [for i, history in enumerate(histories)]. *)
Definition history_step (embeddings : list (list (list R)))
    (ih : nat * list string) : M R (list (list (list R))) :=
  let '(i, history) := ih in
  foldM (history_token i) embeddings (enumerate history).

(** [PretrainedEmbedding.get_history_emb]. *)
Definition get_history_emb (histories : list (list string))
  : M R (list (list (list R)) * list nat) :=
  let batch_size := length histories in
  let lengths := map length histories in
  max_len ← lift (Py.max lengths);
  let embeddings :=
    replicate batch_size (replicate max_len (zeros (embedding_dim self))) in
  embeddings ← foldM history_step embeddings (enumerate histories);
  mret (embeddings, lengths).

(** A phrase [embed_token] can reduce: it has a word, and every word
    has a sub-part that is not empty. *)
Definition embeddable (token : string) : Prop :=
  Py.split token <> [] /\
  Forall (fun word => sub_parts word <> []) (Py.split token).

(** The vector [get_history_emb] stores for a phrase. *)
Definition token_vector (token : string) : result (list R) :=
  emb ← embed_token_spec self token;
  assign_vector (embedding_dim self) emb.

(** Row [i] of the tensor [get_history_emb] returns, said directly:
    the vectors of the phrases of the history, then zero vectors up
    to [max_len]. *)
Definition history_row (max_len : nat) (history : list string)
  : result (list (list R)) :=
  vs ← rmapM token_vector history;
  Ok (vs ++ replicate (max_len - length history) (zeros (embedding_dim self))).

End History.

(** ** Conditions on the index tensor *)

(** Every index of the tensor is a row of the weight. *)
Definition rows_exist {R : Type} (self : PretrainedEmbedding R)
    (indicies : list (list nat)) : Prop :=
  Forall (Forall (fun idx => idx < length (weight self))) indicies.

(** A table whose dictionary points past its matrix, as
    [GloveEmbedding] builds one from a file whose first line is
    dropped: the word sits in row 1 and is mapped to 2. *)
Module SampleShifted.

Definition shifted : PretrainedEmbedding Q := {|
  num_embeddings := 2;
  embedding_dim := 2;
  word2idx := <["cat" := 2]> (<["<unknown>" := 0]> ∅);
  vectors := [[0; 0]; [1; 2]]%Q;
  use_column_cache := true;
  weight := [[0; 0]; [1; 2]]%Q
|}.

End SampleShifted.

(** ** [get_columns_emb], said directly *)

Section ColumnsSpec.
Context {R : Type} `{Scalar R} `{Tokenizer}.
Variable self : PretrainedEmbedding R.

(** A cache entry as [get_columns_emb] stores one: a tensor with at
    least one row, all rows of one length, and one count per row. *)
Definition entry_ok (e : list (list (list R)) * list nat) : Prop :=
  e.1 <> [] /\ rectangular e.1 /\ length e.2 = length e.1.

Definition cache_ok (st : mstate R) : Prop :=
  map_Forall (fun _ e => entry_ok e) (column_cache st).

(** What a run of [get_columns_emb] over the schemas [dbs] may do to
    a cache [c0]: the entries are well formed, those of [c0] are
    kept as they are, a new key is one of [dbs], and nothing changes
    with caching off. *)
Definition cache_grown (dbs : list (list string))
    (c0 c1 : gmap (list string) (list (list (list R)) * list nat)) : Prop :=
  map_Forall (fun _ e => entry_ok e) c1 /\
  (forall key e, c0 !! key = Some e -> c1 !! key = Some e) /\
  (forall key, is_Some (c1 !! key) -> is_Some (c0 !! key) \/ key ∈ dbs) /\
  (use_column_cache self = false -> c1 = c0).

(** No column of the batch has more tokens after lowercasing than
    the padded size, which is computed before lowercasing. *)
Definition counts_fit (m2 : nat) (dbs : list (list string)) : Prop :=
  forall db c, db ∈ dbs -> c ∈ db -> length (word_tokenize (lower c)) <= m2.

(** The vectors of one column: the rows of its tokens, then zero
    vectors up to [m2]. *)
Definition column_rows (m2 : nat) (c : string) : list (list R) :=
  map (fun w => weight self !!! index_of self w) (word_tokenize (lower c)) ++
  replicate (m2 - length (word_tokenize (lower c)))
            (zeros (embedding_dim self)).

(** Row [i] of the two arrays for a schema that is embedded. *)
Definition miss_emb (m1 m2 : nat) (db : list string) : list (list (list R)) :=
  map (column_rows m2) db ++
  replicate (m1 - length db) (replicate m2 (zeros (embedding_dim self))).

Definition miss_lens (m1 : nat) (db : list string) : list nat :=
  map (fun c => length (word_tokenize (lower c))) db ++
  replicate (m1 - length db) 0.

(** Row [i] of the two arrays for any schema, given the cache at the
    start of the call. *)
Definition db_emb (m1 m2 : nat) (st : mstate R) (db : list string)
  : list (list (list R)) :=
  match column_cache st !! db with
  | Some e => hit_emb m1 m2 (embedding_dim self) e
  | None => miss_emb m1 m2 db
  end.

Definition db_lens (m1 m2 : nat) (st : mstate R) (db : list string)
  : list nat :=
  match column_cache st !! db with
  | Some e => hit_lens m1 m2 e
  | None => miss_lens m1 db
  end.

(** The schemas of a batch that are embedded, in order: those that
    are not in the cache at the start of the call and, with caching
    on, have not occurred earlier in the batch ([seen]). *)
Fixpoint embedded_dbs (st : mstate R) (seen dbs : list (list string))
  : list (list string) :=
  match dbs with
  | [] => []
  | db :: rest =>
      (match column_cache st !! db with
       | Some _ => []
       | None =>
           if use_column_cache self && bool_decide (db ∈ seen) then []
           else [db]
       end) ++ embedded_dbs st (db :: seen) rest
  end.

End ColumnsSpec.

(** ** Files [GloveEmbedding] can read *)

(** No line of the file is blank, and the values of every retained
    line read as numbers. *)
Definition readable (R : Type) `{Scalar R} (f : list string) : Prop :=
  Forall (fun l => Py.split l <> []) f /\
  Forall (fun i => exists v : list R, asarray (vector_at f i) = Ok v)
         (retained_lines 300 f).

(** ** The dictionary of [LaserEmbedding]

    The store is in step with the dictionary, no two tokens share an
    index, and every index below the size of the dictionary belongs to
    a token. *)
Definition laser_dense {R : Type} `{Embedder R} (st : Laser.LaserEmbedding R)
  : Prop :=
  laser_ok st /\
  (forall w1 w2 i,
     Laser.word2idx st !! w1 = Some i -> Laser.word2idx st !! w2 = Some i ->
     w1 = w2) /\
  (forall i, i < size (Laser.word2idx st) ->
     exists w, Laser.word2idx st !! w = Some i).

(** ** [LaserEmbedding.forward] with an embedder that can fail

    The external embedder is a call that may raise.
    [embedder_raises x] is the exception the call on the text [x]
    raises, [None] when it returns; [embedder x] is then the array it
    returns. *)
Class EmbedderFailure : Type := {
  embedder_raises : string -> option exn
}.

Module LaserExn.

Section LaserExn.
Context {R : Type} {S : Scalar R} {T : Tokenizer} {E : Embedder R}
      {F : EmbedderFailure}.

(** [self.embedder(text, method="sentence", language='en')]: the
  call is recorded, then it raises or returns. *)
Definition call_embedder (st : Laser.LaserEmbedding R) (text : string)
: result (ndarray R) * Laser.LaserEmbedding R :=
let st' :=
  Laser.Build_LaserEmbedding (Laser.num_embeddings st)
    (Laser.embedding_dim st) (Laser.word2idx st) (Laser.vectors st)
    (Laser.embedder_calls st ++ [text]) in
match embedder_raises text with
| Some e => (Raise e, st')
| None => (Ok (embedder text), st')
end.

(** The body of the first loop of the branch without the mean:
  [if word not in self.word2idx:
     self.word2idx[word] = len(self.word2idx)
     self.vectors.append(self.embedder(word, ...))].
  The dictionary is written before the embedder is called, so an
  exception of the embedder leaves the entry without its vector. *)
Definition learn_word (st : Laser.LaserEmbedding R) (word : string)
: result unit * Laser.LaserEmbedding R :=
match Laser.word2idx st !! word with
| Some _ => (Ok tt, st)
| None =>
    let st1 :=
      Laser.Build_LaserEmbedding (Laser.num_embeddings st)
        (Laser.embedding_dim st)
        (<[word := size (Laser.word2idx st)]> (Laser.word2idx st))
        (Laser.vectors st) (Laser.embedder_calls st) in
    match call_embedder st1 word with
    | (Ok a, st2) =>
        (Ok tt,
         Laser.Build_LaserEmbedding (Laser.num_embeddings st2)
           (Laser.embedding_dim st2) (Laser.word2idx st2)
           (Laser.vectors st2 ++ [a]) (Laser.embedder_calls st2))
    | (Raise e, st2) => (Raise e, st2)
    end
end.

(** A [for] loop whose body may raise: the first exception ends it,
  with the object as the body left it. *)
Fixpoint each {A : Type}
  (body : Laser.LaserEmbedding R -> A -> result unit * Laser.LaserEmbedding R)
  (st : Laser.LaserEmbedding R) (l : list A)
: result unit * Laser.LaserEmbedding R :=
match l with
| [] => (Ok tt, st)
| x :: l' =>
    match body st x with
    | (Ok _, st') => each body st' l'
    | (Raise e, st') => (Raise e, st')
    end
end.

(** [for i, sentence in enumerate(sentences_words):
    for j, word in enumerate(sentence): ...] *)
Definition learn_words (st : Laser.LaserEmbedding R)
  (sentences_words : list (list string))
: result unit * Laser.LaserEmbedding R :=
each (fun st sentence => each learn_word st sentence) st sentences_words.

(** The loop of the branch with the mean:
  [for sentence in sentences:
     word_embeddings.append(self.embedder(sentence, ...))]. *)
Fixpoint embed_sentences (st : Laser.LaserEmbedding R)
  (sentences : list string) (word_embeddings : list (ndarray R))
: result (list (ndarray R)) * Laser.LaserEmbedding R :=
match sentences with
| [] => (Ok word_embeddings, st)
| sentence :: rest =>
    match call_embedder st sentence with
    | (Ok a, st') => embed_sentences st' rest (word_embeddings ++ [a])
    | (Raise e, st') => (Raise e, st')
    end
end.

(** [LaserEmbedding.forward]. An exception of the embedder leaves
  the method at once: [num_embeddings] is not updated and no
  tensor is built. *)
Definition forward (sentences : sentences_arg) (mean_sequence : bool)
  (st : Laser.LaserEmbedding R)
: result (ndarray R * list nat) * Laser.LaserEmbedding R :=
let sentences := as_list sentences in
let sentences := map lower sentences in
let sentences_words := map word_tokenize sentences in
let lengths := map length sentences_words in
match Py.max lengths with
| Raise e => (Raise e, st)
| Ok max_len =>
    if mean_sequence then
      match embed_sentences st sentences [] with
      | (Raise e, st') => (Raise e, st')
      | (Ok word_embeddings, st') =>
          (t ← Laser.tensor_of_arrays word_embeddings;
           Ok (Laser.finish t, lengths), st')
      end
    else
      match learn_words st sentences_words with
      | (Raise e, st1) => (Raise e, st1)
      | (Ok _, st1) =>
          let st2 :=
            Laser.Build_LaserEmbedding (size (Laser.word2idx st1))
              (Laser.embedding_dim st1) (Laser.word2idx st1)
              (Laser.vectors st1) (Laser.embedder_calls st1) in
          (word_embeddings ← rmapM (Laser.retrieve st2 max_len) sentences_words;
           t ← Laser.tensor_of_rows word_embeddings;
           Ok (Laser.finish t, lengths), st2)
      end
end.

(** The embedder returns for every token of the batch that the
  dictionary of [st] does not know. *)
Definition returns_on_new (st : Laser.LaserEmbedding R)
  (sentences : sentences_arg) : Prop :=
forall w, w ∈ concat (tokens_of (as_list sentences)) ->
  Laser.word2idx st !! w = None -> embedder_raises w = None.

End LaserExn.
End LaserExn.

(** Embedders for the examples: one that always returns, and one that
    raises on the text [b]. *)
Module SampleFailure.

Definition never : EmbedderFailure := {| embedder_raises := fun _ => None |}.

Definition on_b : EmbedderFailure := {|
  embedder_raises := fun text =>
    if String.eqb text "b" then Some RuntimeError else None
|}.

End SampleFailure.

(** * Properties *)

(** The definitions use [map]; stdpp states its lemmas with [<$>]. *)
Ltac to_fmap :=
  repeat match goal with
         | |- context [map ?f ?l] => change (map f l) with (f <$> l)
         | H : context [map ?f ?l] |- _ => change (map f l) with (f <$> l) in H
         end.

(** ** Results and loops *)

Lemma rmapM_app {A B} (f : A -> result B) (l1 l2 : list A) :
  rmapM f (l1 ++ l2) = (ys1 ← rmapM f l1; ys2 ← rmapM f l2; Ok (ys1 ++ ys2)).
Proof.
  induction l1 as [|x l1 IH]; simpl.
  - destruct (rmapM f l2); reflexivity.
  - destruct (f x) as [y|e]; simpl; [|reflexivity].
    rewrite IH. destruct (rmapM f l1) as [ys1|e]; simpl; [|reflexivity].
    destruct (rmapM f l2); reflexivity.
Qed.

Lemma rmapM_length {A B} (f : A -> result B) (l : list A) (ys : list B) :
  rmapM f l = Ok ys -> length ys = length l.
Proof.
  revert ys. induction l as [|x l IH]; simpl; intros ys Hys.
  - inversion Hys. reflexivity.
  - destruct (f x) as [y|e]; simpl in Hys; [|discriminate].
    destruct (rmapM f l) as [ys'|e]; simpl in Hys; [|discriminate].
    inversion Hys. simpl. f_equal. apply IH. reflexivity.
Qed.

Lemma rmapM_lookup {A B} (f : A -> result B) (l : list A) (ys : list B) i x :
  rmapM f l = Ok ys -> l !! i = Some x -> exists y, ys !! i = Some y /\ f x = Ok y.
Proof.
  revert ys i. induction l as [|a l IH]; simpl; intros ys i Hys Hi.
  - discriminate.
  - destruct (f a) as [y|e] eqn:Hfa; simpl in Hys; [|discriminate].
    destruct (rmapM f l) as [ys'|e] eqn:Hl; simpl in Hys; [|discriminate].
    inversion Hys; subst ys. destruct i as [|i]; simpl in *.
    + inversion Hi; subst. eauto.
    + eapply IH; eauto.
Qed.

Lemma rmapM_Ok_Forall {A B} (f : A -> result B) (l : list A) :
  Forall (fun x => exists y, f x = Ok y) l -> exists ys, rmapM f l = Ok ys.
Proof.
  induction 1 as [|x l [y Hy] _ [ys IH]]; simpl.
  - eauto.
  - rewrite Hy, IH. simpl. eauto.
Qed.

Lemma filter_ext_elem_of {A} (P Q : A -> Prop)
    `{!forall x, Decision (P x)} `{!forall x, Decision (Q x)} (l : list A) :
  (forall x, x ∈ l -> (P x <-> Q x)) -> filter P l = filter Q l.
Proof.
  induction l as [|a l IH]; intros Hpq; [reflexivity|].
  rewrite !filter_cons.
  assert (Ha : P a <-> Q a) by (apply Hpq; left).
  rewrite IH by (intros x Hx; apply Hpq; right; exact Hx).
  repeat case_decide; tauto.
Qed.

(** ** The vocabulary table *)

Section GloveFacts.
Context {R : Type} `{Scalar R}.

Lemma glove_loop_app (acc : gmap string nat * list (list R)) l1 l2 :
  glove_loop acc (l1 ++ l2) = (acc' ← glove_loop acc l1; glove_loop acc' l2).
Proof.
  revert acc. induction l1 as [|x l1 IH]; intros acc; simpl.
  - reflexivity.
  - destruct (glove_line acc x) as [acc'|e]; simpl; [apply IH | reflexivity].
Qed.

Lemma enumerate1_snoc {A} (l : list A) (x : A) :
  enumerate1 (l ++ [x]) = enumerate1 l ++ [(S (length l), x)].
Proof.
  unfold enumerate1. rewrite imap_app. simpl.
  rewrite Nat.add_0_r. reflexivity.
Qed.

Lemma fields_at_app_l (f : list string) l i :
  i < length f -> fields_at (f ++ [l]) i = fields_at f i.
Proof. intros Hi. unfold fields_at. rewrite lookup_app_l by exact Hi. reflexivity. Qed.

Lemma fields_at_app_r (f : list string) l :
  fields_at (f ++ [l]) (length f) = Py.split l.
Proof.
  unfold fields_at. rewrite lookup_app_r by lia.
  rewrite Nat.sub_diag. reflexivity.
Qed.

Lemma retained_app_l dim (f : list string) l i :
  i < length f -> retained dim (f ++ [l]) i = retained dim f i.
Proof.
  intros Hi. unfold retained. rewrite fields_at_app_l by exact Hi.
  rewrite take_app_le by lia. reflexivity.
Qed.

Lemma retained_app_r dim (f : list string) l :
  retained dim (f ++ [l]) (length f) =
  match Py.split l with
  | token :: vector =>
      (length vector =? dim) && negb (existsb (carries dim token) f)
  | [] => false
  end.
Proof.
  unfold retained. rewrite fields_at_app_r.
  rewrite take_app_length. reflexivity.
Qed.

Lemma retained_lines_snoc dim (f : list string) l :
  retained_lines dim (f ++ [l]) =
  retained_lines dim f ++
    (if retained dim (f ++ [l]) (length f) then [length f] else []).
Proof.
  unfold retained_lines. rewrite length_app. simpl.
  rewrite Nat.add_1_r, seq_S, filter_app. simpl. f_equal.
  - apply filter_ext_elem_of. intros i Hi.
    apply elem_of_seq in Hi. rewrite retained_app_l by lia. reflexivity.
  - rewrite filter_cons, filter_nil.
    destruct (retained dim (f ++ [l]) (length f)); reflexivity.
Qed.

End GloveFacts.

Section GloveLoop.
Context {R : Type} `{Scalar R}.

Lemma retained_lines_lt dim (f : list string) i :
  i ∈ retained_lines dim f -> i < length f.
Proof.
  unfold retained_lines. intros Hi. apply list_elem_of_filter in Hi as [_ Hi].
  apply elem_of_seq in Hi. lia.
Qed.

Lemma token_at_app_l (f : list string) l i :
  i < length f -> token_at (f ++ [l]) i = token_at f i.
Proof. intros Hi. unfold token_at. rewrite fields_at_app_l by exact Hi. reflexivity. Qed.

Lemma vector_at_app_l (f : list string) l i :
  i < length f -> vector_at (f ++ [l]) i = vector_at f i.
Proof. intros Hi. unfold vector_at. rewrite fields_at_app_l by exact Hi. reflexivity. Qed.

Lemma map_vector_at_app_l dim (f : list string) l :
  map (vector_at (f ++ [l])) (retained_lines dim f) =
  map (vector_at f) (retained_lines dim f).
Proof.
  apply map_ext_in. intros i Hi. apply vector_at_app_l.
  apply (retained_lines_lt dim). apply list_elem_of_In. exact Hi.
Qed.

Lemma existsb_snoc {A} (p : A -> bool) (l : list A) (x : A) :
  existsb p (l ++ [x]) = existsb p l || p x.
Proof. rewrite existsb_app. simpl. rewrite orb_false_r. reflexivity. Qed.

(** The loop, run on a file without blank lines whose retained lines
    hold numbers, ends normally and establishes [glove_inv]. *)
Lemma glove_loop_inv (f : list string) :
  Forall (fun l => Py.split l <> []) f ->
  Forall (fun i => exists v : list R, asarray (vector_at f i) = Ok v)
         (retained_lines 300 f) ->
  exists w2i vecs,
    glove_loop (∅, []) (enumerate1 f) = Ok (w2i, vecs) /\
    glove_inv f w2i vecs.
Proof.
  induction f as [|l f IH] using rev_ind; intros Hnb Hnum.
  - exists ∅, []. split; [reflexivity|].
    repeat split; simpl.
    + intros [x Hx]. rewrite lookup_empty in Hx. discriminate.
    + discriminate.
    + intros i Hi. inversion Hi.
    + intros t idx Ht. rewrite lookup_empty in Ht. discriminate.
  - apply Forall_app in Hnb as [Hnb Hl]. rewrite Forall_singleton in Hl.
    rewrite retained_lines_snoc in Hnum.
    apply Forall_app in Hnum as [Hnum Hlast].
    destruct IH as (w2i & vecs & Hloop & Ha & Hb & Hc & Hd & He).
    { exact Hnb. }
    { apply Forall_forall. intros i Hi.
      rewrite Forall_forall in Hnum. specialize (Hnum i Hi).
      rewrite vector_at_app_l in Hnum by (eapply retained_lines_lt; exact Hi).
      exact Hnum. }
    rewrite enumerate1_snoc, glove_loop_app, Hloop. simpl.
    rewrite retained_app_r in Hlast.
    destruct (Py.split l) as [|token vector] eqn:Hsplit; [congruence|].
    assert (Hmem : bool_decide (is_Some (w2i !! token))
                   = existsb (carries 300 token) f).
    { destruct (existsb (carries 300 token) f) eqn:Hex.
      - apply bool_decide_eq_true. apply Ha. exact Hex.
      - apply bool_decide_eq_false. intros Hs. apply Ha in Hs. congruence. }
    rewrite Hmem.
    assert (Hcar : forall t, carries 300 t l =
              bool_decide (token = t) && (length vector =? 300)).
    { intros t. unfold carries. rewrite Hsplit. reflexivity. }
    destruct ((length vector =? 300) && negb (existsb (carries 300 token) f))
      eqn:Hkeep.
    + apply andb_true_iff in Hkeep as [Hlen Hnew].
      apply negb_true_iff in Hnew.
      rewrite Forall_singleton in Hlast. destruct Hlast as [v Hv].
      unfold vector_at in Hv. rewrite fields_at_app_r, Hsplit in Hv.
      simpl in Hv. rewrite Hv. simpl.
      eexists _, _. split; [reflexivity|].
      assert (Hfresh : w2i !! token = None).
      { apply eq_None_not_Some. intros Hs. apply Ha in Hs. congruence. }
      repeat split.
      * intros Hs. rewrite existsb_snoc, Hcar, Hlen, andb_true_r.
        destruct (decide (token = t)) as [->|Hne].
        -- rewrite bool_decide_eq_true_2 by reflexivity. apply orb_true_r.
        -- rewrite lookup_insert_ne in Hs by exact Hne.
           apply Ha in Hs. rewrite Hs. reflexivity.
      * rewrite existsb_snoc, Hcar, Hlen, andb_true_r. intros Hex.
        destruct (decide (token = t)) as [->|Hne].
        -- rewrite lookup_insert_eq. eauto.
        -- rewrite lookup_insert_ne by exact Hne. apply Ha.
           rewrite bool_decide_eq_false_2 in Hex by exact Hne.
           rewrite orb_false_r in Hex. exact Hex.
      * intros i Hi. rewrite retained_lines_snoc, retained_app_r, Hsplit in Hi.
        rewrite Hlen, Hnew in Hi. simpl in Hi.
        apply elem_of_app in Hi as [Hi|Hi].
        -- rewrite token_at_app_l by (eapply retained_lines_lt; exact Hi).
           rewrite lookup_insert_ne; [apply Hb; exact Hi|].
           intros Heq. specialize (Hb i Hi). rewrite <- Heq in Hb. congruence.
        -- apply list_elem_of_singleton in Hi. subst i.
           unfold token_at. rewrite fields_at_app_r, Hsplit. simpl.
           apply lookup_insert_eq.
      * intros t idx Ht.
        rewrite retained_lines_snoc, retained_app_r, Hsplit, Hlen, Hnew.
        simpl.
        destruct (decide (token = t)) as [->|Hne].
        -- rewrite lookup_insert_eq in Ht. inversion Ht; subst idx.
           exists (length f). split; [reflexivity|]. split.
           ++ apply elem_of_app. right. apply list_elem_of_singleton. reflexivity.
           ++ unfold token_at. rewrite fields_at_app_r, Hsplit. reflexivity.
        -- rewrite lookup_insert_ne in Ht by exact Hne.
           destruct (Hc t idx Ht) as (i & -> & Hi & Htok).
           exists i. split; [reflexivity|]. split.
           ++ apply elem_of_app. left. exact Hi.
           ++ rewrite token_at_app_l by (eapply retained_lines_lt; exact Hi).
              exact Htok.
      * rewrite retained_lines_snoc, retained_app_r, Hsplit, Hlen, Hnew.
        simpl. rewrite map_app, rmapM_app, map_vector_at_app_l, Hd. simpl.
        unfold vector_at at 1. rewrite fields_at_app_r, Hsplit. simpl.
        rewrite Hv. reflexivity.
      * rewrite retained_lines_snoc, retained_app_r, Hsplit, Hlen, Hnew.
        simpl. rewrite length_app, map_size_insert_None by exact Hfresh.
        simpl. lia.
    + exists w2i, vecs. split; [reflexivity|].
      assert (Hdrop : retained_lines 300 (f ++ [l]) = retained_lines 300 f).
      { rewrite retained_lines_snoc, retained_app_r, Hsplit, Hkeep.
        apply app_nil_r. }
      repeat split.
      * intros Hs. rewrite existsb_snoc. apply Ha in Hs. rewrite Hs. reflexivity.
      * rewrite existsb_snoc, Hcar. intros Hex.
        apply orb_true_iff in Hex as [Hex|Hex]; [apply Ha; exact Hex|].
        apply andb_true_iff in Hex as [Heq Hlen].
        apply bool_decide_eq_true in Heq. subst t.
        rewrite Hlen in Hkeep. simpl in Hkeep.
        apply negb_false_iff in Hkeep. apply Ha. exact Hkeep.
      * intros i Hi. rewrite Hdrop in Hi.
        rewrite token_at_app_l by (eapply retained_lines_lt; exact Hi).
        apply Hb. exact Hi.
      * intros t idx Ht. rewrite Hdrop.
        destruct (Hc t idx Ht) as (i & -> & Hi & Htok).
        exists i. split; [reflexivity|]. split; [exact Hi|].
        rewrite token_at_app_l by (eapply retained_lines_lt; exact Hi).
        exact Htok.
      * rewrite Hdrop, map_vector_at_app_l. exact Hd.
      * rewrite Hdrop. exact He.
Qed.

Lemma retained_vector_length dim (f : list string) i :
  retained dim f i = true -> length (vector_at f i) = dim.
Proof.
  unfold retained, vector_at. destruct (fields_at f i) as [|t v]; [discriminate|].
  intros Hr. apply andb_true_iff in Hr as [Hlen _].
  apply Nat.eqb_eq in Hlen. exact Hlen.
Qed.

Lemma asarray_length (vector : list string) (v : list R) :
  asarray vector = Ok v -> length v = length vector.
Proof. apply rmapM_length. Qed.

(** Every row built from a retained line has 300 entries. *)
Lemma retained_rows_300 (f : list string) (vecs : list (list R)) :
  rmapM asarray (map (vector_at f) (retained_lines 300 f)) = Ok vecs ->
  Forall (fun v => length v = 300) vecs.
Proof.
  intros Hvecs. apply Forall_lookup. intros k v Hk.
  assert (Hlt : k < length (map (vector_at f) (retained_lines 300 f))).
  { rewrite <- (rmapM_length _ _ _ Hvecs). eapply lookup_lt_Some. exact Hk. }
  apply lookup_lt_is_Some in Hlt as [vector Hvector].
  destruct (rmapM_lookup _ _ _ _ _ Hvecs Hvector) as (v' & Hv' & Hparse).
  rewrite Hk in Hv'. inversion Hv'; subst v'.
  rewrite (asarray_length _ _ Hparse).
  to_fmap. apply list_lookup_fmap_Some in Hvector as (i & -> & Hi).
  apply retained_vector_length.
  apply list_elem_of_lookup_2 in Hi.
  apply list_elem_of_filter in Hi as [Hi _]. exact Hi.
Qed.

End GloveLoop.

Section GloveTable.
Context {R : Type} `{Scalar R}.

(** A source of exactly the shape of the weight is copied as it is. *)
Lemma copy_weight_exact (n dim : nat) (vs : list (list R)) :
  n <> 0 -> length vs = n -> Forall (fun v => length v = dim) vs ->
  copy_weight n dim vs = Ok vs.
Proof.
  intros Hn Hlen Hrows. unfold copy_weight.
  destruct vs as [|v0 vs']; [simpl in Hlen; congruence|].
  assert (Hv0 : length v0 = dim) by (inversion Hrows; assumption).
  rewrite Hv0.
  assert (Hall : forallb (fun v : list R => length v =? dim) (v0 :: vs') = true).
  { apply forallb_forall. intros v Hv. apply Nat.eqb_eq.
    rewrite Forall_forall in Hrows. apply Hrows. apply list_elem_of_In. exact Hv. }
  rewrite Hall, Nat.eqb_refl, Hlen, Nat.eqb_refl. simpl.
  f_equal. f_equal. apply map_id.
Qed.

Lemma length_zeros (n : nat) : length (zeros (R:=R) n) = n.
Proof. apply length_replicate. Qed.

(** The object the constructor returns for a file without blank
    lines, whose kept lines hold numbers, which keeps at least one
    line and does not itself define the unknown token. *)
Lemma glove_init_fields (f : list string) (cache : bool) :
  Forall (fun l => Py.split l <> []) f ->
  Forall (fun i => exists v : list R, asarray (vector_at f i) = Ok v)
         (retained_lines 300 f) ->
  retained_lines 300 f <> [] ->
  Forall (fun i => token_at f i <> "<unknown>") (retained_lines 300 f) ->
  exists (w2i : gmap string nat) (vecs : list (list R)),
    glove_inv f w2i vecs /\
    w2i !! "<unknown>" = None /\
    Forall (fun v => length v = 300) vecs /\
    GloveEmbedding_init f cache =
      Ok {| num_embeddings := S (size w2i);
            embedding_dim := 300;
            word2idx := <["<unknown>" := 0]> w2i;
            vectors := zeros 300 :: vecs;
            use_column_cache := cache;
            weight := zeros 300 :: vecs |}.
Proof.
  intros Hnb Hnum Hsome Hunk.
  destruct (glove_loop_inv f Hnb Hnum) as (w2i & vecs & Hloop & Hinv).
  pose proof Hinv as (Ha & Hb & Hc & Hd & He).
  assert (Hrows : Forall (fun v => length v = 300) vecs)
    by (eapply retained_rows_300; exact Hd).
  assert (Hlen : length vecs = length (retained_lines 300 f)).
  { rewrite (rmapM_length _ _ _ Hd). apply length_map. }
  assert (Hfresh : w2i !! "<unknown>" = None).
  { destruct (w2i !! "<unknown>") as [idx|] eqn:Hlook; [|reflexivity].
    destruct (Hc _ _ Hlook) as (i & _ & Hi & Htok).
    rewrite Forall_forall in Hunk. exfalso. exact (Hunk i Hi Htok). }
  exists w2i, vecs. split; [exact Hinv|]. split; [exact Hfresh|].
  split; [exact Hrows|].
  unfold GloveEmbedding_init, glove_table. rewrite Hloop. simpl.
  destruct vecs as [|v0 vecs'].
  { simpl in Hlen. destruct (retained_lines 300 f); [congruence|discriminate]. }
  assert (Hv0 : length v0 = 300) by (inversion Hrows; assumption).
  unfold PretrainedEmbedding_init. cbn -[copy_weight zeros size].
  rewrite Hv0, length_zeros.
  rewrite map_size_insert_None by exact Hfresh.
  cbn -[copy_weight zeros size].
  rewrite copy_weight_exact; [reflexivity|discriminate| |].
  - simpl. rewrite He. simpl in Hlen. lia.
  - constructor; [apply length_zeros | exact Hrows].
Qed.

(** When no line of the file is dropped, the line numbers are the row
    numbers, and the object satisfies the invariants of the data
    model. *)
Lemma glove_clean_ok (f : list string) (cache : bool)
    (e : PretrainedEmbedding R) :
  Forall (fun l => Py.split l <> []) f ->
  Forall (fun i => exists v : list R, asarray (vector_at f i) = Ok v)
         (retained_lines 300 f) ->
  Forall (fun i => token_at f i <> "<unknown>") (retained_lines 300 f) ->
  length (retained_lines 300 f) = length f ->
  GloveEmbedding_init f cache = Ok e ->
  vocab_ok e /\ weight_ok e.
Proof.
  intros Hnb Hnum Hunk Hall Hinit.
  destruct (decide (retained_lines 300 f = [])) as [Hnil|Hsome].
  { exfalso. revert Hinit. unfold GloveEmbedding_init, glove_table.
    destruct (glove_loop_inv f Hnb Hnum) as (w2i & vecs & -> & _ & _ & _ & Hd & _).
    rewrite Hnil in Hd. simpl in Hd. inversion Hd; subst vecs. discriminate. }
  destruct (glove_init_fields f cache Hnb Hnum Hsome Hunk)
    as (w2i & vecs & (Ha & Hb & Hc & Hd & He) & Hfresh & Hrows & Heq).
  rewrite Heq in Hinit. inversion Hinit; subst e. clear Hinit.
  assert (Hlen : length vecs = length f).
  { rewrite (rmapM_length _ _ _ Hd), length_map. exact Hall. }
  split; [split|].
  - cbn [word2idx weight]. intros w i Hw. simpl.
    destruct (decide ("<unknown>" = w)) as [<-|Hne].
    + rewrite lookup_insert_eq in Hw. inversion Hw. lia.
    + rewrite lookup_insert_ne in Hw by exact Hne.
      destruct (Hc w i Hw) as (j & -> & Hj & _).
      apply retained_lines_lt in Hj. lia.
  - reflexivity.
  - unfold weight_ok. cbn [weight embedding_dim].
    constructor; [apply length_zeros|exact Hrows].
Qed.

End GloveTable.

(** C1 (as amended). The loader keeps a line exactly when its vector
    has 300 values, the one dimension it accepts, and no earlier kept
    line carries its token. For a file without blank lines, whose kept
    lines hold numbers, which keeps at least one line and does not
    itself define the unknown token, the constructor returns an object
    whose matrix is the zero row followed by the vectors of the kept
    lines in file order, with [num_embeddings] one more than the number
    of kept lines, [embedding_dim = 300], [<unknown>] at index 0 and the
    token of each kept line at its line number; no other token is
    known. *)
Theorem C1_glove_retains_300 {R : Type} `{Scalar R}
    (f : list string) (cache : bool) :
  Forall (fun l => Py.split l <> []) f ->
  Forall (fun i => exists v : list R, asarray (vector_at f i) = Ok v)
         (retained_lines 300 f) ->
  retained_lines 300 f <> [] ->
  Forall (fun i => token_at f i <> "<unknown>") (retained_lines 300 f) ->
  exists (e : PretrainedEmbedding R) (vecs : list (list R)),
    GloveEmbedding_init f cache = Ok e /\
    rmapM asarray (map (vector_at f) (retained_lines 300 f)) = Ok vecs /\
    weight e = zeros 300 :: vecs /\
    num_embeddings e = S (length (retained_lines 300 f)) /\
    embedding_dim e = 300 /\
    word2idx e !! "<unknown>" = Some 0 /\
    (forall i, i ∈ retained_lines 300 f ->
       word2idx e !! token_at f i = Some (S i)) /\
    (forall t idx, word2idx e !! t = Some idx ->
       (t = "<unknown>" /\ idx = 0) \/
       exists i, idx = S i /\ i ∈ retained_lines 300 f /\ token_at f i = t).
Proof.
  intros Hnb Hnum Hsome Hunk.
  destruct (glove_init_fields f cache Hnb Hnum Hsome Hunk)
    as (w2i & vecs & (Ha & Hb & Hc & Hd & He) & Hfresh & Hrows & Heq).
  eexists _, vecs. split; [exact Heq|]. cbn [weight num_embeddings embedding_dim word2idx].
  split; [exact Hd|]. split; [reflexivity|].
  split; [rewrite He; reflexivity|]. split; [reflexivity|].
  split; [apply lookup_insert_eq|]. split.
  - intros i Hi. rewrite lookup_insert_ne; [apply Hb; exact Hi|].
    intros Heq'. rewrite Forall_forall in Hunk. apply (Hunk i Hi).
    symmetry. exact Heq'.
  - intros t idx Ht. destruct (decide ("<unknown>" = t)) as [<-|Hne].
    + rewrite lookup_insert_eq in Ht. inversion Ht. left. split; reflexivity.
    + rewrite lookup_insert_ne in Ht by exact Hne. right. eapply Hc. exact Ht.
Qed.

(** The scenario of C1 with vectors of the dimension the loader accepts. *)
Lemma C1_glove_retains_300_witness :
  exists e : PretrainedEmbedding Q,
    GloveEmbedding_init
      [Sample.line300 "cat" "0.1"; Sample.line300 "dog" "0.4"] true = Ok e /\
    num_embeddings e = 3 /\ embedding_dim e = 300 /\
    word2idx e !! "<unknown>" = Some 0 /\
    word2idx e !! "cat" = Some 1 /\ word2idx e !! "dog" = Some 2 /\
    word2idx e !! "cat" <> word2idx e !! "dog".
Proof.
  pose (f := [Sample.line300 "cat" "0.1"; Sample.line300 "dog" "0.4"]).
  assert (Hret : retained_lines 300 f = [0; 1]) by (vm_compute; reflexivity).
  destruct (C1_glove_retains_300 (R:=Q) f true)
    as (e & vecs & Hinit & _ & _ & Hn & Hdim & Hunk & Hidx & _).
  - repeat constructor; vm_compute; discriminate.
  - rewrite Hret. repeat constructor; eexists; vm_compute; reflexivity.
  - rewrite Hret. discriminate.
  - rewrite Hret. repeat constructor; vm_compute; discriminate.
  - exists e. rewrite Hret in Hn, Hidx.
    assert (Hcat : word2idx e !! "cat" = Some 1).
    { apply (Hidx 0). apply list_elem_of_In. simpl. tauto. }
    assert (Hdog : word2idx e !! "dog" = Some 2).
    { apply (Hidx 1). apply list_elem_of_In. simpl. tauto. }
    repeat split; try assumption.
    rewrite Hcat, Hdog. discriminate.
Defined.

(** C1 (as stated): the two lines of dimension 3 are both dropped,
    there is no first row to size the zero vector by, and the
    constructor raises instead of returning a table of 3 entries. *)
Lemma C1_dimension_3_file_raises :
  GloveEmbedding_init (R:=Q) ["cat 0.1 0.2 0.3"; "dog 0.4 0.5 0.6"] true
    = Raise IndexError /\
  ~ exists e : PretrainedEmbedding Q,
      GloveEmbedding_init ["cat 0.1 0.2 0.3"; "dog 0.4 0.5 0.6"] true = Ok e /\
      num_embeddings e = 3 /\ embedding_dim e = 3.
Proof.
  assert (Hraise :
    GloveEmbedding_init (R:=Q) ["cat 0.1 0.2 0.3"; "dog 0.4 0.5 0.6"] true
      = Raise IndexError) by (vm_compute; reflexivity).
  split; [exact Hraise|].
  intros (e & He & _). rewrite Hraise in He. discriminate.
Qed.

(** C2, on a file whose first line is dropped: the token of the second
    line is mapped to its line number 2, while the matrix has rows 0
    and 1 only; row 1 holds its vector, and [num_embeddings] is 2. *)
Theorem C2_index_beyond_matrix :
  exists e : PretrainedEmbedding Q,
    GloveEmbedding_init ["x 1 2 3"; Sample.line300 "cat" "0.5"] true = Ok e /\
    num_embeddings e = 2 /\
    word2idx e !! "cat" = Some 2 /\
    weight e !! 2 = None /\
    weight e !! 1 = Some (replicate 300 (5 # 10)%Q).
Proof.
  eexists. split; [vm_compute; reflexivity|].
  repeat split; vm_compute; reflexivity.
Qed.

(** ** [PretrainedEmbedding.forward] *)

Lemma enumerate_snoc {A} (l : list A) (x : A) :
  enumerate (l ++ [x]) = enumerate l ++ [(length l, x)].
Proof.
  unfold enumerate. rewrite imap_app. simpl.
  rewrite Nat.add_0_r. reflexivity.
Qed.

Section Forward.
Context {R : Type} `{Scalar R} `{Tokenizer}.
Variable self : PretrainedEmbedding R.

(** The inner loop writes the indices of the words over the front of
    the row. *)
Lemma fill_row_spec (sentence : list string) (row : list nat) :
  length sentence <= length row ->
  fill_row self row sentence =
  map (index_of self) sentence ++ drop (length sentence) row.
Proof.
  unfold fill_row.
  induction sentence as [|w sentence IH] using rev_ind; intros Hlen.
  - simpl. rewrite drop_0. reflexivity.
  - rewrite length_app in Hlen. simpl in Hlen.
    rewrite enumerate_snoc, foldl_app. simpl.
    rewrite IH by lia.
    assert (Hn : length sentence < length row) by lia.
    apply lookup_lt_is_Some in Hn as [x Hx].
    rewrite (drop_S _ _ _ Hx).
    replace (length sentence) with (length (map (index_of self) sentence) + 0)
      at 1 by (rewrite length_map; lia).
    rewrite insert_app_r. simpl.
    rewrite map_app, <- app_assoc, length_app. simpl.
    rewrite Nat.add_1_r. reflexivity.
Qed.

(** The outer loop fills row [i] from sentence [i]. *)
Lemma fill_indicies_spec (sentences_words : list (list string))
    (row0 : list nat) (m : nat) :
  fill_indicies self (replicate (length sentences_words + m) row0)
                sentences_words =
  map (fill_row self row0) sentences_words ++ replicate m row0.
Proof.
  unfold fill_indicies. revert m.
  induction sentences_words as [|s sw IH] using rev_ind; intros m.
  - reflexivity.
  - rewrite length_app. simpl.
    rewrite enumerate_snoc, foldl_app. simpl.
    replace (length sw + 1 + m) with (length sw + S m) by lia.
    rewrite IH. simpl.
    assert (Hlen : length (map (fill_row self row0) sw) = length sw)
      by apply length_map.
    rewrite lookup_total_app_r by lia.
    rewrite Hlen, Nat.sub_diag. simpl.
    replace (length sw) with (length (map (fill_row self row0) sw) + 0)
      at 1 by lia.
    rewrite insert_app_r. simpl.
    rewrite map_app, <- app_assoc. reflexivity.
Qed.

Lemma fill_indicies_padded (sentences_words : list (list string)) :
  fill_indicies self
    (replicate (length sentences_words)
               (replicate (max_list (map length sentences_words)) 0))
    sentences_words =
  padded_indices self (max_list (map length sentences_words)) sentences_words.
Proof.
  pose proof (fill_indicies_spec sentences_words
                (replicate (max_list (map length sentences_words)) 0) 0) as Hs.
  rewrite Nat.add_0_r in Hs. rewrite Hs. simpl. rewrite app_nil_r.
  unfold padded_indices. apply map_ext_in. intros ws Hws.
  assert (Hle : length ws <= max_list (map length sentences_words)).
  { apply max_list_elem_of_le. apply list_elem_of_In, in_map, Hws. }
  rewrite fill_row_spec by (rewrite length_replicate; exact Hle).
  rewrite drop_replicate. reflexivity.
Qed.

Lemma rmapM_map_Ok {A B} (f : A -> result B) (g : A -> B) (l : list A) :
  (forall x, x ∈ l -> f x = Ok (g x)) -> rmapM f l = Ok (map g l).
Proof.
  induction l as [|x l IH]; intros Hf; simpl; [reflexivity|].
  rewrite Hf by left. simpl.
  rewrite IH by (intros y Hy; apply Hf; right; exact Hy). reflexivity.
Qed.

Lemma index_of_lt (word : string) :
  vocab_ok self -> index_of self word < length (weight self).
Proof.
  intros [Hin Hzero]. unfold index_of.
  destruct (word2idx self !! word) as [i|] eqn:Hw; simpl.
  - eapply Hin. exact Hw.
  - eapply lookup_lt_Some. exact Hzero.
Qed.

Lemma padded_indices_lt (max_len : nat) (sw : list (list string)) row idx :
  vocab_ok self ->
  row ∈ padded_indices self max_len sw -> idx ∈ row ->
  idx < length (weight self).
Proof.
  intros Hok Hrow Hidx. unfold padded_indices in Hrow.
  apply list_elem_of_In, in_map_iff in Hrow as (ws & <- & _).
  apply elem_of_app in Hidx as [Hidx|Hidx].
  - apply list_elem_of_In, in_map_iff in Hidx as (w & <- & _).
    apply index_of_lt. exact Hok.
  - apply elem_of_replicate in Hidx as [-> _].
    destruct Hok as [_ Hzero]. eapply lookup_lt_Some. exact Hzero.
Qed.

(** With a vocabulary that respects the weight, the lookup of the
    padded indices succeeds. *)
Lemma embedding_padded (max_len : nat) (sw : list (list string)) :
  vocab_ok self ->
  embedding self (padded_indices self max_len sw) =
  Ok (map (map (fun idx => weight self !!! idx)) (padded_indices self max_len sw)).
Proof.
  intros Hok. unfold embedding.
  apply rmapM_map_Ok. intros row Hrow.
  apply rmapM_map_Ok. intros idx Hidx.
  pose proof (padded_indices_lt _ _ _ _ Hok Hrow Hidx) as Hlt.
  apply lookup_lt_is_Some in Hlt as [v Hv].
  rewrite Hv. f_equal. symmetry. apply list_lookup_total_correct. exact Hv.
Qed.

(** [forward] without the mean, in closed form. *)
Lemma forward_seq (sentences : list string) :
  vocab_ok self -> sentences <> [] ->
  forward self (StrList sentences) false =
  Ok (Rank3 (map (map (fun idx => weight self !!! idx))
                 (padded_indices self
                    (max_list (map length (tokens_of sentences)))
                    (tokens_of sentences))),
      map length (tokens_of sentences)).
Proof.
  intros Hok Hne. unfold forward, tokens_of. simpl.
  destruct sentences as [|s sentences]; [congruence|].
  set (sw := map word_tokenize (map lower (s :: sentences))).
  assert (Hmax : Py.max (map length sw) = Ok (max_list (map length sw)))
    by reflexivity.
  rewrite Hmax. cbn [mbind result_bind rbind].
  replace (length (map lower (s :: sentences))) with (length sw)
    by (unfold sw; rewrite !length_map; reflexivity).
  rewrite fill_indicies_padded, embedding_padded by exact Hok.
  reflexivity.
Qed.

End Forward.

Section ForwardMean.
Context {R : Type} `{Scalar R} `{Tokenizer}.
Variable self : PretrainedEmbedding R.

(** [forward] with the mean: the rows of each sentence, padding
    included, are summed, and the sums are divided by the vector of
    the lengths. *)
Lemma forward_mean (sentences : list string) :
  vocab_ok self -> sentences <> [] ->
  forward self (StrList sentences) true =
  (t ← tensor_div (embedding_dim self)
         (map (vsum (embedding_dim self))
            (map (map (fun idx => weight self !!! idx))
                 (padded_indices self
                    (max_list (map length (tokens_of sentences)))
                    (tokens_of sentences))))
         (map sof_nat (map length (tokens_of sentences)));
   Ok (Rank2 t, map length (tokens_of sentences))).
Proof.
  intros Hok Hne. unfold forward, tokens_of. simpl.
  destruct sentences as [|s sentences]; [congruence|].
  set (sw := map word_tokenize (map lower (s :: sentences))).
  assert (Hmax : Py.max (map length sw) = Ok (max_list (map length sw)))
    by reflexivity.
  rewrite Hmax. cbn [mbind result_bind rbind].
  replace (length (map lower (s :: sentences))) with (length sw)
    by (unfold sw; rewrite !length_map; reflexivity).
  rewrite fill_indicies_padded, embedding_padded by exact Hok.
  reflexivity.
Qed.

(** The division of a [b] by [dim] tensor by a vector of [b] lengths
    is refused as soon as [b] is neither 1 nor [dim], unless [dim] is
    1. *)
Lemma tensor_div_raises (dim : nat) (t : list (list R)) (d : list R) :
  2 <= length d -> length d <> dim -> dim <> 1 ->
  tensor_div dim t d = Raise RuntimeError.
Proof.
  intros Hlen Hne Hdim. unfold tensor_div.
  destruct d as [|d0 [|d1 d]]; simpl in Hlen; try lia.
  apply Nat.eqb_neq in Hne, Hdim. rewrite Hne, Hdim. reflexivity.
Qed.

(** A batch of two or more sentences cannot be averaged: the call
    raises whenever the batch size differs from the embedding
    dimension. *)
Lemma forward_mean_batch_raises (sentences : list string) :
  vocab_ok self -> 2 <= length sentences ->
  embedding_dim self <> length sentences -> embedding_dim self <> 1 ->
  forward self (StrList sentences) true = Raise RuntimeError.
Proof.
  intros Hok Hlen Hne Hdim.
  rewrite forward_mean; [|exact Hok|destruct sentences; simpl in Hlen; [lia|discriminate]].
  rewrite tensor_div_raises; [reflexivity| | |exact Hdim];
    unfold tokens_of; rewrite !length_map; [exact Hlen|congruence].
Qed.

(** One string: the mean of its token rows, as a batch of one. *)
Lemma forward_mean_single (s : string) :
  vocab_ok self ->
  forward self (Str s) true =
  Ok (Rank2 [map (fun x => sdiv x (sof_nat (length (word_tokenize (lower s)))))
                 (vsum (embedding_dim self)
                    (map (fun w => weight self !!! index_of self w)
                         (word_tokenize (lower s))))],
      [length (word_tokenize (lower s))]).
Proof.
  intros Hok.
  change (forward self (Str s) true) with (forward self (StrList [s]) true).
  rewrite forward_mean by (exact Hok || discriminate).
  unfold tokens_of, padded_indices. simpl.
  rewrite Nat.max_0_r, Nat.sub_diag. simpl. rewrite app_nil_r.
  rewrite map_map. reflexivity.
Qed.

End ForwardMean.

(** C7. For a vocabulary that respects its weight matrix and a batch
    that is not empty, [forward] without the mean returns a tensor with
    one row per sentence, each of [max_len] vectors, and the token
    counts of the sentences as lengths; no length exceeds [max_len];
    position [j] of sentence [i] holds the row of its [j]-th token, and
    every position from the length of the sentence on holds the zero
    vector. *)
Theorem C7_forward_padding {R : Type} `{Scalar R} `{Tokenizer}
    (self : PretrainedEmbedding R) (sentences : list string) :
  vocab_ok self -> sentences <> [] ->
  exists t : list (list (list R)),
    forward self (StrList sentences) false =
      Ok (Rank3 t, map length (tokens_of sentences)) /\
    length t = length sentences /\
    length (map length (tokens_of sentences)) = length sentences /\
    (forall i row ws,
       t !! i = Some row -> tokens_of sentences !! i = Some ws ->
       length row = max_list (map length (tokens_of sentences)) /\
       length ws <= length row /\
       (forall j w, ws !! j = Some w ->
          row !! j = Some (weight self !!! index_of self w)) /\
       (forall j, length ws <= j < length row ->
          row !! j = Some (zeros (embedding_dim self)))).
Proof.
  intros Hok Hne. eexists. split; [apply forward_seq; assumption|].
  set (M := max_list (map length (tokens_of sentences))).
  split; [unfold padded_indices, tokens_of; rewrite !length_map; reflexivity|].
  split; [unfold tokens_of; rewrite !length_map; reflexivity|].
  intros i row ws Hrow Hws.
  unfold padded_indices in Hrow. to_fmap.
  rewrite !list_lookup_fmap, Hws in Hrow. simpl in Hrow.
  inversion Hrow as [Hr]. clear Hrow.
  assert (Hle : length ws <= M).
  { apply max_list_elem_of_le. apply list_elem_of_In, in_map.
    apply list_elem_of_In. eapply list_elem_of_lookup_2. exact Hws. }
  assert (Hlen : length ((fun idx => weight self !!! idx) <$>
                   ((index_of self <$> ws) ++ replicate (M - length ws) 0)) = M).
  { rewrite length_fmap, length_app, length_fmap, length_replicate. lia. }
  to_fmap. split; [exact Hlen|]. split; [rewrite Hlen; exact Hle|]. split.
  - intros j w Hw. rewrite list_lookup_fmap, lookup_app_l.
    + rewrite list_lookup_fmap, Hw. reflexivity.
    + rewrite length_fmap. eapply lookup_lt_Some. exact Hw.
  - rewrite Hlen. intros j [Hj1 Hj2].
    rewrite list_lookup_fmap, lookup_app_r by (rewrite length_fmap; exact Hj1).
    rewrite lookup_replicate_2 by (rewrite length_fmap; lia). simpl.
    destruct Hok as [_ Hzero]. f_equal.
    apply list_lookup_total_correct. exact Hzero.
Qed.

Lemma tiny_vocab_ok : vocab_ok SampleTable.tiny.
Proof.
  split; [|reflexivity]. intros w i Hw.
  assert (HF : map_Forall (fun _ i => i < 3) (word2idx SampleTable.tiny)).
  { apply map_Forall_insert_2; [simpl; lia|].
    apply map_Forall_insert_2; [simpl; lia|]. apply map_Forall_empty. }
  exact (HF w i Hw).
Qed.

(** The scenario of the specification: [embed(["a b", "a"])] has
    lengths [[2, 1]], two rows, and a zero vector at position 1 of
    sentence 1. *)
Lemma C7_forward_padding_witness :
  exists t : list (list (list Q)),
    forward SampleTable.tiny (StrList ["a b"; "a"]) false = Ok (Rank3 t, [2; 1]) /\
    length t = 2 /\
    forall row, t !! 1 = Some row -> length row = 2 /\ row !! 1 = Some [0; 0]%Q.
Proof.
  destruct (C7_forward_padding SampleTable.tiny ["a b"; "a"] tiny_vocab_ok)
    as (t & Hf & Hlen & _ & Hrows); [discriminate|].
  exists t. split; [exact Hf|]. split; [exact Hlen|].
  intros row Hrow.
  destruct (Hrows 1 row ["a"] Hrow eq_refl) as (Hl & _ & _ & Hpad).
  split; [exact Hl|]. apply Hpad. rewrite Hl. simpl. lia.
Defined.

(** C7 (as stated): tables the constructors build on which the claim
    fails. On the table [GloveEmbedding] builds from a file whose
    first line is dropped, the word of the second line is mapped past
    the matrix and [forward] raises an [IndexError]. On a table built
    by the base constructor from a matrix whose row 0 is not zero,
    [forward] returns, and the padding position of the shorter
    sentence holds that row, not the zero vector. *)
Lemma C7_forward_outside_vocabulary :
  (exists e : PretrainedEmbedding Q,
     GloveEmbedding_init ["x 1 2 3"; Sample.line300 "cat" "0.5"] true = Ok e /\
     forward e (StrList ["cat"]) false = Raise IndexError) /\
  (exists (e : PretrainedEmbedding Q) (t : list (list (list Q))),
     PretrainedEmbedding_init 2 2 (<["a" := 1]> ∅) [[9; 9]; [1; 2]]%Q true = Ok e /\
     forward e (StrList ["a a"; "a"]) false = Ok (Rank3 t, [2; 1]) /\
     (t !!! 1) !! 1 = Some [9; 9]%Q /\
     [9; 9]%Q <> zeros 2).
Proof.
  split.
  - eexists. split; vm_compute; reflexivity.
  - eexists _, _. split; [vm_compute; reflexivity|].
    split; [vm_compute; reflexivity|]. split; [reflexivity|].
    vm_compute. discriminate.
Qed.

(** C3, on a batch of two sentences over a table loaded from a file of
    300-dimensional vectors: the token rows are found (the call without
    the mean returns, with lengths 1 and 2), but the mean divides a 2 by
    300 tensor by a vector of 2 lengths, which raises. *)
Theorem C3_mean_of_batch_raises :
  exists e : PretrainedEmbedding Q,
    GloveEmbedding_init SampleTable.abc_file true = Ok e /\
    (exists t, forward e (StrList ["a"; "b c"]) false = Ok (t, [1; 2])) /\
    forward e (StrList ["a"; "b c"]) true = Raise RuntimeError.
Proof.
  eexists. split; [vm_compute; reflexivity|]. split.
  - eexists. vm_compute. reflexivity.
  - vm_compute. reflexivity.
Qed.

(** ** [embed_token] *)

Lemma rmapM_raise_elem {A B} (f : A -> result B) (l : list A) (x : A) :
  x ∈ l -> is_raise (f x) -> is_raise (rmapM f l).
Proof.
  induction l as [|a l IH]; intros Hx Hr.
  - inversion Hx.
  - simpl. destruct (f a) as [y|e] eqn:Hfa; simpl; [|exact I].
    apply elem_of_cons in Hx as [->|Hx].
    + rewrite Hfa in Hr. destruct Hr.
    + specialize (IH Hx Hr). destruct (rmapM f l); simpl; [destruct IH|exact I].
Qed.

Lemma foldM_cons {R A B} (f : A -> B -> M R A) (a : A) (x : B) (l : list B)
    (st : mstate R) :
  foldM f a (x :: l) st =
  match f a x st with
  | (Ok a', st') => foldM f a' l st'
  | (Raise e, st') => (Raise e, st')
  end.
Proof. reflexivity. Qed.

Section Token.
Context {R : Type} `{Scalar R} `{Tokenizer}.
Variable self : PretrainedEmbedding R.

Lemma truthy_decide (p : string) :
  Py.truthy p = bool_decide (p <> EmptyString).
Proof. destruct p; reflexivity. Qed.

(** One sub-part: an empty one is skipped, another one is embedded
    with the mean and recorded. *)
Lemma embed_element_run (acc : list (list (list R))) (p : string)
    (st : mstate R) :
  embed_element self acc p st =
  if decide (p <> EmptyString) then
    (e ← vec self p; Ok (acc ++ [e]),
     Build_mstate (column_cache st) (calls st ++ [mean_call p]))
  else (Ok acc, st).
Proof.
  unfold embed_element. rewrite truthy_decide.
  destruct (decide (p <> EmptyString)) as [Hp|Hp].
  - rewrite bool_decide_eq_true_2 by exact Hp.
    unfold mbind at 1, M_bind, call, vec.
    destruct (forward self (Str p) true) as [[t lens]|e]; [|reflexivity].
    unfold mbind at 1, M_bind, lift. cbn [mbind result_bind rbind].
    destruct (as_rank2 t); reflexivity.
  - rewrite bool_decide_eq_false_2 by exact Hp. reflexivity.
Qed.

(** The inner loop: the vectors of the sub-parts are appended in
    order; the calls made are calls on sub-parts, all of them when the
    loop ends normally; the cache is not touched. *)
Lemma embed_elements_run (elements : list string) :
  forall (acc : list (list (list R))) (st : mstate R),
  exists new : list string,
    new `prefix_of` filter (fun p => p <> EmptyString) elements /\
    foldM (embed_element self) acc elements st =
      (ys ← rmapM (vec self) (filter (fun p => p <> EmptyString) elements);
       Ok (acc ++ ys),
       Build_mstate (column_cache st) (calls st ++ map mean_call new)) /\
    (~ is_raise (rmapM (vec self) (filter (fun p => p <> EmptyString) elements)) ->
     new = filter (fun p => p <> EmptyString) elements).
Proof.
  induction elements as [|p elements IH]; intros acc st.
  - exists []. split; [apply prefix_nil|]. split; [|reflexivity].
    simpl. rewrite !app_nil_r. destruct st; reflexivity.
  - rewrite filter_cons, foldM_cons, embed_element_run.
    destruct (decide (p <> EmptyString)) as [Hp|Hp]; [|apply IH].
    cbn [rmapM]. destruct (vec self p) as [e|err]; cbn [mbind result_bind rbind].
    + destruct (IH (acc ++ [e])
                  (Build_mstate (column_cache st) (calls st ++ [mean_call p])))
        as (new & Hpre & Hrun & Hall).
      exists (p :: new). split; [apply prefix_cons; exact Hpre|]. split.
      * rewrite Hrun. cbn [column_cache calls map].
        rewrite <- app_assoc.
        destruct (rmapM (vec self) _); cbn [mbind result_bind rbind];
          [rewrite <- app_assoc|]; reflexivity.
      * intros Hok. f_equal. apply Hall.
        destruct (rmapM (vec self) _); [exact (fun x => x)|exact Hok].
    + exists [p]. split; [apply prefix_cons, prefix_nil|].
      split; [reflexivity|]. intros Hok. exfalso. apply Hok. exact I.
Qed.

(** One word: its mean is appended. *)
Lemma embed_word_run (embs : list (list (list R))) (word : string)
    (st : mstate R) :
  exists new : list string,
    new `prefix_of` sub_parts word /\
    embed_word self embs word st =
      (m ← word_mean self word; Ok (embs ++ [m]),
       Build_mstate (column_cache st) (calls st ++ map mean_call new)) /\
    (~ is_raise (word_mean self word) -> new = sub_parts word).
Proof.
  destruct (embed_elements_run (Py.split_on "_" word) [] st)
    as (new & Hpre & Hrun & Hall).
  exists new. split; [exact Hpre|]. split.
  - unfold embed_word, word_mean, sub_parts.
    unfold mbind at 1, M_bind. rewrite Hrun.
    destruct (rmapM (vec self) _) as [parts|e]; cbn [mbind result_bind rbind];
      [|reflexivity].
    unfold mbind at 1, M_bind, lift. simpl.
    destruct (stack_mean parts); reflexivity.
  - intros Hok. apply Hall. unfold word_mean, sub_parts in Hok.
    destruct (rmapM (vec self) _); [exact (fun x => x)|exact Hok].
Qed.

Lemma embed_words_run (words : list string) :
  forall (embs : list (list (list R))) (st : mstate R),
  exists new : list string,
    new `prefix_of` concat (map sub_parts words) /\
    foldM (embed_word self) embs words st =
      (ms ← rmapM (word_mean self) words; Ok (embs ++ ms),
       Build_mstate (column_cache st) (calls st ++ map mean_call new)) /\
    (~ is_raise (rmapM (word_mean self) words) ->
     new = concat (map sub_parts words)).
Proof.
  induction words as [|w words IH]; intros embs st.
  - exists []. split; [apply prefix_nil|]. split; [|reflexivity].
    simpl. rewrite !app_nil_r. destruct st; reflexivity.
  - rewrite foldM_cons.
    destruct (embed_word_run embs w st) as (new1 & Hpre1 & Hrun1 & Hall1).
    rewrite Hrun1. cbn [rmapM map concat].
    destruct (word_mean self w) as [m|err]; cbn [mbind result_bind rbind].
    + destruct (IH (embs ++ [m])
                  (Build_mstate (column_cache st) (calls st ++ map mean_call new1)))
        as (new & Hpre & Hrun & Hall).
      rewrite (Hall1 (fun x => x)) in *.
      exists (sub_parts w ++ new). split; [apply prefix_app; exact Hpre|]. split.
      * rewrite Hrun. cbn [column_cache calls].
        rewrite map_app, <- app_assoc.
        destruct (rmapM (word_mean self) words); cbn [mbind result_bind rbind];
          [rewrite <- app_assoc|]; reflexivity.
      * intros Hok. f_equal. apply Hall.
        destruct (rmapM (word_mean self) words); [exact (fun x => x)|exact Hok].
    + exists new1. split; [apply prefix_app_r; exact Hpre1|].
      split; [reflexivity|]. intros Hok. exfalso. apply Hok. exact I.
Qed.

(** [embed_token] computes the two-level mean of the specification;
    every call it makes embeds a non-empty sub-part with the mean, and
    it makes them all when it returns. *)
Lemma embed_token_run (token : string) (st : mstate R) :
  exists new : list string,
    new `prefix_of` token_parts token /\
    embed_token self token st =
      (embed_token_spec self token,
       Build_mstate (column_cache st) (calls st ++ map mean_call new)) /\
    (~ is_raise (embed_token_spec self token) -> new = token_parts token).
Proof.
  destruct (embed_words_run (Py.split token) [] st) as (new & Hpre & Hrun & Hall).
  exists new. split; [exact Hpre|]. split.
  - unfold embed_token, embed_token_spec. unfold mbind at 1, M_bind.
    rewrite Hrun.
    destruct (rmapM (word_mean self) _); cbn [mbind result_bind rbind];
      reflexivity.
  - intros Hok. apply Hall. unfold embed_token_spec in Hok.
    destruct (rmapM (word_mean self) _); [exact (fun x => x)|exact Hok].
Qed.

Lemma token_parts_nonempty (token : string) :
  Forall (fun p => p <> EmptyString) (token_parts token).
Proof.
  unfold token_parts. apply Forall_concat, Forall_forall.
  intros parts Hparts.
  apply list_elem_of_In, in_map_iff in Hparts as (w & <- & _).
  unfold sub_parts. apply Forall_forall. intros p Hp.
  apply list_elem_of_filter in Hp as [Hp _]. exact Hp.
Qed.

End Token.

Lemma split_all_space (s : string) :
  all_chars Py.isspace s = true -> Py.split s = [].
Proof.
  induction s as [|c s IH]; simpl; intros Hs; [reflexivity|].
  apply andb_true_iff in Hs as [Hc Hs]. rewrite Hc. apply IH. exact Hs.
Qed.

Lemma split_on_underscores (w : string) :
  all_chars is_underscore w = true ->
  Py.split_on "_" w = replicate (S (String.length w)) EmptyString.
Proof.
  induction w as [|c w IH]; simpl; intros Hw; [reflexivity|].
  apply andb_true_iff in Hw as [Hc Hw]. unfold is_underscore in Hc.
  rewrite Hc, (IH Hw). reflexivity.
Qed.

Lemma sub_parts_underscores (w : string) :
  all_chars is_underscore w = true -> sub_parts w = [].
Proof.
  intros Hw. unfold sub_parts. rewrite (split_on_underscores w Hw).
  generalize (S (String.length w)). intros n.
  induction n as [|n IH]; [reflexivity|].
  simpl. rewrite filter_cons. destruct (decide (EmptyString <> EmptyString));
    [congruence|exact IH].
Qed.

(** C10. [embed_token] raises on a token that is empty or all
    whitespace, and on a token one of whose words consists of
    underscores only: in the first case there is no word and the stack
    of the word means is empty, in the second the word has no sub-part
    to embed and the stack of its sub-part vectors is empty. *)
Theorem C10_embed_token_raises {R : Type} `{Scalar R} `{Tokenizer}
    (self : PretrainedEmbedding R) (token : string) (st : mstate R) :
  all_chars Py.isspace token = true \/
  (exists word, word ∈ Py.split token /\ all_chars is_underscore word = true) ->
  is_raise (embed_token self token st).1 /\
  (all_chars Py.isspace token = true ->
     Py.split token = [] /\
     (embed_token self token st).1 = Raise RuntimeError) /\
  (forall word, all_chars is_underscore word = true ->
     sub_parts word = [] /\ word_mean self word = Raise RuntimeError).
Proof.
  intros Hcase.
  destruct (embed_token_run self token st) as (new & _ & Hrun & _).
  rewrite Hrun. cbn [fst].
  assert (Hspace : all_chars Py.isspace token = true ->
            Py.split token = [] /\ embed_token_spec self token = Raise RuntimeError).
  { intros Hs. pose proof (split_all_space token Hs) as Hsplit.
    split; [exact Hsplit|]. unfold embed_token_spec. rewrite Hsplit. reflexivity. }
  assert (Hunder : forall word, all_chars is_underscore word = true ->
            sub_parts word = [] /\ word_mean self word = Raise RuntimeError).
  { intros word Hw. pose proof (sub_parts_underscores word Hw) as Hparts.
    split; [exact Hparts|]. unfold word_mean. rewrite Hparts. reflexivity. }
  split; [|split; assumption].
  destruct Hcase as [Hs|(word & Hin & Hw)].
  - destruct (Hspace Hs) as [_ ->]. exact I.
  - unfold embed_token_spec.
    assert (Hr : is_raise (rmapM (word_mean self) (Py.split token))).
    { eapply rmapM_raise_elem; [exact Hin|].
      destruct (Hunder word Hw) as [_ ->]. exact I. }
    destruct (rmapM (word_mean self) (Py.split token)); [destruct Hr|exact I].
Qed.

(** The three cases of C10 on the sample table. *)
Lemma C10_embed_token_raises_witness :
  is_raise (embed_token SampleTable.tiny EmptyString fresh).1 /\
  is_raise (embed_token SampleTable.tiny "  " fresh).1 /\
  is_raise (embed_token SampleTable.tiny "a_b ___" fresh).1.
Proof.
  split; [|split].
  - apply (C10_embed_token_raises SampleTable.tiny EmptyString fresh).
    left. reflexivity.
  - apply (C10_embed_token_raises SampleTable.tiny "  " fresh).
    left. reflexivity.
  - apply (C10_embed_token_raises SampleTable.tiny "a_b ___" fresh).
    right. exists "___". split; [|reflexivity].
    apply list_elem_of_In. simpl. tauto.
Defined.

Section Means.
Context {R : Type} `{ScalarLaws R}.

Lemma vadd_zeros_l (v : list R) : vadd (zeros (length v)) v = v.
Proof.
  unfold vadd, zeros. induction v as [|x v IH]; simpl; [reflexivity|].
  rewrite sadd_zero_l. f_equal. exact IH.
Qed.

Lemma madd_zeros_l (t : list (list R)) :
  madd (map (fun row => zeros (length row)) t) t = t.
Proof.
  unfold madd. induction t as [|row t IH]; simpl; [reflexivity|].
  rewrite vadd_zeros_l. f_equal. exact IH.
Qed.

Lemma map_sdiv_one (t : list (list R)) :
  map (map (fun x => sdiv x (sof_nat 1))) t = t.
Proof.
  induction t as [|row t IH]; simpl; [reflexivity|]. f_equal; [|exact IH].
  induction row as [|x row IHr]; simpl; [reflexivity|].
  rewrite sdiv_one. f_equal. exact IHr.
Qed.

(** The mean of one tensor is that tensor. *)
Lemma stack_mean_one (t : list (list R)) : stack_mean [t] = Ok t.
Proof.
  unfold stack_mean. simpl. unfold same_shape.
  rewrite bool_decide_eq_true_2 by reflexivity. simpl.
  rewrite madd_zeros_l, map_sdiv_one. reflexivity.
Qed.

Lemma map_sdiv_madd (t u : list (list R)) (n : nat) :
  map (map (fun x => sdiv x (sof_nat n))) (madd t u) =
  zip_with (zip_with (fun x y => sdiv (sadd x y) (sof_nat n))) t u.
Proof.
  unfold madd, vadd. revert u.
  induction t as [|rt t IH]; intros [|ru u]; simpl; try reflexivity.
  f_equal; [|apply IH]. clear.
  revert ru. induction rt as [|x rt IHr]; intros [|y ru]; simpl; try reflexivity.
  f_equal. apply IHr.
Qed.

(** The mean of two tensors of one shape is their entrywise mean. *)
Lemma stack_mean_two (t u : list (list R)) :
  shape2 t = shape2 u -> stack_mean [t; u] = Ok (mean2 t u).
Proof.
  intros Hshape. unfold stack_mean. simpl. unfold same_shape.
  rewrite bool_decide_eq_true_2 by reflexivity.
  rewrite bool_decide_eq_true_2 by exact Hshape. simpl.
  rewrite madd_zeros_l, map_sdiv_madd. reflexivity.
Qed.

Lemma shape2_mean2 (t u : list (list R)) :
  shape2 t = shape2 u -> shape2 (mean2 t u) = shape2 t.
Proof.
  unfold shape2, mean2. revert u.
  induction t as [|rt t IH]; intros [|ru u]; simpl; intros Hs;
    try reflexivity; try discriminate.
  inversion Hs as [[Hr Ht]]. f_equal; [|apply IH; exact Ht].
  rewrite length_zip_with. lia.
Qed.

Context `{Tokenizer}.
Variable self : PretrainedEmbedding R.

Lemma vsum_length (dim : nat) (rows : list (list R)) :
  Forall (fun v => length v = dim) rows -> length (vsum dim rows) = dim.
Proof.
  unfold vsum. intros Hrows.
  assert (Hgen : forall acc : list R, length acc = dim ->
            length (foldl vadd acc rows) = dim).
  { induction Hrows as [|v rows Hv _ IH]; intros acc Hacc; simpl; [exact Hacc|].
    apply IH. unfold vadd. rewrite length_zip_with. lia. }
  apply Hgen. apply length_replicate.
Qed.

(** With a sound vocabulary and weight, the vector of a sub-part is a
    single row of [embedding_dim] entries. *)
Lemma vec_shape (x : string) :
  vocab_ok self -> weight_ok self ->
  exists v, vec self x = Ok [v] /\ length v = embedding_dim self.
Proof.
  intros Hok Hw. unfold vec. rewrite forward_mean_single by exact Hok.
  cbn [mbind result_bind rbind as_rank2]. eexists. split; [reflexivity|].
  rewrite length_map. apply vsum_length.
  apply Forall_forall. intros v Hv.
  apply list_elem_of_In, in_map_iff in Hv as (w & <- & _).
  unfold weight_ok in Hw. rewrite Forall_forall in Hw. apply Hw.
  apply list_elem_of_lookup_total_2. apply index_of_lt. exact Hok.
Qed.

(** A sentence of one token, alone in its batch: the mean is the row
    of the token. *)
Lemma forward_mean_single_token (s w : string) :
  vocab_ok self -> weight_ok self -> word_tokenize (lower s) = [w] ->
  forward self (Str s) true =
  Ok (Rank2 [weight self !!! index_of self w], [1]).
Proof.
  intros Hok Hw Hs. rewrite forward_mean_single by exact Hok.
  rewrite Hs. cbn [map length]. unfold vsum. cbn [foldl].
  assert (Hlen : length (weight self !!! index_of self w) = embedding_dim self).
  { unfold weight_ok in Hw. rewrite Forall_forall in Hw. apply Hw.
    apply list_elem_of_lookup_total_2. apply index_of_lt. exact Hok. }
  rewrite <- Hlen, vadd_zeros_l.
  pose proof (map_sdiv_one [weight self !!! index_of self w]) as Hone.
  cbn [map] in Hone. inversion Hone as [Hrow]. rewrite !Hrow. reflexivity.
Qed.

End Means.

(** C6. [embed_token] returns the two-level mean of the specification:
    the mean over the whitespace-separated words of the mean over the
    non-empty underscore-separated sub-parts of each word, every
    sub-part embedded with [mean_sequence=True]; each call it makes
    embeds a non-empty sub-part, and it embeds them all when it returns.
    For ["a_b c"] the result is [mean(mean(vec a, vec b), vec c)]. *)
Theorem C6_embed_token_two_level_mean {R : Type} `{ScalarLaws R} `{Tokenizer}
    (self : PretrainedEmbedding R) :
  vocab_ok self -> weight_ok self ->
  (forall (token : string) (st : mstate R),
     exists new : list string,
       embed_token self token st =
         (embed_token_spec self token,
          Build_mstate (column_cache st) (calls st ++ map mean_call new)) /\
       new `prefix_of` token_parts token /\
       Forall (fun p => p <> EmptyString) new /\
       (~ is_raise (embed_token_spec self token) -> new = token_parts token)) /\
  (forall st : mstate R,
     exists va vb vc,
       vec self "a" = Ok va /\ vec self "b" = Ok vb /\ vec self "c" = Ok vc /\
       (embed_token self "a_b c" st).1 = Ok (mean2 (mean2 va vb) vc)).
Proof.
  intros Hok Hw. split.
  - intros token st.
    destruct (embed_token_run self token st) as (new & Hpre & Hrun & Hall).
    exists new. split; [exact Hrun|]. split; [exact Hpre|]. split; [|exact Hall].
    destruct Hpre as [k Hk].
    pose proof (token_parts_nonempty token) as Hne.
    rewrite Hk in Hne. apply Forall_app in Hne as [Hne _]. exact Hne.
  - intros st.
    destruct (vec_shape self "a" Hok Hw) as (va & Ha & Hla).
    destruct (vec_shape self "b" Hok Hw) as (vb & Hb & Hlb).
    destruct (vec_shape self "c" Hok Hw) as (vc & Hc & Hlc).
    exists [va], [vb], [vc]. repeat (split; [assumption|]).
    destruct (embed_token_run self "a_b c" st) as (new & _ & Hrun & _).
    rewrite Hrun. cbn [fst].
    assert (Hab : shape2 [va] = shape2 [vb]) by (simpl; congruence).
    assert (Hword1 : word_mean self "a_b" = Ok (mean2 [va] [vb])).
    { unfold word_mean.
      change (sub_parts "a_b") with ["a"; "b"]. cbn [rmapM].
      rewrite Ha, Hb. cbn [mbind result_bind rbind].
      apply stack_mean_two. exact Hab. }
    assert (Hword2 : word_mean self "c" = Ok [vc]).
    { unfold word_mean.
      change (sub_parts "c") with ["c"]. cbn [rmapM].
      rewrite Hc. cbn [mbind result_bind rbind]. apply stack_mean_one. }
    unfold embed_token_spec.
    change (Py.split "a_b c") with ["a_b"; "c"]. cbn [rmapM].
    rewrite Hword1, Hword2. cbn [mbind result_bind rbind].
    apply stack_mean_two.
    rewrite shape2_mean2 by exact Hab. simpl. congruence.
Qed.

(** The sample scalars satisfy the two laws. *)
Lemma Q_scalar_laws : ScalarLaws Q.
Proof.
  split.
  - intros [n d]. cbn. unfold Qplus. cbn.
    rewrite Z.mul_1_r. reflexivity.
  - intros [n d]. cbn. unfold Qdiv, Qmult, Qinv. cbn.
    rewrite Z.mul_1_r, Pos.mul_1_r. reflexivity.
Qed.

Existing Instance Q_scalar_laws.

Lemma tiny_weight_ok : weight_ok SampleTable.tiny.
Proof. unfold weight_ok. cbn. repeat constructor. Qed.

(** C6 on the sample table, whose words are [a] and [b]; [c] is
    unknown to it. *)
Lemma C6_embed_token_two_level_mean_witness :
  exists va vb vc : list (list Q),
    vec SampleTable.tiny "a" = Ok va /\
    vec SampleTable.tiny "b" = Ok vb /\
    vec SampleTable.tiny "c" = Ok vc /\
    (embed_token SampleTable.tiny "a_b c" fresh).1 = Ok (mean2 (mean2 va vb) vc).
Proof.
  destruct (C6_embed_token_two_level_mean SampleTable.tiny
              tiny_vocab_ok tiny_weight_ok) as [_ Hex].
  exact (Hex fresh).
Defined.

(** ** [LaserEmbedding.forward] *)

Section LaserFacts.
Context {R : Type} `{Scalar R} `{Tokenizer} `{Embedder R}.

Lemma learn_words_concat (sentences_words : list (list string)) (st : Laser.LaserEmbedding R) :
  Laser.learn_words st sentences_words =
  foldl Laser.learn_word st (concat sentences_words).
Proof.
  unfold Laser.learn_words. revert st.
  induction sentences_words as [|s sw IH]; intros st; simpl; [reflexivity|].
  rewrite foldl_app. apply IH.
Qed.

(** The first loop over a list of words: the words not yet in the
    dictionary are embedded once each, in the order in which they are
    first met, and take the next free indices in that order; nothing
    else changes. *)
Lemma learn_list_spec (ws : list string) :
  forall st : Laser.LaserEmbedding R,
  exists new : list string,
    NoDup new /\
    (forall w, w ∈ new <-> w ∈ ws /\ Laser.word2idx st !! w = None) /\
    Laser.embedder_calls (foldl Laser.learn_word st ws) = Laser.embedder_calls st ++ new /\
    Laser.vectors (foldl Laser.learn_word st ws) = Laser.vectors st ++ map embedder new /\
    (forall k w, new !! k = Some w ->
       Laser.word2idx (foldl Laser.learn_word st ws) !! w =
       Some (size (Laser.word2idx st) + k)) /\
    (forall w i, Laser.word2idx st !! w = Some i ->
       Laser.word2idx (foldl Laser.learn_word st ws) !! w = Some i) /\
    (forall w, w ∈ ws -> is_Some (Laser.word2idx (foldl Laser.learn_word st ws) !! w)) /\
    (forall w, is_Some (Laser.word2idx (foldl Laser.learn_word st ws) !! w) ->
       is_Some (Laser.word2idx st !! w) \/ w ∈ new) /\
    size (Laser.word2idx (foldl Laser.learn_word st ws)) =
      size (Laser.word2idx st) + length new /\
    Laser.embedding_dim (foldl Laser.learn_word st ws) = Laser.embedding_dim st.
Proof.
  induction ws as [|w ws IH]; intros st.
  - exists []. simpl. rewrite !app_nil_r.
    split; [constructor|]. split.
    { intros w. split; [intros Hw; inversion Hw|intros [Hw _]; inversion Hw]. }
    repeat split; try reflexivity; try lia.
    + intros k w Hk. discriminate.
    + intros w i Hw. exact Hw.
    + intros w Hw. inversion Hw.
    + intros w Hw. left. exact Hw.
  - simpl. destruct (IH (Laser.learn_word st w))
      as (new & Hnd & Hmem & Hcalls & Hvecs & Hidx & Hold & Hall & Honly & Hsize & Hdim).
    unfold Laser.learn_word in *.
    destruct (Laser.word2idx st !! w) as [i|] eqn:Hw.
    + exists new. split; [exact Hnd|]. split.
      { intros w'. rewrite Hmem. split; intros [Hin Hnone]; (split; [|exact Hnone]).
        - right. exact Hin.
        - apply elem_of_cons in Hin as [->|Hin]; [congruence|exact Hin]. }
      repeat split; try assumption.
      intros w' Hin. apply elem_of_cons in Hin as [->|Hin].
      * exists i. apply Hold. exact Hw.
      * apply Hall. exact Hin.
    + simpl in *.
      assert (Hnotin : w ∉ new).
      { intros Hin. apply Hmem in Hin as [_ Hnone].
        rewrite lookup_insert_eq in Hnone. discriminate. }
      exists (w :: new). split; [constructor; assumption|]. split.
      { intros w'. rewrite elem_of_cons, Hmem. split.
        - intros [->|[Hin Hnone]].
          + split; [left|exact Hw].
          + split; [right; exact Hin|].
            destruct (decide (w = w')) as [->|Hne].
            * rewrite lookup_insert_eq in Hnone. discriminate.
            * rewrite lookup_insert_ne in Hnone by exact Hne. exact Hnone.
        - intros [Hin Hnone]. destruct (decide (w = w')) as [->|Hne].
          + left. reflexivity.
          + right. split.
            * apply elem_of_cons in Hin as [->|Hin]; [congruence|exact Hin].
            * rewrite lookup_insert_ne by exact Hne. exact Hnone. }
      split; [rewrite Hcalls, <- app_assoc; reflexivity|].
      split; [rewrite Hvecs, <- app_assoc; reflexivity|].
      rewrite map_size_insert_None in Hidx, Hsize by exact Hw.
      split.
      { intros [|k] w' Hk; simpl in Hk.
        - inversion Hk; subst w'. rewrite Nat.add_0_r.
          apply Hold. apply lookup_insert_eq.
        - rewrite (Hidx k w' Hk). f_equal. lia. }
      split.
      { intros w' i Hw'. apply Hold. rewrite lookup_insert_ne; [exact Hw'|].
        intros ->. congruence. }
      split.
      { intros w' Hin. apply elem_of_cons in Hin as [->|Hin].
        - eexists. apply Hold. apply lookup_insert_eq.
        - apply Hall. exact Hin. }
      split.
      { intros w' Hs. destruct (Honly w' Hs) as [Hs1|Hin].
        - destruct (decide (w = w')) as [->|Hne].
          + right. left.
          + left. rewrite lookup_insert_ne in Hs1 by exact Hne. exact Hs1.
        - right. right. exact Hin. }
      split; [simpl; lia|exact Hdim].
Qed.

(** The first loop keeps the store in step with the dictionary. *)
Lemma learn_list_ok (ws : list string) (st : Laser.LaserEmbedding R) :
  laser_ok st -> laser_ok (foldl Laser.learn_word st ws).
Proof.
  intros [Hlen Hvec].
  destruct (learn_list_spec ws st)
    as (new & Hnd & Hmem & Hcalls & Hvecs & Hidx & Hold & Hall & Honly & Hsize & Hdim).
  split.
  - rewrite Hvecs, Hsize, length_app, length_map, Hlen. reflexivity.
  - intros w i Hw. rewrite Hvecs.
    destruct (Laser.word2idx st !! w) as [j|] eqn:Hj.
    + rewrite (Hold w j Hj) in Hw. inversion Hw; subst j.
      rewrite lookup_app_l by (eapply lookup_lt_Some, Hvec, Hj).
      apply Hvec. exact Hj.
    + destruct (Honly w) as [[j' Hs]|Hin]; [eauto|congruence|].
      apply list_elem_of_lookup in Hin as [k Hk].
      rewrite (Hidx k w Hk) in Hw. inversion Hw; subst i.
      rewrite lookup_app_r by lia. rewrite Hlen.
      replace (size (Laser.word2idx st) + k - size (Laser.word2idx st)) with k by lia.
      to_fmap. rewrite list_lookup_fmap, Hk. reflexivity.
Qed.

End LaserFacts.

Section LaserForward.
Context {R : Type} `{Scalar R} `{Tokenizer} `{Embedder R}.

(** The state [forward] leaves without the mean, whether or not the
    tensor can be built afterwards. *)
Lemma forward_state (sentences : list string) (st : Laser.LaserEmbedding R) :
  sentences <> [] ->
  (Laser.forward (StrList sentences) false st).2 =
  let st1 := foldl Laser.learn_word st (concat (tokens_of sentences)) in
  Laser.Build_LaserEmbedding (size (Laser.word2idx st1)) (Laser.embedding_dim st1)
    (Laser.word2idx st1) (Laser.vectors st1) (Laser.embedder_calls st1).
Proof.
  intros Hne. unfold Laser.forward, tokens_of. simpl.
  destruct sentences as [|s sentences]; [congruence|].
  rewrite <- learn_words_concat. reflexivity.
Qed.

(** After the first loop every token of the batch is read back from
    the store. *)
Lemma fetch_after_forward (sentences : list string) (st : Laser.LaserEmbedding R) (w : string) :
  laser_ok st -> sentences <> [] -> w ∈ concat (tokens_of sentences) ->
  Laser.fetch (Laser.forward (StrList sentences) false st).2 w =
    Ok (Laser.reshape_flat (embedder w)).
Proof.
  intros Hok Hne Hw. rewrite (forward_state sentences st Hne). cbn zeta.
  set (ws := concat (tokens_of sentences)) in *.
  destruct (learn_list_spec ws st)
    as (new & _ & _ & _ & _ & _ & _ & Hall & _).
  pose proof (learn_list_ok ws st Hok) as [_ Hvec'].
  unfold Laser.fetch. cbn [Laser.vectors Laser.word2idx].
  destruct (Hall w Hw) as [i Hi]. rewrite Hi. simpl.
  rewrite (Hvec' w i Hi). reflexivity.
Qed.

Lemma init_ok : laser_ok (Laser.init (R:=R)).
Proof.
  split; [reflexivity|]. intros w i Hw. simpl in Hw.
  rewrite lookup_empty in Hw. discriminate.
Qed.

End LaserForward.

(** In the run of [forward] where the embedder returns, a call without
    the mean on a batch that is not empty embeds exactly the tokens of
    the batch that the dictionary did not know, once each and in the
    order in which they are first met; the [k]-th of them receives the
    index [size + k], its vector is appended to the store at that
    position, and the tokens known before keep their index and cause
    no call. Afterwards the store is again in step with the
    dictionary, and every token of the batch is read back from the
    store. *)
Lemma vocabulary_grows {R : Type} `{Scalar R} `{Tokenizer}
    `{Embedder R} (st : Laser.LaserEmbedding R) (sentences : list string) :
  laser_ok st -> sentences <> [] ->
  exists new : list string,
    NoDup new /\
    (forall w, w ∈ new <->
       w ∈ concat (tokens_of sentences) /\ Laser.word2idx st !! w = None) /\
    Laser.embedder_calls (Laser.forward (StrList sentences) false st).2 =
      Laser.embedder_calls st ++ new /\
    Laser.vectors (Laser.forward (StrList sentences) false st).2 =
      Laser.vectors st ++ map embedder new /\
    (forall k w, new !! k = Some w ->
       Laser.word2idx (Laser.forward (StrList sentences) false st).2 !! w =
         Some (size (Laser.word2idx st) + k) /\
       (Laser.vectors (Laser.forward (StrList sentences) false st).2)
         !! (size (Laser.word2idx st) + k) = Some (embedder w)) /\
    (forall w i, Laser.word2idx st !! w = Some i ->
       (w ∉ new) /\
       Laser.word2idx (Laser.forward (StrList sentences) false st).2 !! w = Some i) /\
    Laser.num_embeddings (Laser.forward (StrList sentences) false st).2 =
      size (Laser.word2idx (Laser.forward (StrList sentences) false st).2) /\
    laser_ok (Laser.forward (StrList sentences) false st).2 /\
    (forall w, w ∈ concat (tokens_of sentences) ->
       Laser.fetch (Laser.forward (StrList sentences) false st).2 w =
         Ok (Laser.reshape_flat (embedder w))).
Proof.
  intros Hok Hne. rewrite (forward_state sentences st Hne). cbn zeta.
  set (ws := concat (tokens_of sentences)).
  destruct (learn_list_spec ws st)
    as (new & Hnd & Hmem & Hcalls & Hvecs & Hidx & Hold & Hall & Honly & Hsize & Hdim).
  pose proof (learn_list_ok ws st Hok) as [Hlen' Hvec'].
  exists new. cbn [Laser.embedder_calls Laser.vectors Laser.word2idx Laser.num_embeddings].
  split; [exact Hnd|]. split; [exact Hmem|]. split; [exact Hcalls|].
  split; [exact Hvecs|]. split.
  { intros k w Hk. split; [apply Hidx; exact Hk|].
    apply Hvec'. apply Hidx. exact Hk. }
  split.
  { intros w i Hw. split; [|apply Hold; exact Hw].
    intros Hin. apply Hmem in Hin as [_ Hnone]. congruence. }
  split; [reflexivity|]. split; [split; assumption|].
  intros w Hw. unfold Laser.fetch. cbn [Laser.vectors Laser.word2idx].
  destruct (Hall w Hw) as [i Hi]. rewrite Hi. simpl.
  rewrite (Hvec' w i Hi). reflexivity.
Qed.

Section LaserShape.
Context {R : Type} `{Scalar R} `{Tokenizer} `{Embedder R}.

Lemma elem_of_concat {A} (x : A) (ls : list (list A)) :
  x ∈ concat ls <-> exists l, x ∈ l /\ l ∈ ls.
Proof.
  rewrite list_elem_of_In, in_concat. split.
  - intros (l & Hl & Hx). exists l. split; apply list_elem_of_In; assumption.
  - intros (l & Hx & Hl). exists l. split; apply list_elem_of_In; assumption.
Qed.

Lemma max_list_ones (l : list nat) :
  l <> [] -> Forall (fun n => n = 1) l -> max_list l = 1.
Proof.
  intros Hne Hall. destruct l as [|n l]; [congruence|].
  inversion Hall as [|? ? Hn Hl]; subst. simpl.
  clear Hall Hne. induction Hl as [|m l Hm _ IH]; simpl; [reflexivity|].
  subst m. simpl in IH. lia.
Qed.

(** Rows of one array each, all arrays of shape [s]: the tensor has
    shape [rows, 1, s]. *)
Lemma tensor_of_rows_single (rows : list (list (ndarray R))) (s : list nat) :
  rows <> [] ->
  Forall (fun row => exists a, row = [a] /\ shape a = s) rows ->
  exists fl,
    Laser.tensor_of_rows rows = Ok (Build_ndarray (length rows :: 1 :: s) fl).
Proof.
  intros Hne Hrows. unfold Laser.tensor_of_rows.
  destruct rows as [|row0 rows']; [congruence|].
  assert (Hlen : forallb (fun row : list (ndarray R) =>
                   length row =? length row0) (row0 :: rows') = true).
  { apply forallb_forall. intros row Hrow. apply Nat.eqb_eq.
    rewrite Forall_forall in Hrows.
    destruct (Hrows row (proj2 (list_elem_of_In _ _) Hrow)) as (a & -> & _).
    destruct (Hrows row0 (list_elem_of_here _ _)) as (a0 & -> & _).
    reflexivity. }
  rewrite Hlen. cbn [negb].
  pose proof Hrows as Hrows0. rewrite Forall_forall in Hrows0.
  destruct (Hrows0 row0 (list_elem_of_here _ _)) as (a0 & -> & Ha0).
  assert (Hshape : forallb (forallb (fun a : ndarray R =>
                     Laser.eq_shape (shape a) (shape a0))) ([a0] :: rows') = true).
  { apply forallb_forall. intros row Hrow.
    destruct (Hrows0 row (proj2 (list_elem_of_In _ _) Hrow)) as (a & -> & Ha).
    simpl. rewrite andb_true_r. unfold Laser.eq_shape.
    apply bool_decide_eq_true. congruence. }
  rewrite Hshape, Ha0. eexists. reflexivity.
Qed.

Lemma finish_shape (b d : nat) (fl : list R) :
  b <> 1 -> d <> 1 ->
  shape (Laser.finish (Build_ndarray [b; 1; d] fl)) = [1; b; d].
Proof.
  intros Hb Hd. unfold Laser.finish, Laser.squeeze. cbn [shape flat].
  rewrite !filter_cons, filter_nil.
  destruct (decide (b <> 1)) as [_|Hc]; [|contradiction].
  destruct (decide (1 <> 1)) as [Hc|_]; [congruence|].
  destruct (decide (d <> 1)) as [_|Hc]; [|contradiction].
  reflexivity.
Qed.

End LaserShape.

(** C9. Without the mean, on a batch of two or more sentences of one
    token each, whose vectors have [embedding_dim] entries,
    [forward] returns a tensor of shape [[1, batch, embedding_dim]]:
    the sequence dimension of size 1 is squeezed away and a leading
    dimension is added in front of the batch. *)
Theorem C9_laser_single_token_shape {R : Type} `{Scalar R} `{Tokenizer}
    `{Embedder R} (st : Laser.LaserEmbedding R) (sentences : list string) :
  laser_ok st ->
  2 <= length sentences ->
  Forall (fun ws => length ws = 1) (tokens_of sentences) ->
  (forall w, w ∈ concat (tokens_of sentences) ->
     length (flat (embedder w)) = Laser.embedding_dim st) ->
  Laser.embedding_dim st <> 1 ->
  exists t : ndarray R,
    (Laser.forward (StrList sentences) false st).1 =
      Ok (t, map length (tokens_of sentences)) /\
    shape t = [1; length sentences; Laser.embedding_dim st] /\
    shape t <> [length sentences; 1; Laser.embedding_dim st].
Proof.
  intros Hok Hlen Hone Hdim Hd1.
  assert (Hne : sentences <> []) by (destruct sentences; simpl in Hlen; [lia|discriminate]).
  pose proof (fun w => fetch_after_forward sentences st w Hok Hne) as Hfetch.
  revert Hfetch. unfold Laser.forward, tokens_of in *. cbn [as_list].
  set (sw := map word_tokenize (map lower sentences)) in *.
  assert (Hsw : length sw = length sentences)
    by (unfold sw; rewrite !length_map; reflexivity).
  assert (Hmax : Py.max (map length sw) = Ok 1).
  { unfold Py.max. destruct sw as [|ws sw'] eqn:Esw; [simpl in Hsw; lia|].
    rewrite <- Esw in *. replace (map length sw) with (map length (ws :: sw'))
      by (rewrite Esw; reflexivity).
    cbn [map]. f_equal.
    change (length ws :: map length sw') with (map length (ws :: sw')).
    rewrite <- Esw. apply max_list_ones.
    - rewrite Esw. discriminate.
    - apply Forall_forall. intros n Hn.
      apply list_elem_of_In, in_map_iff in Hn as (ws' & <- & Hin).
      rewrite Forall_forall in Hone. apply Hone, list_elem_of_In, Hin. }
  rewrite Hmax. cbn [fst snd].
  set (st2 := Laser.Build_LaserEmbedding _ _ _ _ _). intros Hfetch.
  assert (Hrows : rmapM (Laser.retrieve st2 1) sw =
            Ok (map (map (fun w => Laser.reshape_flat (embedder w))) sw)).
  { apply rmapM_map_Ok. intros ws Hws. unfold Laser.retrieve.
    rewrite (rmapM_map_Ok _ (fun w => Laser.reshape_flat (embedder w))).
    - cbn [mbind result_bind rbind]. rewrite Forall_forall in Hone.
      rewrite (Hone ws Hws). reflexivity.
    - intros w Hw. apply Hfetch. apply elem_of_concat.
      exists ws. split; assumption. }
  rewrite Hrows. cbn [mbind result_bind rbind].
  destruct (tensor_of_rows_single
              (map (map (fun w => Laser.reshape_flat (embedder w))) sw)
              [Laser.embedding_dim st]) as [fl Hfl].
  - destruct sw; [simpl in Hsw; lia|discriminate].
  - apply Forall_forall. intros row Hrow.
    apply list_elem_of_In, in_map_iff in Hrow as (ws & <- & Hws).
    apply list_elem_of_In in Hws.
    rewrite Forall_forall in Hone. specialize (Hone ws Hws).
    destruct ws as [|w [|w' ws']]; simpl in Hone; try lia.
    eexists. split; [reflexivity|]. cbn [Laser.reshape_flat shape].
    f_equal. apply Hdim. apply elem_of_concat.
    exists [w]. split; [left|exact Hws].
  - rewrite Hfl, length_map, Hsw. cbn [mbind result_bind rbind].
    eexists. split; [reflexivity|].
    rewrite finish_shape by (exact Hd1 || lia).
    split; [reflexivity|]. intros Heq. inversion Heq. lia.
Qed.

(** C9 on a new object and the batch ["a", "b"]: the result has shape
    [[1, 2, 1024]]. *)
Lemma C9_laser_single_token_shape_witness :
  exists t : ndarray Q,
    (Laser.forward (StrList ["a"; "b"]) false Laser.init).1 = Ok (t, [1; 1]) /\
    shape t = [1; 2; 1024] /\
    shape t <> [2; 1; 1024].
Proof.
  destruct (C9_laser_single_token_shape (R:=Q) Laser.init ["a"; "b"])
    as (t & Hres & Hshape & Hnot).
  - apply init_ok.
  - simpl. lia.
  - repeat constructor.
  - intros w _. apply length_replicate.
  - discriminate.
  - exists t. split; [exact Hres|]. split; [exact Hshape|exact Hnot].
Defined.

(** ** [get_columns_emb] *)

Lemma foldM_app {R A B} (f : A -> B -> M R A) (a : A) (l1 l2 : list B)
    (st : mstate R) :
  foldM f a (l1 ++ l2) st =
  match foldM f a l1 st with
  | (Ok a', st') => foldM f a' l2 st'
  | (Raise e, st') => (Raise e, st')
  end.
Proof.
  revert a st. induction l1 as [|x l1 IH]; intros a st; [reflexivity|].
  rewrite <- app_comm_cons, !foldM_cons.
  destruct (f a x st) as [[a'|e] st']; [apply IH|reflexivity].
Qed.

Section ColumnLoop.
Context {R : Type} `{Scalar R} `{Tokenizer}.
Variable self : PretrainedEmbedding R.

(** What [forward] returns for one string without the mean: a batch
    of one, with one vector per token. *)
Lemma forward_single_shape (c : string) (emb : tensor R) (lens : list nat) :
  forward self (Str c) false = Ok (emb, lens) ->
  exists rows, emb = Rank3 [rows] /\
               lens = [length (word_tokenize (lower c))] /\
               length rows = length (word_tokenize (lower c)).
Proof.
  unfold forward. cbn [as_list map length Py.max max_list_with].
  set (ws := word_tokenize (lower c)).
  replace (id (length ws) `max` 0) with (length ws) by (unfold id; lia).
  pose proof (fill_indicies_padded self [ws]) as Hfill.
  cbn [map length] in Hfill.
  replace (max_list [length ws]) with (length ws) in Hfill by (simpl; lia).
  cbn [mbind result_bind rbind]. rewrite Hfill.
  unfold padded_indices, embedding. cbn [map rmapM].
  destruct (rmapM _ _) as [rows|e] eqn:Hrows; cbn [mbind result_bind rbind];
    [|discriminate].
  intros Heq. inversion Heq; subst. exists rows.
  split; [reflexivity|]. split; [reflexivity|].
  rewrite (rmapM_length _ _ _ Hrows), length_app, length_map, length_replicate.
  fold ws. lia.
Qed.

(** One column: entry [j] of row [i] of both arrays is written, the
    call is recorded, the cache is not touched. *)
Lemma column_step_spec (m2 i j : nat) (c : string)
    (E E' : list (list (list (list R)))) (C C' : list (list nat))
    (st st' : mstate R) :
  column_step self m2 i (E, C) (j, c) st = (Ok (E', C'), st') ->
  st' = Build_mstate (column_cache st) (calls st ++ [(Str c, false)]) /\
  exists dst,
    E' = <[i := <[j := dst]> (E !!! i)]> E /\
    C' = <[i := <[j := length (word_tokenize (lower c))]> (C !!! i)]> C /\
    (length (word_tokenize (lower c)) <= m2 \/
     (length (word_tokenize (lower c)) = 1 /\ m2 = 0)) /\
    (length ((E !!! i) !!! j) = m2 -> length dst = m2).
Proof.
  unfold column_step. unfold mbind at 1, M_bind, call.
  destruct (forward self (Str c) false) as [[emb lens]|e] eqn:Hf; [|discriminate].
  destruct (forward_single_shape c emb lens Hf) as (rows & -> & -> & Hrows).
  cbn [hd]. set (L := length (word_tokenize (lower c))) in *.
  unfold mbind at 1, M_bind, lift. cbn [fst snd].
  unfold mbind at 1, M_bind, lift, assign_rows.
  destruct (L <=? m2) eqn:Hle.
  - apply Nat.leb_le in Hle. unfold mret, M_ret.
    intros Heq. inversion Heq; subst. split; [reflexivity|].
    eexists. split; [reflexivity|]. split; [reflexivity|].
    split; [left; exact Hle|].
    intros Hold. unfold Py.slice_assign.
    rewrite length_app, length_take, length_drop. lia.
  - apply Nat.leb_gt in Hle. destruct (L =? 1) eqn:H1; [|discriminate].
    apply Nat.eqb_eq in H1. unfold mret, M_ret.
    intros Heq. inversion Heq; subst. split; [reflexivity|].
    eexists. split; [reflexivity|]. split; [reflexivity|].
    split; [right; lia|]. intros Hold. exact Hold.
Qed.

Lemma Forall_insert_total {A} `{!Inhabited A} (P : A -> Prop) (l : list A)
    (j : nat) (x : A) :
  Forall P l -> (P (l !!! j) -> P x) -> Forall P (<[j := x]> l).
Proof.
  intros Hl Hx. destruct (decide (j < length l)) as [Hj|Hj].
  - apply Forall_insert; [exact Hl|]. apply Hx.
    rewrite Forall_forall in Hl. apply Hl.
    apply list_elem_of_lookup_total_2. exact Hj.
  - rewrite list_insert_ge by lia. exact Hl.
Qed.

(** The loop over the columns of one schema rewrites row [i] of both
    arrays and nothing else; the row keeps its shape, and the token
    counts stay within [m2] unless lowercasing creates tokens. *)
Lemma column_loop_spec (m2 i : nat) (cols : list string) :
  forall (j0 : nat) (E E' : list (list (list (list R)))) (C C' : list (list nat))
         (st st' : mstate R),
  i < length E -> i < length C ->
  foldM (column_step self m2 i) (E, C) (imap (fun j c => (j0 + j, c)) cols) st
    = (Ok (E', C'), st') ->
  column_cache st' = column_cache st /\
  calls st' = calls st ++ map (fun c => (Str c, false)) cols /\
  exists row' lens',
    E' = <[i := row']> E /\ C' = <[i := lens']> C /\
    length row' = length (E !!! i) /\ length lens' = length (C !!! i) /\
    (Forall (fun r => length r = m2) (E !!! i) ->
     Forall (fun r => length r = m2) row') /\
    ((forall c, c ∈ cols -> m2 = 0 -> word_tokenize (lower c) = []) ->
     Forall (fun l => l <= m2) (C !!! i) -> Forall (fun l => l <= m2) lens').
Proof.
  induction cols as [|c cols IH]; intros j0 E E' C C' st st' HiE HiC Hrun.
  - simpl in Hrun. inversion Hrun; subst.
    split; [reflexivity|]. split; [rewrite app_nil_r; reflexivity|].
    exists (E' !!! i), (C' !!! i).
    split; [symmetry; apply list_insert_id, list_lookup_lookup_total_lt; exact HiE|].
    split; [symmetry; apply list_insert_id, list_lookup_lookup_total_lt; exact HiC|].
    repeat split; auto.
  - cbn [imap] in Hrun. rewrite foldM_cons in Hrun.
    destruct (column_step self m2 i (E, C) (j0 + 0, c) st)
      as [[[E1 C1]|e] st1] eqn:Hstep; [|discriminate].
    apply column_step_spec in Hstep as (-> & dst & -> & -> & Hedge & Hdst).
    rewrite (imap_ext _ (fun j c => (S j0 + j, c))) in Hrun
      by (intros; simpl; f_equal; lia).
    apply IH in Hrun as (Hcache & Hcalls & row' & lens' & -> & -> & Hlr & Hll & Hshape & Hle);
      [|rewrite length_insert; exact HiE|rewrite length_insert; exact HiC].
    rewrite (list_lookup_total_insert_eq E) in Hlr, Hshape by assumption.
    rewrite (list_lookup_total_insert_eq C) in Hll, Hle by assumption.
    rewrite length_insert in Hlr. rewrite length_insert in Hll.
    split; [exact Hcache|]. split.
    { rewrite Hcalls. simpl. rewrite <- app_assoc. reflexivity. }
    exists row', lens'. rewrite !list_insert_insert_eq.
    repeat split; try assumption.
    + intros HE. apply Hshape. apply Forall_insert_total; assumption.
    + intros Hnil HC. apply Hle.
      * intros c' Hc'. apply Hnil. right. exact Hc'.
      * apply Forall_insert_total; [exact HC|]. intros _.
        destruct Hedge as [Hok|[H1 H2]]; [exact Hok|].
        rewrite (Hnil c (list_elem_of_here _ _) H2) in H1. discriminate.
Qed.

End ColumnLoop.

Section DbStep.
Context {R : Type} `{Scalar R} `{Tokenizer}.
Variable self : PretrainedEmbedding R.

Lemma zip_slice_assign_id {A} (m2 : nat) (z : list A) (row : list (list A)) :
  length z = m2 -> Forall (fun r => length r = m2) row ->
  zip_with (Py.slice_assign m2) row (replicate (length row) z) = row.
Proof.
  intros Hz Hrow. induction Hrow as [|r row Hr _ IH]; simpl; [reflexivity|].
  f_equal; [|exact IH]. unfold Py.slice_assign.
  rewrite take_ge, drop_ge by lia. apply app_nil_r.
Qed.

(** A hit on an entry that was stored while padding to the same sizes
    returns the entry itself. *)
Lemma hit_fresh_id (m1 m2 : nat) (row : list (list (list R))) (lens : list nat) :
  length row = m1 -> Forall (fun r => length r = m2) row ->
  length lens = m1 -> Forall (fun l => l <= m2) lens ->
  hit_emb m1 m2 (embedding_dim self) (row, lens) = row /\
  hit_lens m1 m2 (row, lens) = lens.
Proof.
  intros Hrow Hshape Hlens Hle. split.
  - unfold hit_emb, assign_region, zero_row. cbn [fst snd].
    destruct row as [|r0 row'] eqn:Erow.
    + simpl in Hrow. subst m1. reflexivity.
    + cbn [hd]. rewrite <- Erow in *.
      assert (Hr0 : length r0 = m2).
      { rewrite Erow in Hshape. inversion Hshape; assumption. }
      rewrite Hrow, Hr0, !Nat.min_id.
      rewrite (take_ge row), take_ge, drop_ge
        by (rewrite ?length_replicate; lia).
      rewrite app_nil_r, <- Hrow.
      apply zip_slice_assign_id; [apply length_replicate|exact Hshape].
  - unfold hit_lens, Py.slice_assign, zero_lens. cbn [fst snd].
    rewrite Hrow, Nat.min_id, take_take, Nat.min_id.
    rewrite take_ge by (rewrite length_map; lia).
    rewrite drop_ge by (rewrite length_replicate; lia).
    rewrite app_nil_r. clear Hlens.
    induction Hle as [|l lens Hl _ IH]; simpl; [reflexivity|].
    f_equal; [lia|exact IH].
Qed.

(** One schema. On a hit the state is left alone and row [i] is the
    copy of the entry; on a miss row [i] is computed by one call per
    column and, with caching on, stored under the schema. *)
Lemma db_step_spec (m1 m2 i : nat) (db : list string)
    (E E' : list (list (list (list R)))) (C C' : list (list nat))
    (st st' : mstate R) :
  i < length E -> i < length C ->
  E !!! i = zero_row m1 m2 (embedding_dim self) -> C !!! i = zero_lens m1 ->
  db_step self m1 m2 (E, C) (i, db) st = (Ok (E', C'), st') ->
  exists row lens,
    E' = <[i := row]> E /\ C' = <[i := lens]> C /\
    match column_cache st !! db with
    | Some e =>
        st' = st /\ row = hit_emb m1 m2 (embedding_dim self) e /\
        lens = hit_lens m1 m2 e
    | None =>
        calls st' = calls st ++ map (fun c => (Str c, false)) db /\
        column_cache st' =
          (if use_column_cache self
           then <[db := (row, lens)]> (column_cache st)
           else column_cache st) /\
        length row = m1 /\ Forall (fun r => length r = m2) row /\
        length lens = m1 /\
        ((forall c, c ∈ db -> m2 = 0 -> word_tokenize (lower c) = []) ->
         Forall (fun l => l <= m2) lens)
    end.
Proof.
  intros HiE HiC HE HC. unfold db_step.
  destruct (column_cache st !! db) as [[cemb clens]|] eqn:Hcache.
  - intros Heq. inversion Heq; subst. rewrite HE, HC.
    eexists _, _. repeat split; reflexivity.
  - destruct (foldM _ _ _ st) as [[[E1 C1]|e] st1] eqn:Hloop; [|discriminate].
    unfold enumerate in Hloop.
    rewrite (imap_ext _ (fun j c => (0 + j, c))) in Hloop by reflexivity.
    apply column_loop_spec in Hloop
      as (Hc & Hcalls & row & lens & -> & -> & Hlr & Hll & Hshape & Hle);
      [|exact HiE|exact HiC].
    intros Heq. inversion Heq; subst E' C'. clear Heq.
    rewrite !list_lookup_total_insert_eq by assumption.
    exists row, lens. split; [reflexivity|]. split; [reflexivity|].
    rewrite HE in Hlr, Hshape. rewrite HC in Hll, Hle.
    unfold zero_row in Hlr, Hshape. unfold zero_lens in Hll, Hle.
    rewrite length_replicate in Hlr. rewrite length_replicate in Hll.
    split.
    { destruct (use_column_cache self); subst st'; exact Hcalls. }
    split.
    { destruct (use_column_cache self); subst st'; [rewrite Hc; reflexivity|exact Hc]. }
    split; [exact Hlr|]. split.
    { apply Hshape. apply Forall_replicate. apply length_replicate. }
    split; [exact Hll|].
    intros Hnil. apply Hle; [exact Hnil|].
    apply Forall_replicate. lia.
Qed.

End DbStep.

Section DbLoop.
Context {R : Type} `{Scalar R} `{Tokenizer}.
Variable self : PretrainedEmbedding R.

Lemma lower_keeps_empty_app_l (m2 : nat) (dbs1 dbs2 : list (list string)) :
  lower_keeps_empty m2 (dbs1 ++ dbs2) -> lower_keeps_empty m2 dbs1.
Proof. intros Hk db c Hdb. apply Hk, elem_of_app. left. exact Hdb. Qed.

Lemma db_loop_inv (m1 m2 b : nat) (dbs : list (list string)) :
  forall (st0 st : mstate R) (E : list (list (list (list R))))
         (C : list (list nat)),
  length dbs <= b ->
  foldM (db_step self m1 m2)
        (replicate b (zero_row m1 m2 (embedding_dim self)),
         replicate b (zero_lens m1))
        (enumerate dbs) st0 = (Ok (E, C), st) ->
  db_inv self m1 m2 b dbs st0 st E C.
Proof.
  induction dbs as [|db dbs IH] using rev_ind; intros st0 st E C Hb Hrun.
  - simpl in Hrun. inversion Hrun; subst. unfold db_inv.
    rewrite !length_replicate.
    split; [reflexivity|]. split; [reflexivity|]. split.
    { intros i _ Hi. rewrite !lookup_replicate_2 by exact Hi. split; reflexivity. }
    split; [auto|]. split; [auto|]. split.
    { intros i db e Hdb. discriminate. }
    split.
    { intros _ i db e Hdb. discriminate. }
    intros _ db Hdb. inversion Hdb.
  - rewrite length_app in Hb. simpl in Hb.
    rewrite enumerate_snoc, foldM_app in Hrun.
    destruct (foldM _ _ (enumerate dbs) st0) as [[[E1 C1]|e] st1] eqn:Hpre;
      [|discriminate].
    apply IH in Hpre as (HlE & HlC & Hzero & Hmono & Hnew & Hhit0 & Hhit & Hall);
      [|lia].
    rewrite foldM_cons in Hrun.
    destruct (db_step self m1 m2 (E1, C1) (length dbs, db) st1)
      as [[[E2 C2]|e] st2] eqn:Hstep; [|discriminate].
    simpl in Hrun. inversion Hrun; subst E2 C2 st2. clear Hrun.
    destruct (Hzero (length dbs)) as [HEz HCz]; [lia|lia|].
    apply db_step_spec in Hstep as (row & lens & -> & -> & Hcase);
      [|lia|lia|apply list_lookup_total_correct; exact HEz
       |apply list_lookup_total_correct; exact HCz].
    assert (Hmono1 : forall key e, column_cache st1 !! key = Some e ->
              column_cache st !! key = Some e).
    { intros key e Hk. destruct (column_cache st1 !! db) as [e0|] eqn:Hdb.
      - destruct Hcase as (-> & _). exact Hk.
      - destruct Hcase as (_ & -> & _). destruct (use_column_cache self); [|exact Hk].
        rewrite lookup_insert_ne; [exact Hk|]. intros <-. congruence. }
    unfold db_inv. rewrite !length_insert.
    split; [exact HlE|]. split; [exact HlC|]. split.
    { intros i Hi1 Hi2. rewrite length_app in Hi1. simpl in Hi1.
      rewrite !list_lookup_insert_ne by lia. apply Hzero; lia. }
    split; [intros key e Hk; apply Hmono1, Hmono, Hk|]. split.
    { intros key e Hk. destruct (column_cache st1 !! db) as [e0|] eqn:Hdb.
      - destruct Hcase as (-> & _). apply Hnew. exact Hk.
      - destruct Hcase as (_ & Hc & Hlr & Hshape & Hll & _). rewrite Hc in Hk.
        destruct (use_column_cache self); [|apply Hnew; exact Hk].
        destruct (decide (db = key)) as [<-|Hdiff].
        + rewrite lookup_insert_eq in Hk. inversion Hk; subst e.
          right. auto.
        + rewrite lookup_insert_ne in Hk by exact Hdiff. apply Hnew. exact Hk. }
    split.
    { intros i db' e Hdb' He.
      destruct (decide (i = length dbs)) as [->|Hne].
      - rewrite lookup_app_r, Nat.sub_diag in Hdb' by lia.
        simpl in Hdb'. inversion Hdb'; subst db'.
        rewrite !list_lookup_insert_eq by lia.
        rewrite (Hmono db e He) in Hcase.
        destruct Hcase as (_ & -> & ->). split; reflexivity.
      - assert (Hi : i < length dbs).
        { apply lookup_lt_Some in Hdb'. rewrite length_app in Hdb'.
          simpl in Hdb'. lia. }
        rewrite lookup_app_l in Hdb' by exact Hi.
        rewrite !list_lookup_insert_ne by lia.
        apply (Hhit0 i db' e Hdb' He). }
    split.
    { intros Hedge i db' e Hdb' He.
      pose proof (lower_keeps_empty_app_l _ _ _ Hedge) as Hedge'.
      destruct (decide (i = length dbs)) as [->|Hne].
      - rewrite lookup_app_r, Nat.sub_diag in Hdb' by lia.
        simpl in Hdb'. inversion Hdb'; subst db'.
        rewrite !list_lookup_insert_eq by lia.
        destruct (column_cache st1 !! db) as [e0|] eqn:Hdb.
        + destruct Hcase as (-> & -> & ->). rewrite Hdb in He.
          inversion He; subst. split; reflexivity.
        + destruct Hcase as (_ & Hc & Hlr & Hshape & Hll & Hle).
          rewrite Hc in He. destruct (use_column_cache self); [|congruence].
          rewrite lookup_insert_eq in He. inversion He; subst e.
          destruct (hit_fresh_id self m1 m2 row lens Hlr Hshape Hll) as [-> ->].
          * apply Hle. intros c Hc'. apply (Hedge db c); [|exact Hc'].
            apply elem_of_app. right. left.
          * split; reflexivity.
      - assert (Hi : i < length dbs).
        { apply lookup_lt_Some in Hdb'. rewrite length_app in Hdb'.
          simpl in Hdb'. lia. }
        rewrite lookup_app_l in Hdb' by exact Hi.
        rewrite !list_lookup_insert_ne by lia.
        apply (Hhit Hedge' i db' e Hdb').
        destruct (column_cache st1 !! db) as [e0|] eqn:Hdb.
        + destruct Hcase as (-> & _). exact He.
        + destruct Hcase as (_ & Hc & _). rewrite Hc in He.
          destruct (use_column_cache self) eqn:Hflag; [|exact He].
          destruct (decide (db = db')) as [<-|Hdiff].
          * destruct (Hall eq_refl db) as [e1 He1];
              [eapply list_elem_of_lookup_2; exact Hdb'|congruence].
          * rewrite lookup_insert_ne in He by exact Hdiff. exact He. }
    intros Hflag db' Hdb'. apply elem_of_app in Hdb' as [Hdb'|Hdb'].
    + destruct (Hall Hflag db' Hdb') as [e He]. exists e. apply Hmono1, He.
    + apply list_elem_of_singleton in Hdb'. subst db'.
      destruct (column_cache st1 !! db) as [e0|] eqn:Hdb.
      * destruct Hcase as (-> & _). eauto.
      * destruct Hcase as (_ & -> & _). rewrite Hflag.
        rewrite lookup_insert_eq. eauto.
Qed.

(** A batch whose schemas are all cached runs through without a call
    and without touching the state. *)
Lemma all_hit_run (m1 m2 : nat) (st : mstate R) (dbs : list (list string)) :
  Forall (fun db => is_Some (column_cache st !! db)) dbs ->
  forall (k : nat) (acc : col_acc),
  exists acc', foldM (db_step self m1 m2) acc
                 (imap (fun i db => (k + i, db)) dbs) st = (Ok acc', st).
Proof.
  induction 1 as [|db dbs [e He] _ IH]; intros k acc.
  - exists acc. reflexivity.
  - cbn [imap]. rewrite foldM_cons. unfold db_step at 1. rewrite He.
    rewrite (imap_ext _ (fun i db => (S k + i, db)))
      by (intros; simpl; f_equal; lia).
    apply IH.
Qed.

End DbLoop.

Section GetColumns.
Context {R : Type} `{Scalar R} `{Tokenizer}.
Variable self : PretrainedEmbedding R.

Lemma py_max_ok (l : list nat) : l <> [] -> Py.max l = Ok (max_list l).
Proof. destruct l; [congruence|reflexivity]. Qed.

Lemma py_max_raise (l : list nat) (n : nat) : Py.max l = Ok n -> l <> [].
Proof. destruct l; [discriminate|discriminate]. Qed.

Lemma rmapM_py_max (ls : list (list nat)) :
  Forall (fun l => l <> []) ls -> rmapM Py.max ls = Ok (map max_list ls).
Proof.
  intros Hls. apply rmapM_map_Ok. intros l Hl.
  apply py_max_ok. rewrite Forall_forall in Hls. apply Hls. exact Hl.
Qed.

Lemma rmapM_py_max_inv (ls : list (list nat)) (ms : list nat) :
  rmapM Py.max ls = Ok ms -> Forall (fun l => l <> []) ls.
Proof.
  revert ms. induction ls as [|l ls IH]; intros ms Hms; [constructor|].
  simpl in Hms. destruct (Py.max l) as [m|e] eqn:Hm; [|discriminate].
  destruct (rmapM Py.max ls) as [ms'|e] eqn:Hrest; [|discriminate].
  constructor; [eapply py_max_raise; exact Hm|eapply IH; reflexivity].
Qed.

Lemma token_counts_nonempty (columns : list (list (list string))) :
  Forall (fun l => l <> []) (token_counts columns) <->
  Forall (fun db => db <> []) columns.
Proof.
  unfold token_counts, columns_joined. rewrite !Forall_forall. split.
  - intros Hl db Hdb Heq. subst db.
    apply (Hl []); [|reflexivity].
    apply list_elem_of_In, in_map_iff. exists []. split; [reflexivity|].
    apply in_map_iff. exists []. split; [reflexivity|].
    apply list_elem_of_In. exact Hdb.
  - intros Hdb l Hl Heq. subst l.
    apply list_elem_of_In, in_map_iff in Hl as (jdb & Hnil & Hj).
    apply in_map_iff in Hj as (db & <- & Hin).
    apply (Hdb db); [apply list_elem_of_In; exact Hin|].
    destruct db; [reflexivity|discriminate].
Qed.

(** After its three maxima [get_columns_emb] is the loop over the
    schemas. *)
Lemma get_columns_emb_run (columns : list (list (list string))) (st : mstate R) :
  columns <> [] -> Forall (fun db => db <> []) columns ->
  get_columns_emb self columns st =
  match foldM (db_step self (max_columns columns) (max_tokens columns))
              (replicate (length columns)
                 (zero_row (max_columns columns) (max_tokens columns)
                           (embedding_dim self)),
               replicate (length columns) (zero_lens (max_columns columns)))
              (enumerate (columns_joined columns)) st with
  | (Ok (E, C), st') => (Ok (E, map length columns, C), st')
  | (Raise e, st') => (Raise e, st')
  end.
Proof.
  intros Hne Hdbs. unfold get_columns_emb.
  unfold mbind at 1, M_bind, lift.
  rewrite py_max_ok by (destruct columns; [congruence|discriminate]).
  unfold mbind at 1, M_bind.
  fold (token_counts columns).
  rewrite rmapM_py_max by (apply token_counts_nonempty; exact Hdbs).
  unfold mbind at 1, M_bind.
  rewrite py_max_ok
    by (unfold token_counts, columns_joined;
        destruct columns; [congruence|discriminate]).
  unfold mbind, M_bind, mret, M_ret.
  unfold max_columns, max_tokens, token_counts, zero_row, zero_lens.
  rewrite map_map.
  destruct (foldM _ _ _ st) as [[[E C]|e] st']; reflexivity.
Qed.

(** A call that returns was given a batch with at least one schema
    and at least one column in each. *)
Lemma get_columns_emb_ok_inv (columns : list (list (list string)))
    (st st' : mstate R) out :
  get_columns_emb self columns st = (Ok out, st') ->
  columns <> [] /\ Forall (fun db => db <> []) columns.
Proof.
  unfold get_columns_emb. unfold mbind at 1, M_bind, lift.
  destruct (Py.max (map length columns)) as [m1|e] eqn:Hm1; [|discriminate].
  unfold mbind at 1, M_bind. fold (token_counts columns).
  destruct (rmapM Py.max (token_counts columns)) as [ms|e] eqn:Hms;
    [|discriminate].
  intros _. split.
  - apply py_max_raise in Hm1. destruct columns; [simpl in Hm1|]; congruence.
  - apply token_counts_nonempty. eapply rmapM_py_max_inv. exact Hms.
Qed.

End GetColumns.

Section SecondCall.
Context {R : Type} `{Scalar R} `{Tokenizer}.
Variable self : PretrainedEmbedding R.

Lemma laws_keep_empty `{!TokenizerLaws} (columns : list (list (list string))) :
  lower_keeps_empty (max_tokens columns) (columns_joined columns).
Proof.
  intros db c Hdb Hc Hzero. apply tokenize_lower_nil.
  assert (Hle : length (word_tokenize c) <= max_tokens columns).
  { unfold max_tokens.
    transitivity (max_list (map (fun c => length (word_tokenize c)) db)).
    - apply max_list_elem_of_le.
      apply list_elem_of_In.
      apply (in_map (fun c => length (word_tokenize c))).
      apply list_elem_of_In, Hc.
    - apply max_list_elem_of_le.
      apply list_elem_of_In.
      apply (in_map (fun db => max_list (map (fun c => length (word_tokenize c)) db))).
      apply list_elem_of_In, Hdb. }
  destruct (word_tokenize c); [reflexivity|simpl in Hle; lia].
Qed.

Lemma length_columns_joined (columns : list (list (list string))) :
  length (columns_joined columns) = length columns.
Proof. apply length_map. Qed.

(** Two runs of the loop that both copy every row from one cache
    return the same arrays. *)
Lemma hit_rows_eq (m1 m2 b : nat) (dbs : list (list string)) (st : mstate R)
    (E E' : list (list (list (list R)))) (C C' : list (list nat)) :
  length dbs = b -> length E = b -> length E' = b ->
  length C = b -> length C' = b ->
  (forall db, db ∈ dbs -> is_Some (column_cache st !! db)) ->
  (forall i db e, dbs !! i = Some db -> column_cache st !! db = Some e ->
     E !! i = Some (hit_emb m1 m2 (embedding_dim self) e) /\
     C !! i = Some (hit_lens m1 m2 e)) ->
  (forall i db e, dbs !! i = Some db -> column_cache st !! db = Some e ->
     E' !! i = Some (hit_emb m1 m2 (embedding_dim self) e) /\
     C' !! i = Some (hit_lens m1 m2 e)) ->
  E' = E /\ C' = C.
Proof.
  intros Hb HE HE' HC HC' Hall Hrows Hrows'.
  split; apply list_eq; intros i.
  - destruct (decide (i < b)) as [Hi|Hi].
    + destruct (lookup_lt_is_Some_2 dbs i) as [db Hdb]; [lia|].
      destruct (Hall db) as [e He]; [eapply list_elem_of_lookup_2; exact Hdb|].
      destruct (Hrows i db e Hdb He) as [-> _].
      destruct (Hrows' i db e Hdb He) as [-> _]. reflexivity.
    + rewrite !lookup_ge_None_2 by lia. reflexivity.
  - destruct (decide (i < b)) as [Hi|Hi].
    + destruct (lookup_lt_is_Some_2 dbs i) as [db Hdb]; [lia|].
      destruct (Hall db) as [e He]; [eapply list_elem_of_lookup_2; exact Hdb|].
      destruct (Hrows i db e Hdb He) as [_ ->].
      destruct (Hrows' i db e Hdb He) as [_ ->]. reflexivity.
    + rewrite !lookup_ge_None_2 by lia. reflexivity.
Qed.

End SecondCall.

(** C5. With caching on, and a tokenizer for which lowercasing a text
    without tokens gives a text without tokens: when a call of
    [get_columns_emb] has returned, the same call made again returns
    the very same three results and leaves the object as it was, so
    that the record of the calls [self(column)] has not grown: no
    column is embedded a second time. *)
Theorem C5_second_call_identical {R : Type} `{Scalar R} `{Tokenizer}
    `{!TokenizerLaws} (self : PretrainedEmbedding R)
    (columns : list (list (list string))) (st st1 : mstate R)
    (out : list (list (list (list R))) * list nat * list (list nat)) :
  use_column_cache self = true ->
  get_columns_emb self columns st = (Ok out, st1) ->
  get_columns_emb self columns st1 = (Ok out, st1) /\
  calls (get_columns_emb self columns st1).2 = calls st1.
Proof.
  intros Hflag Hfirst.
  destruct (get_columns_emb_ok_inv self columns st st1 out Hfirst) as [Hne Hdbs].
  rewrite get_columns_emb_run in Hfirst by assumption.
  destruct (foldM _ _ _ st) as [[[E C]|e] st'] eqn:Hrun1; [|discriminate].
  inversion Hfirst; subst out st'. clear Hfirst.
  pose proof (laws_keep_empty columns) as Hedge.
  apply db_loop_inv in Hrun1
    as (HlE & HlC & _ & _ & _ & _ & Hhit1 & Hall1);
    [|rewrite length_columns_joined; lia].
  assert (Hcached : Forall (fun db => is_Some (column_cache st1 !! db))
                           (columns_joined columns)).
  { apply Forall_forall. intros db Hdb. apply Hall1; assumption. }
  destruct (all_hit_run self (max_columns columns) (max_tokens columns) st1
              (columns_joined columns) Hcached 0
              (replicate (length columns)
                 (zero_row (max_columns columns) (max_tokens columns)
                           (embedding_dim self)),
               replicate (length columns) (zero_lens (max_columns columns))))
    as [[E2 C2] Hrun2].
  assert (Hsecond : get_columns_emb self columns st1 =
                    (Ok (E2, map length columns, C2), st1)).
  { rewrite get_columns_emb_run by assumption.
    unfold enumerate.
    rewrite (imap_ext _ (fun i db => (0 + i, db))) by reflexivity.
    rewrite Hrun2. reflexivity. }
  unfold enumerate in *.
  rewrite (imap_ext (fun i db => (0 + i, db)) (fun i db => (i, db))) in Hrun2
    by reflexivity.
  apply db_loop_inv in Hrun2
    as (HlE2 & HlC2 & _ & _ & _ & _ & Hhit2 & _);
    [|rewrite length_columns_joined; lia].
  destruct (hit_rows_eq self (max_columns columns) (max_tokens columns)
              (length columns) (columns_joined columns) st1 E E2 C C2)
    as [-> ->]; try assumption.
  - apply length_columns_joined.
  - intros db Hdb. apply Hall1; assumption.
  - apply Hhit1. exact Hedge.
  - apply Hhit2. exact Hedge.
  - rewrite Hsecond. split; reflexivity.
Qed.

Lemma lower_char_isspace (c : ascii) :
  Py.isspace (Sample.lower_char c) = Py.isspace c.
Proof. destruct c as [[] [] [] [] [] [] [] []]; reflexivity. Qed.

Lemma split_nil_all_space (s : string) :
  Py.split s = [] -> all_chars Py.isspace s = true.
Proof.
  induction s as [|c s IH]; simpl; [reflexivity|].
  destruct (Py.isspace c); simpl; [exact IH|].
  destruct s as [|c' s']; [discriminate|].
  destruct (Py.isspace c'); [discriminate|].
  destruct (Py.split (String c' s')); discriminate.
Qed.

Lemma all_space_lower (s : string) :
  all_chars Py.isspace s = true ->
  all_chars Py.isspace (Sample.lower_ascii s) = true.
Proof.
  induction s as [|c s IH]; simpl; [reflexivity|].
  rewrite lower_char_isspace. intros Hs.
  apply andb_true_iff in Hs as [-> Hs]. apply IH. exact Hs.
Qed.

(** The sample tokenizer satisfies the law. *)
Lemma ws_tokenizer_laws : @TokenizerLaws Sample.ws_tokenizer.
Proof.
  split. intros s Hs. cbn in *.
  apply split_all_space, all_space_lower, split_nil_all_space. exact Hs.
Qed.

Existing Instance ws_tokenizer_laws.

(** C5 on the sample table and a schema of two columns: the first call
    embeds the two columns, the second returns the same and embeds
    nothing. *)
Lemma C5_second_call_identical_witness :
  exists out st1,
    get_columns_emb SampleTable.tiny [[["a"]; ["a"; "b"]]] fresh = (Ok out, st1) /\
    calls st1 = [(Str "a", false); (Str "a b", false)] /\
    get_columns_emb SampleTable.tiny [[["a"]; ["a"; "b"]]] st1 = (Ok out, st1) /\
    calls (get_columns_emb SampleTable.tiny [[["a"]; ["a"; "b"]]] st1).2 =
      [(Str "a", false); (Str "a b", false)].
Proof.
  assert (Hcalls :
    calls (get_columns_emb SampleTable.tiny [[["a"]; ["a"; "b"]]] fresh).2 =
      [(Str "a", false); (Str "a b", false)]) by (vm_compute; reflexivity).
  destruct (get_columns_emb SampleTable.tiny [[["a"]; ["a"; "b"]]] fresh)
    as [[out|e] st1] eqn:Hfirst.
  - simpl in Hcalls.
    destruct (C5_second_call_identical SampleTable.tiny
                [[["a"]; ["a"; "b"]]] fresh st1 out eq_refl Hfirst)
      as [Hsecond Hsame].
    exists out, st1. split; [reflexivity|]. split; [exact Hcalls|].
    split; [exact Hsecond|]. rewrite Hsame. exact Hcalls.
  - exfalso. vm_compute in Hfirst. discriminate.
Defined.

Section HitRegion.
Context {R : Type} `{Scalar R}.

(** The copy of a cached tensor, entry by entry: inside the region
    bounded by the sizes of the cached tensor it holds the cached
    vector, elsewhere the zero vector. *)
Lemma hit_emb_lookup (m1 m2 dim : nat) (cemb : list (list (list R)))
    (clens : list nat) (j k : nat) :
  rectangular cemb -> j < m1 -> k < m2 ->
  exists r,
    hit_emb m1 m2 dim (cemb, clens) !! j = Some r /\
    length r = m2 /\
    r !! k = Some (if (j <? length cemb) && (k <? length (hd [] cemb))
                   then (cemb !!! j) !!! k else zeros dim).
Proof.
  intros Hrect Hj Hk. unfold hit_emb, assign_region, zero_row. cbn [fst snd].
  set (c1 := length cemb). set (c2 := length (hd [] cemb)).
  set (z := zeros dim).
  assert (Hlz : length (zip_with (Py.slice_assign (Nat.min c2 m2))
                          (take (Nat.min c1 m1) cemb)
                          (take (Nat.min c1 m1) (replicate m1 (replicate m2 z))))
                = Nat.min c1 m1).
  { rewrite length_zip_with, !length_take, length_replicate. fold c1. lia. }
  destruct (decide (j < c1)) as [Hjc|Hjc].
  - rewrite lookup_app_l by (rewrite Hlz; lia).
    rewrite lookup_zip_with, !lookup_take_lt by lia.
    rewrite lookup_replicate_2 by exact Hj.
    destruct (lookup_lt_is_Some_2 cemb j Hjc) as [cj Hcj]. rewrite Hcj.
    cbn [mbind option_bind].
    assert (Hlc : length cj = c2).
    { unfold rectangular in Hrect. rewrite Forall_forall in Hrect.
      apply Hrect. eapply list_elem_of_lookup_2. exact Hcj. }
    eexists. split; [reflexivity|]. unfold Py.slice_assign.
    rewrite drop_replicate. split.
    + rewrite length_app, length_take, length_replicate. lia.
    + apply Nat.ltb_lt in Hjc as Hjb. rewrite Hjb. cbn [andb].
      destruct (decide (k < c2)) as [Hkc|Hkc].
      * apply Nat.ltb_lt in Hkc as Hkb. rewrite Hkb.
        rewrite lookup_app_l by (rewrite length_take; lia).
        rewrite lookup_take_lt by lia.
        rewrite (list_lookup_total_correct _ _ _ Hcj).
        apply list_lookup_lookup_total_lt. lia.
      * assert (Hkb : (k <? c2) = false) by (apply Nat.ltb_ge; lia).
        rewrite Hkb.
        rewrite lookup_app_r by (rewrite length_take; lia).
        apply lookup_replicate_2. rewrite length_take. lia.
  - rewrite lookup_app_r by (rewrite Hlz; lia).
    rewrite Hlz, lookup_drop.
    replace (Nat.min c1 m1 + (j - Nat.min c1 m1)) with j by lia.
    rewrite lookup_replicate_2 by exact Hj.
    eexists. split; [reflexivity|]. split; [apply length_replicate|].
    assert (Hjb : (j <? c1) = false) by (apply Nat.ltb_ge; lia).
    rewrite Hjb. cbn [andb].
    apply lookup_replicate_2. exact Hk.
Qed.

End HitRegion.

(** C4. Let the schema at position [i] of the batch be in the cache,
    with a rectangular tensor. Whenever [get_columns_emb] returns, row
    [i] of its result is the copy of that tensor over the region whose
    extent is, in the column and in the token dimension, the smaller of
    the cached size and the padded size of the batch: the cached vector
    at each position of the region, the zero vector at every other
    position. A hit cannot fail: when every schema of a batch of
    non-empty schemas is cached, the call returns and leaves the object
    as it was. *)
Theorem C4_cache_hit_region {R : Type} `{Scalar R} `{Tokenizer}
    (self : PretrainedEmbedding R) (columns : list (list (list string)))
    (st : mstate R) (i : nat) (db : list string)
    (cemb : list (list (list R))) (clens : list nat) :
  columns_joined columns !! i = Some db ->
  column_cache st !! db = Some (cemb, clens) ->
  rectangular cemb ->
  (forall E lengths C st',
     get_columns_emb self columns st = (Ok (E, lengths, C), st') ->
     E !! i = Some (assign_region
                      (Nat.min (length cemb) (max_columns columns))
                      (Nat.min (length (hd [] cemb)) (max_tokens columns))
                      cemb
                      (zero_row (max_columns columns) (max_tokens columns)
                                (embedding_dim self))) /\
     forall j k, j < max_columns columns -> k < max_tokens columns ->
       exists row r,
         E !! i = Some row /\ length row = max_columns columns /\
         row !! j = Some r /\ length r = max_tokens columns /\
         r !! k = Some (if (j <? length cemb) && (k <? length (hd [] cemb))
                        then (cemb !!! j) !!! k
                        else zeros (embedding_dim self))) /\
  (Forall (fun db => db <> []) columns ->
   Forall (fun db => is_Some (column_cache st !! db)) (columns_joined columns) ->
   exists E C,
     get_columns_emb self columns st = (Ok (E, map length columns, C), st)).
Proof.
  intros Hdb Hcache Hrect. split.
  - intros E lengths C st' Hcall.
    destruct (get_columns_emb_ok_inv self columns st st' _ Hcall) as [Hne Hdbs].
    rewrite get_columns_emb_run in Hcall by assumption.
    destruct (foldM _ _ _ st) as [[[E1 C1]|e] st1] eqn:Hrun; [|discriminate].
    inversion Hcall; subst E1 lengths C1 st1. clear Hcall.
    apply db_loop_inv in Hrun as (HlE & _ & _ & _ & _ & Hhit0 & _);
      [|rewrite length_columns_joined; lia].
    destruct (Hhit0 i db (cemb, clens) Hdb Hcache) as [HE _].
    split; [exact HE|].
    intros j k Hj Hk.
    destruct (hit_emb_lookup (max_columns columns) (max_tokens columns)
                (embedding_dim self) cemb clens j k Hrect Hj Hk)
      as (r & Hr & Hlen & Hrk).
    eexists _, r. split; [exact HE|]. split; [|split; [exact Hr|split; assumption]].
    unfold hit_emb, assign_region, zero_row. cbn [fst snd].
    rewrite length_app, length_zip_with, !length_take, length_drop,
      !length_replicate. lia.
  - intros Hdbs Hall.
    assert (Hne : columns <> []).
    { intros ->. discriminate. }
    rewrite get_columns_emb_run by assumption.
    destruct (all_hit_run self (max_columns columns) (max_tokens columns) st
                (columns_joined columns) Hall 0
                (replicate (length columns)
                   (zero_row (max_columns columns) (max_tokens columns)
                             (embedding_dim self)),
                 replicate (length columns) (zero_lens (max_columns columns))))
      as [[E C] Hrun].
    unfold enumerate.
    rewrite (imap_ext _ (fun i db => (0 + i, db))) by reflexivity.
    rewrite Hrun. exists E, C. reflexivity.
Qed.

(** C4 on the sample table: the schema [a] is cached by a call on a
    batch of that schema alone, with one column of one token; queried
    again inside a batch padded to two columns of two tokens, it
    returns, with the cached vector at position (0, 0) of its row and
    zero vectors at the three other positions. *)
Lemma C4_cache_hit_region_witness :
  column_cache SampleTable.cached_a !! ["a"] = Some ([[[1; 2]]]%Q, [1]) /\
  exists E C st',
    get_columns_emb SampleTable.tiny [[["a"]]; [["a"; "b"]; ["b"]]]
                    SampleTable.cached_a
      = (Ok (E, [1; 2], C), st') /\
    E !! 0 = Some [[[1; 2]; [0; 0]]; [[0; 0]; [0; 0]]]%Q.
Proof.
  pose (st1 := SampleTable.cached_a).
  change SampleTable.cached_a with st1.
  assert (Hcache : column_cache st1 !! ["a"] = Some ([[[1; 2]]]%Q, [1]))
    by (vm_compute; reflexivity).
  split; [exact Hcache|].
  assert (Hlens :
    (get_columns_emb SampleTable.tiny [[["a"]]; [["a"; "b"]; ["b"]]] st1).1
      ≫= (fun out => Ok out.1.2) = Ok [1; 2]) by (vm_compute; reflexivity).
  destruct (get_columns_emb SampleTable.tiny [[["a"]]; [["a"; "b"]; ["b"]]] st1)
    as [[[[E lengths] C]|e] st'] eqn:Hcall; [|discriminate].
  simpl in Hlens. inversion Hlens; subst lengths.
  destruct (C4_cache_hit_region SampleTable.tiny
              [[["a"]]; [["a"; "b"]; ["b"]]] st1 0 ["a"] [[[1; 2]]]%Q [1]
              eq_refl Hcache) as [Hrow _].
  - repeat constructor.
  - destruct (Hrow E [1; 2] C st' Hcall) as [HE _].
    exists E, C, st'. split; [reflexivity|]. rewrite HE. reflexivity.
Defined.

(** * Further properties *)

(** ** [embed_token] and [get_history_emb] *)

Section TokenMore.
Context {R : Type} `{Scalar R} `{Tokenizer}.
Variable self : PretrainedEmbedding R.

Lemma foldl_madd_single (dim : nat) (l : list (list (list R))) :
  Forall (fun t => exists v, t = [v] /\ length v = dim) l ->
  forall a : list R, length a = dim ->
  exists a', foldl madd [a] l = [a'] /\ length a' = dim.
Proof.
  induction 1 as [|t l (v & -> & Hv) _ IH]; intros a Ha; simpl.
  - eauto.
  - apply IH. unfold vadd. rewrite length_zip_with. lia.
Qed.

(** The mean of one or more single-row tensors of one width is a
    single row of that width. *)
Lemma stack_mean_single (dim : nat) (l : list (list (list R))) :
  l <> [] ->
  Forall (fun t => exists v, t = [v] /\ length v = dim) l ->
  exists v, stack_mean l = Ok [v] /\ length v = dim.
Proof.
  intros Hne Hall. unfold stack_mean.
  destruct l as [|t0 l']; [congruence|].
  pose proof Hall as Hall'. rewrite Forall_forall in Hall'.
  destruct (Hall' t0 (list_elem_of_here _ _)) as (v0 & -> & Hv0).
  assert (Hshape : forallb (same_shape [v0]) ([v0] :: l') = true).
  { apply forallb_forall. intros t Ht.
    destruct (Hall' t (proj2 (list_elem_of_In _ _) Ht)) as (v & -> & Hv).
    unfold same_shape. apply bool_decide_eq_true. simpl. congruence. }
  rewrite Hshape. cbn [map].
  destruct (foldl_madd_single dim ([v0] :: l') Hall (zeros (length v0)))
    as (a' & -> & Ha'); [rewrite length_zeros; exact Hv0|].
  eexists. split; [reflexivity|]. rewrite length_map. exact Ha'.
Qed.

Lemma rmapM_vec_ok (parts : list string) :
  vocab_ok self -> weight_ok self ->
  exists ts, rmapM (vec self) parts = Ok ts /\
             length ts = length parts /\
             Forall (fun t => exists v, t = [v] /\ length v = embedding_dim self) ts.
Proof.
  intros Hok Hw. induction parts as [|p parts (ts & Hts & Hlen & Hall)]; simpl.
  - exists []. repeat split. constructor.
  - destruct (vec_shape self p Hok Hw) as (v & Hv & Hlv).
    rewrite Hv, Hts. simpl. eexists. split; [reflexivity|].
    split; [simpl; f_equal; exact Hlen|]. constructor; eauto.
Qed.

(** The mean of a word: a single row when the word has a sub-part, a
    failed stack when it has none. *)
Lemma word_mean_cases (word : string) :
  vocab_ok self -> weight_ok self ->
  (sub_parts word <> [] /\
   exists v, word_mean self word = Ok [v] /\ length v = embedding_dim self) \/
  (sub_parts word = [] /\ word_mean self word = Raise RuntimeError).
Proof.
  intros Hok Hw. unfold word_mean.
  destruct (rmapM_vec_ok (sub_parts word) Hok Hw) as (ts & -> & Hlen & Hall).
  cbn [mbind result_bind rbind].
  destruct (sub_parts word) as [|p parts] eqn:Hparts.
  - right. destruct ts; [|discriminate]. split; reflexivity.
  - left. split; [discriminate|].
    apply stack_mean_single; [|exact Hall].
    destruct ts; [discriminate|discriminate].
Qed.

Lemma rmapM_word_mean_cases (words : list string) :
  vocab_ok self -> weight_ok self ->
  (Forall (fun w => sub_parts w <> []) words /\
   exists ts, rmapM (word_mean self) words = Ok ts /\
              length ts = length words /\
              Forall (fun t => exists v, t = [v] /\ length v = embedding_dim self) ts) \/
  (~ Forall (fun w => sub_parts w <> []) words /\
   rmapM (word_mean self) words = Raise RuntimeError).
Proof.
  intros Hok Hw. induction words as [|w words IH]; simpl.
  - left. split; [constructor|]. exists []. repeat split. constructor.
  - destruct (word_mean_cases w Hok Hw) as [(Hsub & v & -> & Hv)|(Hsub & ->)].
    + cbn [mbind result_bind rbind].
      destruct IH as [(Hall & ts & -> & Hlen & Hts)|(Hnot & ->)].
      * left. split; [constructor; assumption|].
        eexists. split; [reflexivity|]. split; [simpl; f_equal; exact Hlen|].
        constructor; eauto.
      * right. split; [|reflexivity]. intros Hall. apply Hnot.
        inversion Hall; assumption.
    + right. split; [|reflexivity]. intros Hall. inversion Hall; contradiction.
Qed.

(** The two-level mean of a phrase: a single row for a phrase that
    can be reduced, an error for any other. *)
Lemma embed_token_spec_cases (token : string) :
  vocab_ok self -> weight_ok self ->
  (embeddable token /\
   exists v, embed_token_spec self token = Ok [v] /\
             length v = embedding_dim self) \/
  (~ embeddable token /\ embed_token_spec self token = Raise RuntimeError).
Proof.
  intros Hok Hw. unfold embed_token_spec, embeddable.
  destruct (rmapM_word_mean_cases (Py.split token) Hok Hw)
    as [(Hall & ts & -> & Hlen & Hts)|(Hnot & ->)];
    cbn [mbind result_bind rbind].
  - destruct (Py.split token) as [|w words] eqn:Hsplit.
    + right. destruct ts; [|discriminate]. split; [|reflexivity].
      intros [Hne _]. congruence.
    + left. split; [split; [discriminate|exact Hall]|].
      apply stack_mean_single; [|exact Hts]. destruct ts; discriminate.
  - right. split; [|reflexivity]. intros [_ Hall]. contradiction.
Qed.

Lemma embed_token_cases (token : string) (st : mstate R) :
  vocab_ok self -> weight_ok self ->
  (embeddable token /\
   exists v, embed_token_spec self token = Ok [v] /\
             length v = embedding_dim self /\
             embed_token self token st =
               (Ok [v],
                Build_mstate (column_cache st)
                  (calls st ++ map mean_call (token_parts token)))) \/
  (~ embeddable token /\
   embed_token_spec self token = Raise RuntimeError /\
   (embed_token self token st).1 = Raise RuntimeError).
Proof.
  intros Hok Hw.
  destruct (embed_token_run self token st) as (new & _ & Hrun & Hall).
  destruct (embed_token_spec_cases token Hok Hw)
    as [(Hemb & v & Hv & Hlen)|(Hnot & Hraise)].
  - left. split; [exact Hemb|]. exists v. split; [exact Hv|].
    split; [exact Hlen|].
    rewrite Hrun, Hv. rewrite Hall; [reflexivity|].
    rewrite Hv. exact (fun x => x).
  - right. split; [exact Hnot|]. split; [exact Hraise|].
    rewrite Hrun. exact Hraise.
Qed.

End TokenMore.

(** X1. Over a vocabulary within its weight matrix, [embed_token]
    returns exactly for the phrases that have a word and in which every
    word has a non-empty sub-part; it then returns a single vector of
    [embedding_dim] entries and has embedded every sub-part of the
    phrase, once each and in order; for every other phrase it raises a
    [RuntimeError]. *)
Theorem X1_embed_token_returns_iff {R : Type} `{Scalar R} `{Tokenizer}
    (self : PretrainedEmbedding R) (token : string) (st : mstate R) :
  vocab_ok self -> weight_ok self ->
  (embeddable token ->
   exists v,
     embed_token self token st =
       (Ok [v],
        Build_mstate (column_cache st)
          (calls st ++ map mean_call (token_parts token))) /\
     length v = embedding_dim self) /\
  (~ embeddable token -> (embed_token self token st).1 = Raise RuntimeError).
Proof.
  intros Hok Hw.
  destruct (embed_token_cases self token st Hok Hw)
    as [(Hemb & v & _ & Hlen & Hrun)|(Hnot & _ & Hraise)].
  - split; [|intros Hnot; contradiction].
    intros _. exists v. split; [exact Hrun|exact Hlen].
  - split; [intros Hemb; contradiction|].
    intros _. exact Hraise.
Qed.

Lemma X1_embed_token_returns_iff_witness :
  (exists v : list Q,
     embed_token SampleTable.tiny "a_b c" fresh =
       (Ok [v], Build_mstate ∅ [mean_call "a"; mean_call "b"; mean_call "c"]) /\
     length v = 2) /\
  (embed_token SampleTable.tiny "a _" fresh).1 = Raise RuntimeError.
Proof.
  destruct (X1_embed_token_returns_iff SampleTable.tiny "a_b c" fresh
              tiny_vocab_ok tiny_weight_ok) as [Hyes _].
  destruct (X1_embed_token_returns_iff SampleTable.tiny "a _" fresh
              tiny_vocab_ok tiny_weight_ok) as [_ Hno].
  split.
  - apply Hyes. split; [discriminate|]. repeat constructor; discriminate.
  - apply Hno. intros [_ Hall]. inversion Hall as [|? ? _ Hrest]; subst.
    inversion Hrest as [|? ? Hbad _]; subst. apply Hbad. reflexivity.
Defined.

Lemma snd_imap_pair {A} (f : nat -> nat) (l : list A) :
  map snd (imap (fun i x => (f i, x)) l) = l.
Proof.
  revert f. induction l as [|x l IH]; intros f; simpl.
  - reflexivity.
  - f_equal. apply (IH (fun i => f (S i))).
Qed.

Lemma snd_enumerate {A} (l : list A) : map snd (enumerate l) = l.
Proof. apply (snd_imap_pair (fun i => i)). Qed.

(** Writing position [length vs] of a row whose first [length vs]
    entries have been written. *)
Lemma insert_snoc_drop {A} (vs row : list A) (v : A) (n : nat) :
  length vs = n -> n < length row ->
  <[n := v]> (vs ++ drop n row) = (vs ++ [v]) ++ drop (S n) row.
Proof.
  intros <- Hn. rewrite insert_app_r_alt by lia. rewrite Nat.sub_diag.
  rewrite <- app_assoc. f_equal.
  destruct (drop (length vs) row) as [|r rest] eqn:Hdrop.
  - apply (f_equal length) in Hdrop. rewrite length_drop in Hdrop.
    simpl in Hdrop. lia.
  - simpl. f_equal.
    change (S (length vs)) with (1 + length vs).
    rewrite Nat.add_comm, <- drop_drop, Hdrop. reflexivity.
Qed.

Section HistoryRun.
Context {R : Type} `{Scalar R} `{Tokenizer}.
Variable self : PretrainedEmbedding R.
Hypothesis Hok : vocab_ok self.
Hypothesis Hw : weight_ok self.

Lemma assign_vector_row (v : list R) :
  length v = embedding_dim self ->
  assign_vector (embedding_dim self) [v] = Ok v.
Proof.
  intros Hv. unfold assign_vector.
  rewrite (proj2 (Nat.eqb_eq _ _) Hv). reflexivity.
Qed.

(** One assignment [embeddings[i,j,:] = self.embed_token(token)]. *)
Lemma history_token_cases (i j : nat) (E : list (list (list R)))
    (token : string) (st : mstate R) :
  (embeddable token /\
   exists v, token_vector self token = Ok v /\
             length v = embedding_dim self /\
             history_token self i E (j, token) st =
               (Ok (<[i := <[j := v]> (E !!! i)]> E),
                Build_mstate (column_cache st)
                  (calls st ++ map mean_call (token_parts token)))) \/
  (~ embeddable token /\
   (history_token self i E (j, token) st).1 = Raise RuntimeError).
Proof.
  destruct (embed_token_cases self token st Hok Hw)
    as [(Hemb & v & Hv & Hlen & Hrun)|(Hnot & _ & Hraise)].
  - left. split; [exact Hemb|]. exists v. split; [|split; [exact Hlen|]].
    + unfold token_vector. rewrite Hv. cbn [mbind result_bind rbind].
      apply assign_vector_row, Hlen.
    + unfold history_token. unfold mbind at 1, M_bind. rewrite Hrun.
      unfold mbind, M_bind, lift. rewrite (assign_vector_row v Hlen).
      reflexivity.
  - right. split; [exact Hnot|].
    unfold history_token. unfold mbind at 1, M_bind.
    destruct (embed_token self token st) as [[emb|e] st'];
      simpl in Hraise; [discriminate|]. simpl. congruence.
Qed.

(** The inner loop over the phrases of one history, on a row long
    enough for it. *)
Lemma history_tokens_run (i : nat) (E : list (list (list R)))
    (row : list (list R)) (history : list string) (st : mstate R) :
  Forall embeddable history ->
  E !! i = Some row -> length history <= length row ->
  exists vs,
    rmapM (token_vector self) history = Ok vs /\
    foldM (history_token self i) E (enumerate history) st =
      (Ok (<[i := vs ++ drop (length history) row]> E),
       Build_mstate (column_cache st)
         (calls st ++ map mean_call (concat (map token_parts history)))).
Proof.
  intros Hall Hi. induction history as [|token history IH] using rev_ind;
    intros Hlen.
  - exists []. split; [reflexivity|]. simpl. rewrite drop_0.
    rewrite list_insert_id by exact Hi. rewrite app_nil_r.
    destruct st; reflexivity.
  - apply Forall_app in Hall. destruct Hall as [Hall Htok].
    rewrite Forall_singleton in Htok.
    rewrite length_app in Hlen. simpl in Hlen.
    destruct (IH Hall) as (vs & Hvs & Hrun); [lia|].
    pose proof (rmapM_length _ _ _ Hvs) as Hlvs.
    rewrite enumerate_snoc, foldM_app, Hrun.
    rewrite foldM_cons.
    match goal with
    | |- context [history_token self i ?E' (?j, token) ?st'] =>
        destruct (history_token_cases i j E' token st')
          as [(_ & v & Hv & Hlv & Hstep)|(Hnot & _)]; [|contradiction]
    end.
    rewrite Hstep. unfold mret, M_ret. cbn [column_cache calls].
    exists (vs ++ [v]). split.
    + rewrite rmapM_app, Hvs. simpl. rewrite Hv. reflexivity.
    + rewrite list_lookup_total_insert_eq
        by (apply lookup_lt_Some in Hi; exact Hi).
      rewrite list_insert_insert_eq.
      rewrite insert_snoc_drop by lia.
      rewrite length_app. simpl.
      replace (length history + 1) with (S (length history)) by lia.
      rewrite map_app, concat_app, map_app. simpl.
      rewrite app_nil_r, app_assoc. reflexivity.
Qed.

(** The loop over the batch, on the zero tensor the method allocates. *)
Lemma history_steps_run (B m : nat) (hs : list (list string)) (st : mstate R) :
  length hs <= B ->
  Forall (fun h => length h <= m) hs ->
  Forall (Forall embeddable) hs ->
  exists rows,
    rmapM (history_row self m) hs = Ok rows /\
    foldM (history_step self)
      (replicate B (replicate m (zeros (embedding_dim self))))
      (enumerate hs) st =
      (Ok (rows ++ replicate (B - length hs)
                     (replicate m (zeros (embedding_dim self)))),
       Build_mstate (column_cache st)
         (calls st ++
          map mean_call (concat (map token_parts (concat hs))))).
Proof.
  induction hs as [|h hs IH] using rev_ind; intros HB Hm Hall.
  - exists []. split; [reflexivity|]. simpl. rewrite Nat.sub_0_r, app_nil_r.
    destruct st; reflexivity.
  - apply Forall_app in Hm. destruct Hm as [Hm Hh].
    rewrite Forall_singleton in Hh.
    apply Forall_app in Hall. destruct Hall as [Hall Hemb].
    rewrite Forall_singleton in Hemb.
    rewrite length_app in HB. simpl in HB.
    destruct (IH ltac:(lia) Hm Hall) as (rows & Hrows & Hrun).
    pose proof (rmapM_length _ _ _ Hrows) as Hlrows.
    rewrite enumerate_snoc, foldM_app, Hrun, foldM_cons.
    unfold history_step at 1.
    match goal with
    | |- context [foldM (history_token self ?i) ?E' (enumerate h) ?st'] =>
        destruct (history_tokens_run i E'
                    (replicate m (zeros (embedding_dim self))) h st' Hemb)
          as (vs & Hvs & Hinner)
    end.
    { rewrite lookup_app_r by lia. rewrite Hlrows, Nat.sub_diag.
      apply lookup_replicate_2. lia. }
    { rewrite length_replicate. exact Hh. }
    rewrite Hinner. unfold foldM, mret, M_ret. cbn [column_cache calls].
    exists (rows ++ [vs ++ replicate (m - length h) (zeros (embedding_dim self))]).
    split.
    + rewrite rmapM_app, Hrows. simpl. unfold history_row at 1.
      rewrite Hvs. reflexivity.
    + rewrite drop_replicate.
      rewrite insert_app_r_alt by lia. rewrite Hlrows, Nat.sub_diag.
      rewrite length_app. simpl.
      destruct (B - length hs) as [|k] eqn:Hk; [lia|].
      replace (B - (length hs + 1)) with k by lia. simpl.
      rewrite <- (app_assoc rows). simpl.
      rewrite concat_app, map_app, concat_app, map_app. simpl.
      rewrite !app_nil_r, (app_assoc (calls st)). reflexivity.
Qed.

(** Whatever tensor it writes to, the inner loop returns when every
    phrase can be reduced and raises otherwise. *)
Lemma history_tokens_outcome (i : nat) (l : list (nat * string)) :
  forall (E : list (list (list R))) (st : mstate R),
  (Forall embeddable (map snd l) /\
   exists E' st', foldM (history_token self i) E l st = (Ok E', st')) \/
  (~ Forall embeddable (map snd l) /\
   (foldM (history_token self i) E l st).1 = Raise RuntimeError).
Proof.
  induction l as [|[j token] l IH]; intros E st.
  - left. split; [constructor|]. exists E, st. reflexivity.
  - rewrite foldM_cons.
    destruct (history_token_cases i j E token st)
      as [(Hemb & v & _ & _ & Hstep)|(Hnot & Hraise)].
    + rewrite Hstep.
      match goal with
      | |- context [foldM _ ?E' l ?st'] =>
          destruct (IH E' st') as [(Hall & E'' & st'' & Hrun)|(Hnall & Hrun)]
      end.
      * left. split; [constructor; assumption|]. eauto.
      * right. split; [|exact Hrun]. intros Hall. apply Hnall.
        inversion Hall; assumption.
    + right. split; [intros Hall; inversion Hall; contradiction|].
      destruct (history_token self i E (j, token) st) as [[E'|e] st'];
        simpl in Hraise; [discriminate|]. exact Hraise.
Qed.

Lemma history_steps_outcome (l : list (nat * list string)) :
  forall (E : list (list (list R))) (st : mstate R),
  (Forall (Forall embeddable) (map snd l) /\
   exists E' st', foldM (history_step self) E l st = (Ok E', st')) \/
  (~ Forall (Forall embeddable) (map snd l) /\
   (foldM (history_step self) E l st).1 = Raise RuntimeError).
Proof.
  induction l as [|[i history] l IH]; intros E st.
  - left. split; [constructor|]. exists E, st. reflexivity.
  - rewrite foldM_cons. unfold history_step at 1 3.
    destruct (history_tokens_outcome i (enumerate history) E st)
      as [(Hemb & E' & st' & Hstep)|(Hnot & Hraise)];
      rewrite snd_enumerate in *.
    + rewrite Hstep.
      destruct (IH E' st') as [(Hall & E'' & st'' & Hrun)|(Hnall & Hrun)].
      * left. split; [constructor; assumption|]. eauto.
      * right. split; [|exact Hrun]. intros Hall. apply Hnall.
        inversion Hall; assumption.
    + right. split; [intros Hall; inversion Hall; contradiction|].
      destruct (foldM (history_token self i) E (enumerate history) st)
        as [[E'|e] st']; simpl in Hraise; [discriminate|]. exact Hraise.
Qed.

End HistoryRun.

(** X2. For a non-empty batch of histories all of whose phrases can be
    reduced, [get_history_emb] returns the tensor whose row [i] holds
    the vectors of the phrases of history [i] followed by zero vectors
    up to the longest history, together with the lengths of the
    histories; the cache is left alone and the calls made are those of
    the sub-parts of the phrases, in order. *)
Theorem X2_get_history_emb_rows {R : Type} `{Scalar R} `{Tokenizer}
    (self : PretrainedEmbedding R) (histories : list (list string))
    (st : mstate R) :
  vocab_ok self -> weight_ok self ->
  histories <> [] ->
  Forall (Forall embeddable) histories ->
  let max_len := max_list (map length histories) in
  exists E,
    rmapM (history_row self max_len) histories = Ok E /\
    Forall (fun row => length row = max_len) E /\
    get_history_emb self histories st =
      (Ok (E, map length histories),
       Build_mstate (column_cache st)
         (calls st ++
          map mean_call (concat (map token_parts (concat histories))))).
Proof.
  intros Hok Hw Hne Hall max_len.
  assert (Hmax : Forall (fun h => length h <= max_len) histories).
  { apply Forall_forall. intros h Hh. apply max_list_elem_of_le.
    apply list_elem_of_fmap. exists h. split; [reflexivity|exact Hh]. }
  destruct (history_steps_run self Hok Hw (length histories) max_len histories st
              (le_n _) Hmax Hall) as (rows & Hrows & Hrun).
  exists rows. split; [exact Hrows|]. split.
  - apply Forall_forall. intros row Hrow.
    apply list_elem_of_lookup in Hrow. destruct Hrow as [i Hi].
    pose proof (rmapM_length _ _ _ Hrows) as Hlen.
    destruct (lookup_lt_is_Some_2 histories i) as [h Hh];
      [rewrite <- Hlen; apply lookup_lt_Some in Hi; exact Hi|].
    destruct (rmapM_lookup _ _ _ _ _ Hrows Hh) as (row' & Hrow' & Hrow_eq).
    assert (row' = row) by congruence. subst row'.
    unfold history_row in Hrow_eq.
    destruct (rmapM (token_vector self) h) as [vs|e] eqn:Hvs;
      cbn [mbind result_bind rbind] in Hrow_eq; [|discriminate].
    inversion Hrow_eq; subst row.
    rewrite length_app, length_replicate, (rmapM_length _ _ _ Hvs).
    rewrite Forall_forall in Hmax.
    pose proof (Hmax h (list_elem_of_lookup_2 _ _ _ Hh)). lia.
  - unfold get_history_emb. unfold mbind at 1, M_bind, lift.
    rewrite (py_max_ok (map length histories))
      by (destruct histories; [congruence|discriminate]).
    unfold mbind, M_bind. fold max_len. rewrite Hrun.
    rewrite Nat.sub_diag, app_nil_r. reflexivity.
Qed.

Lemma X2_get_history_emb_rows_witness :
  exists E : list (list (list Q)),
    rmapM (history_row SampleTable.tiny 2) [["a_b c"]; ["a"; "b"]] = Ok E /\
    Forall (fun row => length row = 2) E /\
    get_history_emb SampleTable.tiny [["a_b c"]; ["a"; "b"]] fresh =
      (Ok (E, [1; 2]),
       Build_mstate ∅
         (map mean_call ["a"; "b"; "c"; "a"; "b"])).
Proof.
  apply (X2_get_history_emb_rows SampleTable.tiny [["a_b c"]; ["a"; "b"]] fresh
           tiny_vocab_ok tiny_weight_ok).
  - discriminate.
  - repeat constructor; discriminate.
Defined.

(** X3. [get_history_emb] raises a [ValueError] on an empty batch, on
    any table, before any call and without touching the state. Over a
    vocabulary within its weight matrix it raises a [RuntimeError] on
    a batch that is not empty in which some phrase has no word or has
    a word without a sub-part. *)
Theorem X3_get_history_emb_raises {R : Type} `{Scalar R} `{Tokenizer}
    (self : PretrainedEmbedding R) (st : mstate R) :
  get_history_emb self [] st = (Raise ValueError, st) /\
  (vocab_ok self -> weight_ok self ->
   forall histories : list (list string),
     histories <> [] ->
     ~ Forall (Forall embeddable) histories ->
     (get_history_emb self histories st).1 = Raise RuntimeError).
Proof.
  split; [reflexivity|].
  intros Hok Hw histories Hne Hnot.
  unfold get_history_emb. unfold mbind at 1, M_bind, lift.
  rewrite (py_max_ok (map length histories))
    by (destruct histories; [congruence|discriminate]).
  unfold mbind, M_bind.
  match goal with
  | |- context [foldM _ ?E (enumerate histories) st] =>
      destruct (history_steps_outcome self Hok Hw (enumerate histories) E st)
        as [(Hall & _)|(_ & Hraise)]
  end.
  - rewrite snd_enumerate in Hall. contradiction.
  - destruct (foldM _ _ (enumerate histories) st) as [[E'|e] st'];
      simpl in Hraise; [discriminate|]. simpl. congruence.
Qed.

Lemma X3_get_history_emb_raises_witness :
  get_history_emb SampleTable.tiny [] (fresh (R := Q)) =
    (Raise ValueError, fresh) /\
  (get_history_emb SampleTable.tiny [["a"]; ["b"; "_"]] (fresh (R := Q))).1 =
    Raise RuntimeError.
Proof.
  destruct (X3_get_history_emb_raises SampleTable.tiny fresh)
    as [Hempty Hbad].
  split; [exact Hempty|].
  apply (Hbad tiny_vocab_ok tiny_weight_ok); [discriminate|].
  intros Hall. inversion Hall as [|? ? _ Hrest]; subst.
  inversion Hrest as [|? ? Hrow _]; subst.
  inversion Hrow as [|? ? _ Hrow2]; subst.
  inversion Hrow2 as [|? ? [_ Hemb] _]; subst.
  inversion Hemb as [|? ? Hbad' _]; subst. apply Hbad'. reflexivity.
Defined.

(** ** [forward] *)

Lemma rmapM_all_or_raise {A B} (P : A -> Prop) (f : A -> result B)
    (g : A -> B) (e : exn) (l : list A) :
  (forall x, x ∈ l -> P x -> f x = Ok (g x)) ->
  (forall x, x ∈ l -> ~ P x -> f x = Raise e) ->
  (forall x, x ∈ l -> P x \/ ~ P x) ->
  (Forall P l /\ rmapM f l = Ok (map g l)) \/
  (~ Forall P l /\ rmapM f l = Raise e).
Proof.
  induction l as [|x l IH]; intros Hyes Hno Hdec.
  - left. split; [constructor|reflexivity].
  - simpl. destruct (Hdec x (list_elem_of_here _ _)) as [Hx|Hx].
    + rewrite (Hyes x (list_elem_of_here _ _) Hx). simpl.
      destruct IH as [(Hall & ->)|(Hnall & ->)].
      * intros y Hy. apply Hyes. right. exact Hy.
      * intros y Hy. apply Hno. right. exact Hy.
      * intros y Hy. apply Hdec. right. exact Hy.
      * left. split; [constructor; assumption|reflexivity].
      * right. split; [|reflexivity]. intros Hall. apply Hnall.
        inversion Hall; assumption.
    + rewrite (Hno x (list_elem_of_here _ _) Hx). simpl.
      right. split; [|reflexivity]. intros Hall. inversion Hall; contradiction.
Qed.

Section ForwardMore.
Context {R : Type} `{Scalar R} `{Tokenizer}.
Variable self : PretrainedEmbedding R.

Lemma embedding_outcome (indicies : list (list nat)) :
  (rows_exist self indicies /\
   embedding self indicies =
     Ok (map (map (fun idx => weight self !!! idx)) indicies)) \/
  (~ rows_exist self indicies /\ embedding self indicies = Raise IndexError).
Proof.
  unfold embedding, rows_exist.
  apply rmapM_all_or_raise.
  - intros row _ Hrow. apply rmapM_map_Ok. intros idx Hidx.
    rewrite Forall_forall in Hrow.
    destruct (lookup_lt_is_Some_2 _ _ (Hrow idx Hidx)) as [v Hv].
    rewrite Hv. f_equal. symmetry. apply list_lookup_total_correct. exact Hv.
  - intros row _ Hrow.
    match goal with
    | |- rmapM ?f row = _ =>
        destruct (rmapM_all_or_raise
                    (fun idx => idx < length (weight self)) f
                    (fun idx => weight self !!! idx) IndexError row)
          as [(Hall & _)|(_ & Hraise)]
    end.
    + intros idx _ Hidx.
      destruct (lookup_lt_is_Some_2 _ _ Hidx) as [v Hv].
      rewrite Hv. f_equal. symmetry. apply list_lookup_total_correct. exact Hv.
    + intros idx _ Hidx.
      rewrite (lookup_ge_None_2 (weight self) idx) by lia. reflexivity.
    + intros idx _. destruct (decide (idx < length (weight self))); auto.
    + contradiction.
    + exact Hraise.
  - intros row _.
    destruct (decide (Forall (fun idx => idx < length (weight self)) row)); auto.
Qed.

(** [forward] up to the lookup, for a batch that is not empty. *)
Lemma forward_lookup (sentences : list string) (mean_sequence : bool) :
  sentences <> [] ->
  forward self (StrList sentences) mean_sequence =
  (word_embeddings ←
     embedding self
       (padded_indices self (max_list (map length (tokens_of sentences)))
          (tokens_of sentences));
   if mean_sequence then
     t ← tensor_div (embedding_dim self)
           (map (vsum (embedding_dim self)) word_embeddings)
           (map sof_nat (map length (tokens_of sentences)));
     Ok (Rank2 t, map length (tokens_of sentences))
   else Ok (Rank3 word_embeddings, map length (tokens_of sentences))).
Proof.
  intros Hne. unfold forward, tokens_of. simpl.
  destruct sentences as [|s sentences]; [congruence|].
  set (sw := map word_tokenize (map lower (s :: sentences))).
  assert (Hmax : Py.max (map length sw) = Ok (max_list (map length sw)))
    by reflexivity.
  rewrite Hmax. cbn [mbind result_bind rbind].
  replace (length (map lower (s :: sentences))) with (length sw)
    by (unfold sw; rewrite !length_map; reflexivity).
  rewrite fill_indicies_padded. reflexivity.
Qed.

End ForwardMore.

(** X4. On any table, [forward] on an empty list raises a [ValueError];
    on a batch that is not empty it raises an [IndexError], with or
    without the mean, exactly when one of the indices it looks up (that
    of a word, or the padding index 0) has no row in the weight, and
    without the mean it otherwise returns the rows of these indices. *)
Theorem X4_forward_index_error {R : Type} `{Scalar R} `{Tokenizer}
    (self : PretrainedEmbedding R) (sentences : list string) :
  let indicies :=
    padded_indices self (max_list (map length (tokens_of sentences)))
      (tokens_of sentences) in
  (forall mean_sequence,
     forward self (StrList []) mean_sequence = Raise ValueError) /\
  (sentences <> [] -> rows_exist self indicies ->
   forward self (StrList sentences) false =
     Ok (Rank3 (map (map (fun idx => weight self !!! idx)) indicies),
         map length (tokens_of sentences))) /\
  (sentences <> [] -> ~ rows_exist self indicies ->
   forall mean_sequence,
     forward self (StrList sentences) mean_sequence = Raise IndexError).
Proof.
  intros indicies. split; [reflexivity|].
  destruct (embedding_outcome self indicies) as [(Hall & Hemb)|(Hnall & Hemb)].
  - split; [|intros _ Hnall; contradiction].
    intros Hne _. rewrite forward_lookup by exact Hne.
    fold indicies. rewrite Hemb. reflexivity.
  - split; [intros _ Hall; contradiction|].
    intros Hne _ ms. rewrite forward_lookup by exact Hne.
    fold indicies. rewrite Hemb. reflexivity.
Qed.

Lemma X4_forward_index_error_witness :
  forward SampleTable.tiny (StrList ["a b"; "zebra"]) false =
    Ok (Rank3 [[[1; 2]; [3; 4]]; [[0; 0]; [0; 0]]]%Q, [2; 1]) /\
  forall mean_sequence,
    forward SampleShifted.shifted (StrList ["a cat"]) mean_sequence =
      Raise IndexError.
Proof.
  split.
  - pose proof (X4_forward_index_error SampleTable.tiny ["a b"; "zebra"]) as Hx.
    cbv zeta in Hx. destruct Hx as (_ & Hyes & _).
    apply Hyes; [discriminate|].
    repeat constructor.
  - pose proof (X4_forward_index_error SampleShifted.shifted ["a cat"]) as Hx.
    cbv zeta in Hx. destruct Hx as (_ & _ & Hno).
    apply Hno; [discriminate|].
    intros Hall. inversion Hall as [|? ? Hrow _]; subst.
    inversion Hrow as [|? ? _ Hrest]; subst.
    inversion Hrest as [|? ? Hbad _]; subst.
    vm_compute in Hbad. lia.
Defined.

(** X5. With [mean_sequence] on and a batch of two or more sentences,
    [forward] divides the [batch] by [embedding_dim] tensor of sums by
    the vector of the lengths along the last dimension: it raises a
    [RuntimeError] when the batch size differs from the embedding
    dimension, and when the two are equal it divides entry [k] of every
    row by the length of sentence [k]. *)
Theorem X5_forward_mean_batch {R : Type} `{Scalar R} `{Tokenizer}
    (self : PretrainedEmbedding R) (sentences : list string) :
  vocab_ok self -> 2 <= length sentences -> embedding_dim self <> 1 ->
  let lenghts := map length (tokens_of sentences) in
  let indicies :=
    padded_indices self (max_list lenghts) (tokens_of sentences) in
  (embedding_dim self <> length sentences ->
   forward self (StrList sentences) true = Raise RuntimeError) /\
  (embedding_dim self = length sentences ->
   forward self (StrList sentences) true =
     Ok (Rank2
           (map (fun row =>
                   zip_with sdiv
                     (vsum (embedding_dim self)
                        (map (fun idx => weight self !!! idx) row))
                     (map sof_nat lenghts))
                indicies),
         lenghts)).
Proof.
  intros Hok Hlen Hdim lenghts indicies. split.
  - intros Hne. apply forward_mean_batch_raises; assumption.
  - intros Heq.
    rewrite forward_mean;
      [|exact Hok|destruct sentences; simpl in Hlen; [lia|discriminate]].
    fold lenghts. fold indicies.
    assert (Hl : length (map sof_nat lenghts) = embedding_dim self).
    { unfold lenghts, tokens_of. rewrite !length_map. congruence. }
    unfold tensor_div.
    destruct (map sof_nat lenghts) as [|d0 [|d1 d]] eqn:Hd.
    + simpl in Hl. lia.
    + simpl in Hl. lia.
    + rewrite (proj2 (Nat.eqb_eq _ _) Hl). cbn [mbind result_bind rbind].
      rewrite !map_map. reflexivity.
Qed.

Lemma X5_forward_mean_batch_witness :
  forward SampleTable.tiny (StrList ["a"; "b"; "a"]) true = Raise RuntimeError /\
  forward SampleTable.tiny (StrList ["a b"; "b"]) true =
    Ok (Rank2 [[4 / 2; 6 / 1]; [3 / 2; 4 / 1]]%Q, [2; 1]).
Proof.
  split.
  - pose proof (X5_forward_mean_batch SampleTable.tiny ["a"; "b"; "a"]
                  tiny_vocab_ok) as Hx.
    cbv zeta in Hx. destruct Hx as (Hraise & _);
      [simpl; lia|simpl; lia|]. apply Hraise. simpl. lia.
  - pose proof (X5_forward_mean_batch SampleTable.tiny ["a b"; "b"]
                  tiny_vocab_ok) as Hx.
    cbv zeta in Hx. destruct Hx as (_ & Hsquare);
      [simpl; lia|simpl; lia|].
    rewrite Hsquare by reflexivity. vm_compute. reflexivity.
Defined.

(** ** [get_columns_emb] *)

Section ColumnsMore.
Context {R : Type} `{Scalar R} `{Tokenizer}.
Variable self : PretrainedEmbedding R.

Lemma py_max_nil_raise : Py.max [] = Raise ValueError.
Proof. reflexivity. Qed.

Lemma rmapM_py_max_raise (ls : list (list nat)) :
  [] ∈ ls -> rmapM Py.max ls = Raise ValueError.
Proof.
  induction ls as [|l ls IH]; intros Hin.
  - inversion Hin.
  - simpl. destruct l as [|n l]; [reflexivity|].
    apply elem_of_cons in Hin as [Hin|Hin]; [discriminate|].
    cbn [Py.max mbind result_bind rbind]. rewrite (IH Hin). reflexivity.
Qed.

(** An embedding call records itself and leaves the cache alone,
    whether the column can be stored or not. *)
Lemma column_step_cache (m2 i : nat) (acc : col_acc) (jc : nat * string)
    (st : mstate R) :
  column_cache (column_step self m2 i acc jc st).2 = column_cache st.
Proof.
  destruct acc as [E C], jc as [j c]. unfold column_step.
  unfold mbind, M_bind, call, lift, mret, M_ret.
  destruct (forward self (Str c) false) as [[emb lens]|e]; [|reflexivity].
  destruct emb as [t|[|rows [|r t]]]; try reflexivity.
  destruct (assign_rows _ _ _ _) as [dst|e]; reflexivity.
Qed.

Lemma column_loop_cache (m2 i : nat) (l : list (nat * string)) :
  forall (acc : col_acc) (st : mstate R),
  column_cache (foldM (column_step self m2 i) acc l st).2 = column_cache st.
Proof.
  induction l as [|jc l IH]; intros acc st; [reflexivity|].
  rewrite foldM_cons.
  pose proof (column_step_cache m2 i acc jc st) as Hstep.
  destruct (column_step self m2 i acc jc st) as [[acc'|e] st'];
    simpl in Hstep; [|exact Hstep].
  rewrite IH. exact Hstep.
Qed.

Lemma db_step_raise_cache (m1 m2 : nat) (acc : col_acc)
    (idb : nat * list string) (st st' : mstate R) (e : exn) :
  db_step self m1 m2 acc idb st = (Raise e, st') ->
  column_cache st' = column_cache st.
Proof.
  destruct idb as [i db]. unfold db_step.
  destruct (column_cache st !! db) as [entry|]; [discriminate|].
  pose proof (column_loop_cache m2 i (enumerate db) acc st) as Hloop.
  destruct (foldM _ acc (enumerate db) st) as [[[E C]|e'] st1];
    [discriminate|].
  intros Heq. inversion Heq; subst. exact Hloop.
Qed.

Lemma cache_grown_app (dbs more : list (list string)) c0 c1 :
  cache_grown self dbs c0 c1 -> cache_grown self (dbs ++ more) c0 c1.
Proof.
  intros (Hok & Hkeep & Hkeys & Hoff).
  split; [exact Hok|split; [exact Hkeep|split; [|exact Hoff]]].
  intros key Hkey. destruct (Hkeys key Hkey) as [Hold|Hnew]; [left; exact Hold|].
  right. apply elem_of_app. left. exact Hnew.
Qed.

(** The loop over the batch, whatever its outcome. *)
Lemma db_loop_cache (m1 m2 b : nat) (dbs : list (list string)) (st0 : mstate R) :
  1 <= m1 -> length dbs <= b -> cache_ok st0 ->
  cache_grown self dbs (column_cache st0)
    (column_cache
       (foldM (db_step self m1 m2)
          (replicate b (zero_row m1 m2 (embedding_dim self)),
           replicate b (zero_lens m1))
          (enumerate dbs) st0).2).
Proof.
  intros Hm1 Hb Hok0. induction dbs as [|db dbs IH] using rev_ind.
  - simpl. split; [exact Hok0|split; [auto|split; [|auto]]].
    intros key Hkey. left. exact Hkey.
  - rewrite length_app in Hb. simpl in Hb.
    specialize (IH ltac:(lia)).
    rewrite enumerate_snoc, foldM_app.
    destruct (foldM _ _ (enumerate dbs) st0) as [[[E C]|e] st1] eqn:Hrun;
      simpl in IH; [|apply cache_grown_app; exact IH].
    pose proof (db_loop_inv self m1 m2 b dbs st0 st1 E C ltac:(lia) Hrun)
      as (HlE & HlC & Hzero & _).
    destruct (Hzero (length dbs) (le_n _) ltac:(lia)) as [HEi HCi].
    rewrite foldM_cons.
    destruct (db_step self m1 m2 (E, C) (length dbs, db) st1)
      as [[[E' C']|e] st2] eqn:Hstep.
    + cbn [foldM mret M_ret snd].
      destruct (db_step_spec self m1 m2 (length dbs) db E E' C C' st1 st2)
        as (row & lens & _ & _ & Hcase); try lia.
      { apply list_lookup_total_correct. exact HEi. }
      { apply list_lookup_total_correct. exact HCi. }
      { exact Hstep. }
      destruct (column_cache st1 !! db) as [entry|] eqn:Hdb.
      * destruct Hcase as (-> & _). apply cache_grown_app. exact IH.
      * destruct Hcase as (_ & Hcache & Hlrow & Hrows & Hllens & _).
        rewrite Hcache. destruct (use_column_cache self) eqn:Huc;
          [|apply cache_grown_app; exact IH].
        destruct IH as (Hok1 & Hkeep & Hkeys & _).
        split; [|split; [|split; [|intros Hf; congruence]]].
        -- apply map_Forall_insert_2; [|exact Hok1].
           unfold entry_ok. simpl. split; [|split].
           ++ destruct row; simpl in Hlrow; [lia|discriminate].
           ++ unfold rectangular.
              destruct row as [|r row]; [constructor|]. simpl.
              pose proof (Forall_inv Hrows) as Hr. simpl in Hr. rewrite Hr.
              exact Hrows.
           ++ congruence.
        -- intros key e Hkey. rewrite lookup_insert_ne; [apply Hkeep, Hkey|].
           intros <-. rewrite (Hkeep _ _ Hkey) in Hdb. discriminate.
        -- intros key Hkey. destruct (decide (key = db)) as [->|Hne].
           ++ right. apply elem_of_app. right. left.
           ++ rewrite lookup_insert_ne in Hkey by congruence.
              destruct (Hkeys key Hkey) as [Hold|Hnew]; [left; exact Hold|].
              right. apply elem_of_app. left. exact Hnew.
    + cbn [snd]. rewrite (db_step_raise_cache _ _ _ _ _ _ _ Hstep).
      apply cache_grown_app. exact IH.
Qed.

Lemma columns_precheck (columns : list (list (list string))) (st : mstate R) :
  columns = [] \/ [] ∈ columns ->
  get_columns_emb self columns st = (Raise ValueError, st).
Proof.
  intros [->|Hin]; [reflexivity|].
  unfold get_columns_emb. unfold mbind at 1, M_bind, lift.
  rewrite py_max_ok by (destruct columns; [inversion Hin|discriminate]).
  unfold mbind at 1, M_bind.
  rewrite rmapM_py_max_raise; [reflexivity|].
  unfold columns_joined. rewrite map_map.
  apply list_elem_of_fmap. exists []. split; [reflexivity|exact Hin].
Qed.

(** The whole call, whatever its outcome. *)
Lemma columns_cache_grown (columns : list (list (list string))) (st : mstate R) :
  cache_ok st ->
  cache_grown self (columns_joined columns) (column_cache st)
    (column_cache (get_columns_emb self columns st).2).
Proof.
  intros Hok.
  set (st' := (get_columns_emb self columns st).2).
  assert (Hsame : st' = st \/
            (columns <> [] /\ Forall (fun db => db <> []) columns)).
  { destruct (decide (columns = [])) as [Hnil|Hne].
    - left. unfold st'. rewrite columns_precheck by (left; exact Hnil).
      reflexivity.
    - destruct (decide ([] ∈ columns)) as [Hin|Hnin].
      + left. unfold st'. rewrite columns_precheck by (right; exact Hin).
        reflexivity.
      + right. split; [exact Hne|].
        apply Forall_forall. intros db Hdb ->. contradiction. }
  destruct Hsame as [->|[Hne Hdbs]].
  - split; [exact Hok|split; [auto|split; [|auto]]].
    intros key Hkey. left. exact Hkey.
  - unfold st'. rewrite get_columns_emb_run by assumption.
    assert (Hm1 : 1 <= max_columns columns).
    { destruct columns as [|db columns']; [congruence|].
      pose proof (Forall_inv Hdbs) as Hdb. simpl in Hdb.
      unfold max_columns. simpl. destruct db; [congruence|]. simpl. lia. }
    pose proof (db_loop_cache (max_columns columns) (max_tokens columns)
                  (length columns) (columns_joined columns) st Hm1
                  ltac:(rewrite length_columns_joined; lia) Hok) as Hgrown.
    destruct (foldM _ _ (enumerate (columns_joined columns)) st)
      as [[[E C]|e] st1]; exact Hgrown.
Qed.

End ColumnsMore.

Lemma cached_a_ok : cache_ok SampleTable.cached_a.
Proof.
  apply (columns_cache_grown SampleTable.tiny [[["a"]]] fresh).
  apply map_Forall_empty.
Qed.

(** X6. [get_columns_emb] raises a [ValueError] on an empty batch and
    on a batch that holds a schema without columns; it does so before
    any embedding call, and the cache and the record of calls are as
    before. *)
Theorem X6_columns_empty_raises {R : Type} `{Scalar R} `{Tokenizer}
    (self : PretrainedEmbedding R) (columns : list (list (list string)))
    (st : mstate R) :
  columns = [] \/ [] ∈ columns ->
  get_columns_emb self columns st = (Raise ValueError, st).
Proof. apply columns_precheck. Qed.

Lemma X6_columns_empty_raises_witness :
  get_columns_emb SampleTable.tiny [[["a"]]; []] SampleTable.cached_a =
    (Raise ValueError, SampleTable.cached_a).
Proof.
  apply X6_columns_empty_raises. right. right. left.
Defined.

(** X7. Whatever its outcome, a call of [get_columns_emb] on a
    well-formed cache leaves a well-formed cache: every entry holds a
    tensor with at least one row, rows of one length, and one count
    per row. The entries present before the call are kept as they
    are, every new key is a schema of the batch, and with caching off
    the cache does not change. *)
Theorem X7_columns_cache_kept {R : Type} `{Scalar R} `{Tokenizer}
    (self : PretrainedEmbedding R) (columns : list (list (list string)))
    (st : mstate R) :
  cache_ok st ->
  let st' := (get_columns_emb self columns st).2 in
  cache_ok st' /\
  (forall key e, column_cache st !! key = Some e ->
     column_cache st' !! key = Some e) /\
  (forall key, is_Some (column_cache st' !! key) ->
     is_Some (column_cache st !! key) \/ key ∈ columns_joined columns) /\
  (use_column_cache self = false -> column_cache st' = column_cache st).
Proof.
  intros Hok st'. exact (columns_cache_grown self columns st Hok).
Qed.

Lemma X7_columns_cache_kept_witness :
  let st' := (get_columns_emb SampleTable.tiny [[["a"]]; [["b"]; ["a b"]]]
                SampleTable.cached_a).2 in
  cache_ok st' /\
  (forall key e, column_cache SampleTable.cached_a !! key = Some e ->
     column_cache st' !! key = Some e) /\
  (forall key, is_Some (column_cache st' !! key) ->
     is_Some (column_cache SampleTable.cached_a !! key) \/
     key ∈ [["a"]; ["b"; "a b"]]) /\
  (use_column_cache SampleTable.tiny = false ->
   column_cache st' = column_cache SampleTable.cached_a).
Proof.
  exact (X7_columns_cache_kept SampleTable.tiny [[["a"]]; [["b"]; ["a b"]]]
           SampleTable.cached_a cached_a_ok).
Defined.

Lemma insert_snoc_replicate {A} (vs : list A) (x z : A) (k b : nat) :
  length vs = k -> k < b ->
  <[k := x]> (vs ++ replicate (b - k) z) = (vs ++ [x]) ++ replicate (b - S k) z.
Proof.
  intros Hk Hb.
  rewrite <- (drop_replicate k b z), <- (drop_replicate (S k) b z).
  apply insert_snoc_drop; [exact Hk|rewrite length_replicate; exact Hb].
Qed.

Section ColumnsRun.
Context {R : Type} `{Scalar R} `{Tokenizer}.
Variable self : PretrainedEmbedding R.
Hypothesis Hok : vocab_ok self.

(** One string without the mean: the rows of its tokens. *)
Lemma forward_single_seq (c : string) :
  forward self (Str c) false =
  Ok (Rank3 [map (fun w => weight self !!! index_of self w)
                 (word_tokenize (lower c))],
      [length (word_tokenize (lower c))]).
Proof.
  change (forward self (Str c) false)
    with (forward self (StrList [c]) false).
  rewrite forward_seq by (exact Hok || discriminate).
  unfold tokens_of, padded_indices. cbn [map].
  replace (max_list [length (word_tokenize (lower c))])
    with (length (word_tokenize (lower c)))
    by (cbn; unfold id; lia).
  rewrite Nat.sub_diag. cbn [replicate]. rewrite app_nil_r, map_map.
  reflexivity.
Qed.

(** One column that fits the padded size. *)
Lemma column_step_run (m2 i j : nat) (c : string)
    (E : list (list (list (list R)))) (C : list (list nat)) (st : mstate R) :
  length (word_tokenize (lower c)) <= m2 ->
  column_step self m2 i (E, C) (j, c) st =
  (Ok (<[i := <[j := map (fun w => weight self !!! index_of self w)
                        (word_tokenize (lower c)) ++
                      drop (length (word_tokenize (lower c)))
                           ((E !!! i) !!! j)]> (E !!! i)]> E,
       <[i := <[j := length (word_tokenize (lower c))]> (C !!! i)]> C),
   Build_mstate (column_cache st) (calls st ++ [(Str c, false)])).
Proof.
  intros HL. unfold column_step.
  unfold mbind, M_bind, call, lift, mret, M_ret.
  rewrite forward_single_seq. cbn [hd].
  unfold assign_rows. rewrite (proj2 (Nat.leb_le _ _) HL).
  unfold Py.slice_assign. rewrite take_ge by (rewrite length_map; lia).
  reflexivity.
Qed.

(** The loop over the columns of one schema, on a row of zeros. *)
Lemma column_loop_run (m1 m2 i : nat) (cols : list string)
    (E : list (list (list (list R)))) (C : list (list nat)) (st : mstate R) :
  E !! i = Some (zero_row m1 m2 (embedding_dim self)) ->
  C !! i = Some (zero_lens m1) ->
  length cols <= m1 ->
  Forall (fun c => length (word_tokenize (lower c)) <= m2) cols ->
  foldM (column_step self m2 i) (E, C) (enumerate cols) st =
  (Ok (<[i := map (column_rows self m2) cols ++
              drop (length cols) (zero_row m1 m2 (embedding_dim self))]> E,
       <[i := map (fun c => length (word_tokenize (lower c))) cols ++
              drop (length cols) (zero_lens m1)]> C),
   Build_mstate (column_cache st)
     (calls st ++ map (fun c => (Str c, false)) cols)).
Proof.
  intros HE HC. induction cols as [|c cols IH] using rev_ind; intros Hlen Hfit.
  - simpl. rewrite !drop_0, !list_insert_id by assumption.
    rewrite app_nil_r. destruct st; reflexivity.
  - rewrite length_app in Hlen. simpl in Hlen.
    apply Forall_app in Hfit. destruct Hfit as [Hfit Hc].
    rewrite Forall_singleton in Hc.
    rewrite enumerate_snoc, foldM_app, (IH ltac:(lia) Hfit), foldM_cons.
    rewrite column_step_run by exact Hc.
    cbn [foldM mret M_ret column_cache calls]. unfold mret, M_ret.
    pose proof (lookup_lt_Some _ _ _ HE) as HiE.
    pose proof (lookup_lt_Some _ _ _ HC) as HiC.
    rewrite !list_lookup_total_insert_eq by assumption.
    rewrite !list_insert_insert_eq.
    assert (Hcell :
      (map (column_rows self m2) cols ++
       drop (length cols) (zero_row m1 m2 (embedding_dim self)))
        !!! length cols = replicate m2 (zeros (embedding_dim self))).
    { apply list_lookup_total_correct.
      rewrite lookup_app_r by (rewrite length_map; lia).
      rewrite length_map, Nat.sub_diag, lookup_drop, Nat.add_0_r.
      apply lookup_replicate_2. lia. }
    rewrite Hcell. rewrite drop_replicate.
    rewrite !insert_snoc_drop
      by (rewrite ?length_map; unfold zero_row, zero_lens;
          rewrite ?length_replicate; lia).
    rewrite !map_app, length_app. simpl.
    replace (length cols + 1) with (S (length cols)) by lia.
    rewrite (app_assoc (calls st)). reflexivity.
Qed.

Lemma miss_shapes (m1 m2 : nat) (db : list string) :
  length db <= m1 ->
  Forall (fun c => length (word_tokenize (lower c)) <= m2) db ->
  length (miss_emb self m1 m2 db) = m1 /\
  Forall (fun r => length r = m2) (miss_emb self m1 m2 db) /\
  length (miss_lens m1 db) = m1 /\
  Forall (fun l => l <= m2) (miss_lens m1 db).
Proof.
  intros Hlen Hfit. unfold miss_emb, miss_lens. repeat split.
  - rewrite length_app, length_map, length_replicate. lia.
  - apply Forall_app. split.
    + apply Forall_forall. intros r Hr. to_fmap.
      apply list_elem_of_fmap in Hr as (c & -> & Hc).
      rewrite Forall_forall in Hfit. specialize (Hfit c Hc).
      unfold column_rows.
      rewrite length_app, length_map, length_replicate. lia.
    + apply Forall_replicate. apply length_replicate.
  - rewrite length_app, length_map, length_replicate. lia.
  - apply Forall_app. split.
    + apply Forall_forall. intros l Hl. to_fmap.
      apply list_elem_of_fmap in Hl as (c & -> & Hc).
      rewrite Forall_forall in Hfit. exact (Hfit c Hc).
    + apply Forall_replicate. lia.
Qed.

Lemma embedded_dbs_snoc (st : mstate R) (l : list (list string))
    (db : list string) :
  forall seen,
  embedded_dbs self st seen (l ++ [db]) =
  embedded_dbs self st seen l ++
  match column_cache st !! db with
  | Some _ => []
  | None =>
      if use_column_cache self && bool_decide (db ∈ l ++ seen) then []
      else [db]
  end.
Proof.
  induction l as [|x l IH]; intros seen.
  - simpl. rewrite app_nil_r. reflexivity.
  - simpl. rewrite IH, <- app_assoc. do 2 f_equal.
    destruct (column_cache st !! db); [reflexivity|].
    rewrite (bool_decide_ext (db ∈ l ++ x :: seen) (db ∈ x :: l ++ seen));
      [reflexivity|].
    rewrite !elem_of_app, !elem_of_cons, elem_of_app. tauto.
Qed.

(** The loop over the batch, in closed form. *)
Lemma db_loop_run (m1 m2 b : nat) (dbs : list (list string)) (st0 : mstate R) :
  length dbs <= b ->
  Forall (fun db => length db <= m1) dbs ->
  counts_fit m2 dbs ->
  exists st',
    foldM (db_step self m1 m2)
      (replicate b (zero_row m1 m2 (embedding_dim self)),
       replicate b (zero_lens m1))
      (enumerate dbs) st0 =
      (Ok (map (db_emb self m1 m2 st0) dbs ++
           replicate (b - length dbs) (zero_row m1 m2 (embedding_dim self)),
           map (db_lens m1 m2 st0) dbs ++
           replicate (b - length dbs) (zero_lens m1)),
       st') /\
    (forall key,
       column_cache st' !! key =
       match column_cache st0 !! key with
       | Some e => Some e
       | None =>
           if use_column_cache self && bool_decide (key ∈ dbs)
           then Some (miss_emb self m1 m2 key, miss_lens m1 key)
           else None
       end) /\
    calls st' =
      calls st0 ++
      concat (map (map (fun c => (Str c, false)))
                  (embedded_dbs self st0 [] dbs)).
Proof.
  induction dbs as [|db dbs IH] using rev_ind; intros Hb Hm1 Hfit.
  - exists st0. simpl. rewrite Nat.sub_0_r, app_nil_r.
    split; [reflexivity|]. split; [|reflexivity].
    intros key. rewrite andb_false_r.
    destruct (column_cache st0 !! key); reflexivity.
  - rewrite length_app in Hb. simpl in Hb.
    apply Forall_app in Hm1. destruct Hm1 as [Hm1 Hdb].
    rewrite Forall_singleton in Hdb.
    assert (Hfit' : counts_fit m2 dbs).
    { intros d c Hd. apply Hfit, elem_of_app. left. exact Hd. }
    assert (Hfitdb : Forall (fun c => length (word_tokenize (lower c)) <= m2) db).
    { apply Forall_forall. intros c Hc.
      apply (Hfit db c); [|exact Hc]. apply elem_of_app. right. left. }
    destruct (IH ltac:(lia) Hm1 Hfit') as (st1 & Hrun & Hcache & Hcalls).
    destruct (miss_shapes m1 m2 db Hdb Hfitdb) as (Hs1 & Hs2 & Hs3 & Hs4).
    rewrite enumerate_snoc, foldM_app, Hrun, foldM_cons.
    set (E1 := map (db_emb self m1 m2 st0) dbs ++
               replicate (b - length dbs) (zero_row m1 m2 (embedding_dim self))).
    set (C1 := map (db_lens m1 m2 st0) dbs ++
               replicate (b - length dbs) (zero_lens m1)).
    assert (HE1 : E1 !! length dbs = Some (zero_row m1 m2 (embedding_dim self))).
    { unfold E1. rewrite lookup_app_r by (rewrite length_map; lia).
      rewrite length_map, Nat.sub_diag. apply lookup_replicate_2. lia. }
    assert (HC1 : C1 !! length dbs = Some (zero_lens m1)).
    { unfold C1. rewrite lookup_app_r by (rewrite length_map; lia).
      rewrite length_map, Nat.sub_diag. apply lookup_replicate_2. lia. }
    assert (Hins : forall x y,
      (<[length dbs := x]> E1, <[length dbs := y]> C1) =
      (map (db_emb self m1 m2 st0) dbs ++ [x] ++
       replicate (b - (length dbs + 1)) (zero_row m1 m2 (embedding_dim self)),
       map (db_lens m1 m2 st0) dbs ++ [y] ++
       replicate (b - (length dbs + 1)) (zero_lens m1))).
    { intros x y. unfold E1, C1.
      rewrite !insert_snoc_replicate by (rewrite ?length_map; lia).
      replace (length dbs + 1) with (S (length dbs)) by lia.
      rewrite <- !app_assoc. reflexivity. }
    assert (Hgoal : forall x y (st2 : mstate R),
      x = db_emb self m1 m2 st0 db -> y = db_lens m1 m2 st0 db ->
      (Ok (<[length dbs := x]> E1, <[length dbs := y]> C1), st2) =
      (Ok (map (db_emb self m1 m2 st0) (dbs ++ [db]) ++
           replicate (b - length (dbs ++ [db]))
                     (zero_row m1 m2 (embedding_dim self)),
           map (db_lens m1 m2 st0) (dbs ++ [db]) ++
           replicate (b - length (dbs ++ [db])) (zero_lens m1)), st2)).
    { intros x y st2 -> ->. rewrite Hins, !map_app, length_app.
      simpl. rewrite <- !app_assoc. reflexivity. }
    rewrite embedded_dbs_snoc, (app_nil_r dbs).
    unfold db_step. rewrite (Hcache db).
    unfold db_emb, db_lens in Hgoal.
    destruct (column_cache st0 !! db) as [[cemb clens]|] eqn:Hdb0.
    + (* in the cache from the start *)
      exists st1. cbn [foldM]. unfold mret, M_ret.
      unfold cache_hit.
      rewrite (list_lookup_total_correct _ _ _ HE1),
              (list_lookup_total_correct _ _ _ HC1).
      split; [apply Hgoal; reflexivity|]. split.
      * intros key. rewrite (Hcache key).
        destruct (column_cache st0 !! key) eqn:Hkey; [reflexivity|].
        rewrite (bool_decide_ext (key ∈ dbs ++ [db]) (key ∈ dbs));
          [reflexivity|].
        rewrite elem_of_app, list_elem_of_singleton.
        split; [intros [Hin| ->]; [exact Hin|congruence]|auto].
      * rewrite (app_nil_r (embedded_dbs self st0 [] dbs)). exact Hcalls.
    + destruct (use_column_cache self) eqn:Huc; cbn [andb].
      * destruct (bool_decide (db ∈ dbs)) eqn:Hseen.
        -- (* stored earlier in this call *)
           exists st1. cbn [foldM]. unfold mret, M_ret. unfold cache_hit.
           rewrite (list_lookup_total_correct _ _ _ HE1),
                   (list_lookup_total_correct _ _ _ HC1).
           destruct (hit_fresh_id self m1 m2 _ _ Hs1 Hs2 Hs3 Hs4)
             as [Hhe Hhl].
           unfold hit_emb in Hhe. unfold hit_lens in Hhl.
           cbn [fst snd] in Hhe, Hhl.
           split; [apply Hgoal; [exact Hhe|exact Hhl]|]. split.
           ++ intros key. rewrite (Hcache key).
              destruct (column_cache st0 !! key) eqn:Hkey; [reflexivity|].
              rewrite ?Huc. cbn [andb].
              rewrite (bool_decide_ext (key ∈ dbs ++ [db]) (key ∈ dbs));
                [reflexivity|].
              apply bool_decide_eq_true in Hseen.
              rewrite elem_of_app, list_elem_of_singleton.
              split; [intros [Hin| ->]; assumption|auto].
           ++ rewrite (app_nil_r (embedded_dbs self st0 [] dbs)). exact Hcalls.
        -- (* embedded now and stored *)
           rewrite (column_loop_run m1 m2 (length dbs) db E1 C1 st1
                      HE1 HC1 Hdb Hfitdb).
           unfold zero_row, zero_lens. rewrite !drop_replicate.
           fold (miss_emb self m1 m2 db). fold (miss_lens m1 db).
           pose proof (lookup_lt_Some _ _ _ HE1) as HiE.
           pose proof (lookup_lt_Some _ _ _ HC1) as HiC.
           rewrite !list_lookup_total_insert_eq by assumption.
           eexists. cbn [foldM]. unfold mret, M_ret.
           split; [apply Hgoal; reflexivity|]. cbn [column_cache calls]. split.
           ++ intros key. destruct (decide (key = db)) as [->|Hne].
              ** rewrite lookup_insert_eq, Hdb0, ?Huc.
                 rewrite bool_decide_eq_true_2
                   by (apply elem_of_app; right; left).
                 reflexivity.
              ** rewrite lookup_insert_ne by congruence.
                 rewrite (Hcache key), ?Huc.
                 destruct (column_cache st0 !! key) eqn:Hkey; [reflexivity|].
                 rewrite (bool_decide_ext (key ∈ dbs ++ [db]) (key ∈ dbs));
                   [reflexivity|].
                 rewrite elem_of_app, list_elem_of_singleton.
                 split; [intros [Hin| ->]; [exact Hin|congruence]|auto].
           ++ rewrite map_app, concat_app. simpl. rewrite app_nil_r.
              rewrite Hcalls, <- app_assoc. reflexivity.
      * (* embedded now, caching off *)
        rewrite (column_loop_run m1 m2 (length dbs) db E1 C1 st1
                   HE1 HC1 Hdb Hfitdb).
        unfold zero_row, zero_lens. rewrite !drop_replicate.
        fold (miss_emb self m1 m2 db). fold (miss_lens m1 db).
        eexists. cbn [foldM]. unfold mret, M_ret.
        split; [apply Hgoal; reflexivity|]. cbn [column_cache calls]. split.
        -- intros key. rewrite (Hcache key), ?Huc. reflexivity.
        -- rewrite map_app, concat_app. simpl. rewrite app_nil_r.
           rewrite Hcalls, <- app_assoc. reflexivity.
Qed.

End ColumnsRun.

(** X8. Over a vocabulary within its weight matrix and a well-formed
    cache, for a batch with at least one schema and at least one
    column in each, none of whose columns has more tokens after
    lowercasing than the padded size, [get_columns_emb] returns. Row [i] of the arrays is the copy of the
    cache entry for a schema that was in the cache when the call
    began, and otherwise the rows and token counts of the columns of
    the schema, padded with zeros. The cache afterwards holds the old
    entries and, with caching on, these rows and counts for every other
    schema of the batch. The calls [self(column)] made are those of the
    columns of the schemas that were not in the cache, with caching on
    for their first occurrence in the batch only. *)
Theorem X8_columns_rows {R : Type} `{Scalar R} `{Tokenizer}
    (self : PretrainedEmbedding R) (columns : list (list (list string)))
    (st : mstate R) :
  vocab_ok self -> cache_ok st ->
  columns <> [] -> Forall (fun db => db <> []) columns ->
  counts_fit (max_tokens columns) (columns_joined columns) ->
  let m1 := max_columns columns in
  let m2 := max_tokens columns in
  let dbs := columns_joined columns in
  exists st',
    get_columns_emb self columns st =
      (Ok (map (db_emb self m1 m2 st) dbs, map length columns,
           map (db_lens m1 m2 st) dbs), st') /\
    (forall key,
       column_cache st' !! key =
       match column_cache st !! key with
       | Some e => Some e
       | None =>
           if use_column_cache self && bool_decide (key ∈ dbs)
           then Some (miss_emb self m1 m2 key, miss_lens m1 key)
           else None
       end) /\
    calls st' =
      calls st ++
      concat (map (map (fun c => (Str c, false)))
                  (embedded_dbs self st [] dbs)).
Proof.
  intros Hok _ Hne Hdbs Hfit m1 m2 dbs.
  assert (Hm1 : Forall (fun db => length db <= m1) dbs).
  { apply Forall_forall. intros db Hdb. unfold dbs, columns_joined in Hdb.
    to_fmap. apply list_elem_of_fmap in Hdb as (db' & -> & Hdb').
    rewrite length_fmap. apply max_list_elem_of_le.
    apply list_elem_of_fmap. exists db'. split; [reflexivity|exact Hdb']. }
  destruct (db_loop_run self Hok m1 m2 (length columns) dbs st
              ltac:(unfold dbs; rewrite length_columns_joined; lia) Hm1 Hfit)
    as (st' & Hrun & Hcache & Hcalls).
  exists st'. split; [|split; [exact Hcache|exact Hcalls]].
  rewrite get_columns_emb_run by assumption.
  fold m1 m2 dbs. rewrite Hrun.
  unfold dbs at 2 4. rewrite length_columns_joined, Nat.sub_diag.
  simpl. rewrite !app_nil_r. reflexivity.
Qed.

Lemma X8_columns_rows_witness :
  let columns := [[["a"]]; [["b"]; ["a"; "zebra"]]; [["b"]; ["a"; "zebra"]]] in
  exists st',
    get_columns_emb SampleTable.tiny columns SampleTable.cached_a =
      (Ok ([[[[1; 2]; [0; 0]]; [[0; 0]; [0; 0]]];
            [[[3; 4]; [0; 0]]; [[1; 2]; [0; 0]]];
            [[[3; 4]; [0; 0]]; [[1; 2]; [0; 0]]]]%Q,
           [1; 2; 2], [[1; 0]; [1; 2]; [1; 2]]), st') /\
    column_cache st' !! ["b"; "a zebra"] =
      Some ([[[3; 4]; [0; 0]]; [[1; 2]; [0; 0]]]%Q, [1; 2]) /\
    calls st' =
      calls SampleTable.cached_a ++ [(Str "b", false); (Str "a zebra", false)].
Proof.
  intros columns.
  destruct (X8_columns_rows SampleTable.tiny columns SampleTable.cached_a
              tiny_vocab_ok cached_a_ok) as (st' & Hrun & Hcache & Hcalls).
  - discriminate.
  - repeat constructor; discriminate.
  - intros db c Hdb Hc. unfold columns, columns_joined in Hdb. simpl in Hdb.
    repeat match goal with
           | Hin : _ ∈ _ :: _ |- _ => apply elem_of_cons in Hin as [->|Hin]
           | Hin : _ ∈ [] |- _ => inversion Hin
           end; vm_compute; lia.
  - exists st'. split; [exact Hrun|]. split; [|exact Hcalls].
    rewrite (Hcache ["b"; "a zebra"]). reflexivity.
Defined.

(** ** [GloveEmbedding.__init__] *)

(** The positions a filter keeps of [0 .. n-1] are the first ones as
    soon as each of them is below their number. *)
Lemma filter_seq_prefix (P : nat -> Prop) `{forall i, Decision (P i)} (n : nat) :
  Forall (fun i => i < length (filter P (seq 0 n))) (filter P (seq 0 n)) ->
  filter P (seq 0 n) = seq 0 (length (filter P (seq 0 n))).
Proof.
  induction n as [|n IH]; [reflexivity|].
  rewrite seq_S, filter_app. simpl.
  assert (Hle : length (filter P (seq 0 n)) <= n).
  { etransitivity; [apply length_filter|]. rewrite length_seq. lia. }
  rewrite filter_cons, filter_nil.
  destruct (decide (P n)) as [Hn|Hn].
  - rewrite length_app. simpl. intros Hall.
    apply Forall_app in Hall as [Hold Hlast].
    rewrite Forall_singleton in Hlast.
    assert (Hfull : length (filter P (seq 0 n)) = n) by lia.
    assert (Hin : Forall (fun i => i < length (filter P (seq 0 n)))
                    (filter P (seq 0 n))).
    { apply Forall_forall. intros j Hj.
      apply list_elem_of_filter in Hj as [_ Hj]. apply elem_of_seq in Hj. lia. }
    pose proof (IH Hin) as Heq. rewrite Hfull in Heq.
    rewrite Heq, length_seq. replace (n + 1) with (S n) by lia.
    rewrite seq_S. reflexivity.
  - rewrite app_nil_r. exact IH.
Qed.

Section GloveMore.
Context {R : Type} `{Scalar R}.

(** Reading the values of a line fails with a [ValueError] only. *)
Lemma asarray_outcome (vector : list string) :
  (exists v : list R, asarray vector = Ok v) \/
  asarray (R:=R) vector = Raise ValueError.
Proof.
  unfold asarray.
  match goal with
  | |- (exists v, rmapM ?g _ = _) \/ _ =>
      destruct (rmapM_all_or_raise (fun x => is_Some (sparse (R:=R) x)) g
                  (fun x => default szero (sparse x)) ValueError vector)
        as [(_ & Hyes)|(_ & Hno)]
  end.
  - intros x _ [r Hr]. rewrite Hr. reflexivity.
  - intros x _ Hx. destruct (sparse x) as [r|] eqn:Hr; [|reflexivity].
    exfalso. apply Hx. eauto.
  - intros x _. destruct (sparse (R:=R) x) as [r|]; [left; eauto|right].
    intros [r Hr]. discriminate.
  - left. eauto.
  - right. exact Hno.
Qed.

(** One line, on the dictionary and rows built from the lines
    before it. *)
Lemma glove_line_retained (f : list string) (l : string)
    (w2i : gmap string nat) (vecs : list (list R)) :
  glove_inv f w2i vecs ->
  glove_line (w2i, vecs) (S (length f), l) =
  match Py.split l with
  | [] => Raise IndexError
  | token :: vector =>
      if retained 300 (f ++ [l]) (length f) then
        v ← asarray vector;
        Ok (<[token := S (length f)]> w2i, vecs ++ [v])
      else Ok (w2i, vecs)
  end.
Proof.
  intros (Ha & _). unfold glove_line. rewrite retained_app_r.
  destruct (Py.split l) as [|token vector]; [reflexivity|].
  assert (Hmem : bool_decide (is_Some (w2i !! token))
                 = existsb (carries 300 token) f).
  { destruct (existsb (carries 300 token) f) eqn:Hex.
    - apply bool_decide_eq_true. apply Ha. exact Hex.
    - apply bool_decide_eq_false. intros Hs. apply Ha in Hs. congruence. }
  rewrite Hmem. reflexivity.
Qed.

Lemma readable_app_l (f : list string) (l : string) :
  readable R (f ++ [l]) -> readable R f.
Proof.
  intros [Hnb Hnum]. apply Forall_app in Hnb as [Hnb _].
  split; [exact Hnb|].
  rewrite retained_lines_snoc in Hnum. apply Forall_app in Hnum as [Hnum _].
  apply Forall_forall. intros i Hi.
  rewrite Forall_forall in Hnum. specialize (Hnum i Hi).
  rewrite vector_at_app_l in Hnum by (eapply retained_lines_lt; exact Hi).
  exact Hnum.
Qed.

(** A loop that ends normally has read a readable file. *)
Lemma glove_loop_ok_inv (f : list string) :
  forall (w2i : gmap string nat) (vecs : list (list R)),
  glove_loop (∅, []) (enumerate1 f) = Ok (w2i, vecs) -> readable R f.
Proof.
  induction f as [|l f IH] using rev_ind; intros w2i vecs Hloop.
  - split; constructor.
  - rewrite enumerate1_snoc, glove_loop_app in Hloop.
    destruct (glove_loop (∅, []) (enumerate1 f)) as [[w vs]|e] eqn:Hpre;
      [|discriminate].
    destruct (IH w vs eq_refl) as [Hnb Hnum].
    destruct (glove_loop_inv f Hnb Hnum) as (w' & vs' & Hpre' & Hinv).
    rewrite Hpre in Hpre'. inversion Hpre'; subst w' vs'. clear Hpre'.
    cbn [mbind result_bind rbind glove_loop] in Hloop.
    rewrite (glove_line_retained f l w vs Hinv) in Hloop.
    destruct (Py.split l) as [|token vector] eqn:Hsplit; [discriminate|].
    split.
    + apply Forall_app. split; [exact Hnb|].
      apply Forall_singleton. congruence.
    + rewrite retained_lines_snoc. apply Forall_app. split.
      * apply Forall_forall. intros i Hi.
        rewrite Forall_forall in Hnum.
        rewrite vector_at_app_l by (eapply retained_lines_lt; exact Hi).
        apply Hnum, Hi.
      * destruct (retained 300 (f ++ [l]) (length f)); [|constructor].
        apply Forall_singleton.
        unfold vector_at. rewrite fields_at_app_r, Hsplit. simpl.
        destruct (asarray vector) as [v|e]; [eauto|discriminate].
Qed.

Lemma enumerate1_app_cons {A} (f : list A) (l : A) (rest : list A) :
  exists tl, enumerate1 (f ++ l :: rest) =
             enumerate1 f ++ (S (length f), l) :: tl.
Proof.
  unfold enumerate1. rewrite imap_app. simpl. rewrite Nat.add_0_r. eauto.
Qed.

(** The first line that cannot be read ends the loop: a blank line
    with an [IndexError], a retained line with a value that is not a
    number with a [ValueError]. *)
Lemma glove_loop_first_bad (f : list string) (l : string) (rest : list string) :
  readable R f ->
  (Py.split l = [] ->
   glove_loop (R:=R) (∅, []) (enumerate1 (f ++ l :: rest)) = Raise IndexError) /\
  (retained 300 (f ++ [l]) (length f) = true ->
   (forall v : list R, asarray (vector_at (f ++ [l]) (length f)) <> Ok v) ->
   glove_loop (R:=R) (∅, []) (enumerate1 (f ++ l :: rest)) = Raise ValueError).
Proof.
  intros [Hnb Hnum].
  destruct (glove_loop_inv f Hnb Hnum) as (w & vs & Hpre & Hinv).
  destruct (enumerate1_app_cons f l rest) as [tl ->].
  rewrite glove_loop_app, Hpre.
  cbn [mbind result_bind rbind glove_loop].
  rewrite (glove_line_retained f l w vs Hinv).
  split.
  - intros ->. reflexivity.
  - intros Hret Hbad. unfold vector_at in Hbad.
    rewrite fields_at_app_r in Hbad.
    destruct (Py.split l) as [|token vector] eqn:Hsplit.
    + rewrite retained_app_r, Hsplit in Hret. discriminate.
    + rewrite Hret. simpl in Hbad.
      destruct (asarray_outcome vector) as [[v Hv]|Hv].
      * exfalso. exact (Hbad v Hv).
      * rewrite Hv. reflexivity.
Qed.

Lemma glove_init_loop_raise (f : list string) (cache : bool) (e : exn) :
  glove_loop (R:=R) (∅, []) (enumerate1 f) = Raise e ->
  GloveEmbedding_init (R:=R) f cache = Raise e.
Proof.
  intros Hloop. unfold GloveEmbedding_init, glove_table. rewrite Hloop.
  reflexivity.
Qed.

(** A readable file that retains no line. *)
Lemma glove_none_retained (f : list string) (cache : bool) :
  readable R f -> retained_lines 300 f = [] ->
  GloveEmbedding_init (R:=R) f cache = Raise IndexError.
Proof.
  intros [Hnb Hnum] Hnil.
  destruct (glove_loop_inv f Hnb Hnum) as (w & vs & Hloop & _ & _ & _ & Hd & _).
  rewrite Hnil in Hd. simpl in Hd. inversion Hd; subst vs.
  unfold GloveEmbedding_init, glove_table. rewrite Hloop. reflexivity.
Qed.

(** A readable file that retains a line for the token [<unknown>]:
    the dictionary has one entry less than the matrix has rows. *)
Lemma glove_unknown_retained (f : list string) (cache : bool) (i : nat) :
  readable R f -> i ∈ retained_lines 300 f -> token_at f i = "<unknown>" ->
  GloveEmbedding_init (R:=R) f cache = Raise RuntimeError.
Proof.
  intros [Hnb Hnum] Hi Htok.
  destruct (glove_loop_inv f Hnb Hnum)
    as (w & vs & Hloop & Ha & Hb & Hc & Hd & He).
  assert (Hrows : Forall (fun v => length v = 300) vs)
    by (eapply retained_rows_300; exact Hd).
  assert (Hlen : length vs = length (retained_lines 300 f)).
  { rewrite (rmapM_length _ _ _ Hd). apply length_map. }
  assert (Hpos : 1 <= length (retained_lines 300 f)).
  { destruct (retained_lines 300 f); [inversion Hi|simpl; lia]. }
  pose proof (Hb i Hi) as Hunk. rewrite Htok in Hunk.
  unfold GloveEmbedding_init, glove_table. rewrite Hloop.
  cbn [mbind result_bind rbind].
  destruct vs as [|v0 vs']; [simpl in Hlen; lia|].
  assert (Hv0 : length v0 = 300) by (inversion Hrows; assumption).
  cbn [mbind result_bind rbind hd].
  unfold PretrainedEmbedding_init.
  rewrite map_size_insert_Some by (rewrite Hunk; eauto). rewrite He.
  destruct (length (retained_lines 300 f) =? 0) eqn:Hz;
    [apply Nat.eqb_eq in Hz; lia|].
  assert (Hcopy : copy_weight (length (retained_lines 300 f))
                    (length (zeros (R:=R) (length v0)))
                    (zeros (length v0) :: v0 :: vs') = Raise RuntimeError).
  { unfold copy_weight.
    assert (Hall : forallb (fun v : list R => length v =? length (zeros (R:=R) (length v0)))
                     (zeros (length v0) :: v0 :: vs') = true).
    { apply forallb_forall. intros v Hv. apply Nat.eqb_eq.
      rewrite length_zeros, Hv0. destruct Hv as [<-|Hv].
      - rewrite length_zeros. exact Hv0.
      - rewrite Forall_forall in Hrows. apply Hrows.
        apply list_elem_of_In. exact Hv. }
    rewrite Hall, Nat.eqb_refl. cbn [negb orb].
    simpl in Hlen. cbn [length]. rewrite Hlen.
    replace (S (length (retained_lines 300 f)) =? length (retained_lines 300 f))
      with false by (symmetry; apply Nat.eqb_neq; lia).
    replace (S (length (retained_lines 300 f)) =? 1)
      with false by (symmetry; apply Nat.eqb_neq; lia).
    reflexivity. }
  rewrite Hcopy. reflexivity.
Qed.

(** A constructor that returns has read a readable file that retains
    a line and none for the token [<unknown>]. *)
Lemma glove_init_ok_inv (f : list string) (cache : bool)
    (e : PretrainedEmbedding R) :
  GloveEmbedding_init f cache = Ok e ->
  readable R f /\ retained_lines 300 f <> [] /\
  Forall (fun i => token_at f i <> "<unknown>") (retained_lines 300 f).
Proof.
  intros Hinit.
  assert (Hread : readable R f).
  { destruct (glove_loop (R:=R) (∅, []) (enumerate1 f)) as [[w vs]|e'] eqn:Hloop.
    - exact (glove_loop_ok_inv f w vs Hloop).
    - rewrite (glove_init_loop_raise f cache e' Hloop) in Hinit. discriminate. }
  split; [exact Hread|]. split.
  - intros Hnil. rewrite (glove_none_retained f cache Hread Hnil) in Hinit.
    discriminate.
  - apply Forall_forall. intros i Hi Htok.
    rewrite (glove_unknown_retained f cache i Hread Hi Htok) in Hinit.
    discriminate.
Qed.

End GloveMore.

(** X9. [GloveEmbedding] can be constructed from a file exactly when
    no line of the file is blank, the values of every retained line
    read as numbers, at least one line is retained, and no retained
    line carries the token [<unknown>]. *)
Theorem X9_glove_loads_iff {R : Type} `{Scalar R}
    (f : list string) (cache : bool) :
  (exists e : PretrainedEmbedding R, GloveEmbedding_init f cache = Ok e) <->
  readable R f /\ retained_lines 300 f <> [] /\
  Forall (fun i => token_at f i <> "<unknown>") (retained_lines 300 f).
Proof.
  split.
  - intros [e Hinit]. exact (glove_init_ok_inv f cache e Hinit).
  - intros ([Hnb Hnum] & Hsome & Hunk).
    destruct (glove_init_fields f cache Hnb Hnum Hsome Hunk)
      as (w2i & vecs & _ & _ & _ & Heq).
    eexists. exact Heq.
Qed.

Lemma X9_glove_loads_iff_witness :
  (exists e : PretrainedEmbedding Q,
     GloveEmbedding_init ["x 1 2 3"; Sample.line300 "cat" "0.5"] true = Ok e) /\
  ~ readable Q ["x 1 2 3"; Sample.line300 "cat" "abc"].
Proof.
  split.
  - apply (proj2 (X9_glove_loads_iff
                    ["x 1 2 3"; Sample.line300 "cat" "0.5"] true)).
    assert (Hret : retained_lines 300
                     ["x 1 2 3"; Sample.line300 "cat" "0.5"] = [1])
      by (vm_compute; reflexivity).
    split; [split|split].
    + repeat constructor; vm_compute; discriminate.
    + rewrite Hret. repeat constructor; eexists; vm_compute; reflexivity.
    + rewrite Hret. discriminate.
    + rewrite Hret. repeat constructor; vm_compute; discriminate.
  - intros Hread.
    assert (Hraise : GloveEmbedding_init (R:=Q)
                       ["x 1 2 3"; Sample.line300 "cat" "abc"] true
                     = Raise ValueError) by (vm_compute; reflexivity).
    destruct (proj2 (X9_glove_loads_iff (R:=Q)
                       ["x 1 2 3"; Sample.line300 "cat" "abc"] true))
      as [e He].
    + split; [exact Hread|]. split; [vm_compute; discriminate|].
      repeat constructor; vm_compute; discriminate.
    + rewrite Hraise in He. discriminate.
Defined.

(** X10. How [GloveEmbedding] fails. After lines that can be read, a
    blank line raises an [IndexError] and a retained line with a value
    that is not a number raises a [ValueError], whatever follows. A
    file that can be read to the end raises an [IndexError] when it
    retains no line (none has exactly 300 values), and a
    [RuntimeError] when it retains a line for the token [<unknown>]. *)
Theorem X10_glove_errors {R : Type} `{Scalar R}
    (f : list string) (cache : bool) :
  readable R f ->
  (retained_lines 300 f = [] ->
   GloveEmbedding_init (R:=R) f cache = Raise IndexError) /\
  (Exists (fun i => token_at f i = "<unknown>") (retained_lines 300 f) ->
   GloveEmbedding_init (R:=R) f cache = Raise RuntimeError) /\
  (forall l rest,
     Py.split l = [] ->
     GloveEmbedding_init (R:=R) (f ++ l :: rest) cache = Raise IndexError) /\
  (forall l rest,
     retained 300 (f ++ [l]) (length f) = true ->
     (forall v : list R, asarray (vector_at (f ++ [l]) (length f)) <> Ok v) ->
     GloveEmbedding_init (R:=R) (f ++ l :: rest) cache = Raise ValueError).
Proof.
  intros Hread. split; [|split; [|split]].
  - apply glove_none_retained. exact Hread.
  - intros Hex. apply Exists_exists in Hex as (i & Hi & Htok).
    exact (glove_unknown_retained f cache i Hread Hi Htok).
  - intros l rest Hblank. apply glove_init_loop_raise.
    apply (glove_loop_first_bad f l rest Hread). exact Hblank.
  - intros l rest Hret Hbad. apply glove_init_loop_raise.
    apply (glove_loop_first_bad f l rest Hread); assumption.
Qed.

Lemma X10_glove_errors_witness :
  GloveEmbedding_init (R:=Q) ["cat 0.1 0.2 0.3"; "dog 0.4"] true =
    Raise IndexError /\
  GloveEmbedding_init (R:=Q) ["cat 0.1 0.2 0.3"; "dog 0.4"; " "; "x 1"] true =
    Raise IndexError /\
  GloveEmbedding_init (R:=Q)
    ["cat 0.1 0.2 0.3"; "dog 0.4"; Sample.line300 "cat" "abc"] true =
    Raise ValueError /\
  GloveEmbedding_init (R:=Q) [Sample.line300 "<unknown>" "1"] true =
    Raise RuntimeError.
Proof.
  assert (Hread : readable Q ["cat 0.1 0.2 0.3"; "dog 0.4"]).
  { split; [repeat constructor; vm_compute; discriminate|].
    replace (retained_lines 300 ["cat 0.1 0.2 0.3"; "dog 0.4"]) with (@nil nat)
      by (vm_compute; reflexivity).
    constructor. }
  destruct (X10_glove_errors (R:=Q) ["cat 0.1 0.2 0.3"; "dog 0.4"] true Hread)
    as (Hnone & _ & Hblank & Hbad).
  split; [apply Hnone; vm_compute; reflexivity|].
  split; [apply (Hblank " " ["x 1"]); reflexivity|].
  split.
  - apply (Hbad (Sample.line300 "cat" "abc") []).
    + vm_compute. reflexivity.
    + intros v Hv. vm_compute in Hv. discriminate.
  - assert (Hret : retained_lines 300 [Sample.line300 "<unknown>" "1"] = [0])
      by (vm_compute; reflexivity).
    destruct (X10_glove_errors (R:=Q) [Sample.line300 "<unknown>" "1"] true)
      as (_ & Hunk & _).
    + split; [repeat constructor; vm_compute; discriminate|].
      rewrite Hret. repeat constructor; eexists; vm_compute; reflexivity.
    + apply Hunk. rewrite Hret. constructor. vm_compute. reflexivity.
Defined.

(** X11. For every file [GloveEmbedding] can be constructed from, the
    weight has [num_embeddings] rows of 300 entries each. Its
    dictionary points into the weight (with the zero vector in row 0)
    exactly when the retained lines are the first lines of the file,
    that is, when no line is dropped before a retained one. *)
Theorem X11_glove_vocab_ok_iff {R : Type} `{Scalar R}
    (f : list string) (cache : bool) (e : PretrainedEmbedding R) :
  GloveEmbedding_init f cache = Ok e ->
  embedding_dim e = 300 /\ weight_ok e /\
  num_embeddings e = length (weight e) /\
  (vocab_ok e <->
   retained_lines 300 f = seq 0 (length (retained_lines 300 f))).
Proof.
  intros Hinit.
  destruct (glove_init_ok_inv f cache e Hinit) as ([Hnb Hnum] & Hsome & Hunk).
  destruct (glove_init_fields f cache Hnb Hnum Hsome Hunk)
    as (w2i & vecs & (Ha & Hb & Hc & Hd & He) & Hfresh & Hrows & Heq).
  rewrite Heq in Hinit. inversion Hinit; subst e. clear Hinit.
  assert (Hlen : length vecs = length (retained_lines 300 f)).
  { rewrite (rmapM_length _ _ _ Hd). apply length_map. }
  cbn [embedding_dim weight num_embeddings].
  split; [reflexivity|]. split.
  { unfold weight_ok. cbn [weight embedding_dim].
    constructor; [apply length_zeros|exact Hrows]. }
  split; [simpl; rewrite He, Hlen; reflexivity|].
  split.
  - intros [Hidx _]. cbn [word2idx weight] in Hidx.
    apply (filter_seq_prefix (fun i => retained 300 f i = true)).
    fold (retained_lines 300 f).
    apply Forall_forall. intros i Hi.
    assert (Hlook : <["<unknown>" := 0]> w2i !! token_at f i = Some (S i)).
    { rewrite lookup_insert_ne; [apply Hb, Hi|].
      intros Heq'. rewrite Forall_forall in Hunk. apply (Hunk i Hi).
      symmetry. exact Heq'. }
    specialize (Hidx _ _ Hlook). simpl in Hidx. lia.
  - intros Hpre. split; [|reflexivity].
    cbn [word2idx weight]. intros w i Hw. simpl.
    destruct (decide ("<unknown>" = w)) as [<-|Hne].
    + rewrite lookup_insert_eq in Hw. inversion Hw. lia.
    + rewrite lookup_insert_ne in Hw by exact Hne.
      destruct (Hc w i Hw) as (j & -> & Hj & _).
      rewrite Hpre in Hj. apply elem_of_seq in Hj. lia.
Qed.

Lemma X11_glove_vocab_ok_iff_witness :
  exists e : PretrainedEmbedding Q,
    GloveEmbedding_init ["x 1 2 3"; Sample.line300 "cat" "0.5"] true = Ok e /\
    embedding_dim e = 300 /\ weight_ok e /\
    num_embeddings e = length (weight e) /\
    ~ vocab_ok e.
Proof.
  eexists. split; [vm_compute; reflexivity|].
  match goal with
  | |- embedding_dim ?e = _ /\ _ =>
      destruct (X11_glove_vocab_ok_iff
                  ["x 1 2 3"; Sample.line300 "cat" "0.5"] true e)
        as (Hdim & Hw & Hn & Hiff)
  end.
  - vm_compute. reflexivity.
  - split; [exact Hdim|]. split; [exact Hw|]. split; [exact Hn|].
    intros Hok. apply Hiff in Hok. vm_compute in Hok. discriminate.
Defined.

(** ** [LaserEmbedding.forward] *)

Section LaserMore.
Context {R : Type} `{Scalar R} `{Tokenizer} `{Embedder R}.

Lemma laser_dense_ext (st st' : Laser.LaserEmbedding R) :
  Laser.word2idx st' = Laser.word2idx st ->
  Laser.vectors st' = Laser.vectors st ->
  laser_dense st -> laser_dense st'.
Proof.
  unfold laser_dense, laser_ok. intros -> ->. exact (fun x => x).
Qed.

Lemma laser_ok_lt (st : Laser.LaserEmbedding R) (w : string) (i : nat) :
  laser_ok st -> Laser.word2idx st !! w = Some i ->
  i < size (Laser.word2idx st).
Proof.
  intros [Hlen Hvec] Hw. rewrite <- Hlen.
  eapply lookup_lt_Some. apply (Hvec w i Hw).
Qed.

Lemma learn_word_dense (st : Laser.LaserEmbedding R) (word : string) :
  laser_dense st -> laser_dense (Laser.learn_word st word).
Proof.
  intros (Hok & Hinj & Hsurj).
  pose proof (learn_list_ok [word] st Hok) as Hok'. simpl in Hok'.
  split; [exact Hok'|]. clear Hok'.
  unfold Laser.learn_word.
  destruct (Laser.word2idx st !! word) as [k|] eqn:Hword; [split; assumption|].
  cbn [Laser.word2idx]. split.
  - intros w1 w2 i Hw1 Hw2.
    destruct (decide (word = w1)) as [<-|Hne1];
      destruct (decide (word = w2)) as [<-|Hne2]; [reflexivity| | |].
    + rewrite lookup_insert_eq in Hw1. inversion Hw1; subst i.
      rewrite lookup_insert_ne in Hw2 by exact Hne2.
      pose proof (laser_ok_lt st w2 _ Hok Hw2). lia.
    + rewrite lookup_insert_eq in Hw2. inversion Hw2; subst i.
      rewrite lookup_insert_ne in Hw1 by exact Hne1.
      pose proof (laser_ok_lt st w1 _ Hok Hw1). lia.
    + rewrite lookup_insert_ne in Hw1 by exact Hne1.
      rewrite lookup_insert_ne in Hw2 by exact Hne2.
      exact (Hinj w1 w2 i Hw1 Hw2).
  - intros i Hi. rewrite map_size_insert_None in Hi by exact Hword.
    destruct (decide (i = size (Laser.word2idx st))) as [->|Hne].
    + exists word. apply lookup_insert_eq.
    + destruct (Hsurj i ltac:(lia)) as [w Hw]. exists w.
      rewrite lookup_insert_ne; [exact Hw|]. intros <-. congruence.
Qed.

Lemma learn_list_dense (ws : list string) :
  forall st : Laser.LaserEmbedding R,
  laser_dense st -> laser_dense (foldl Laser.learn_word st ws).
Proof.
  induction ws as [|w ws IH]; intros st Hst; [exact Hst|].
  simpl. apply IH, learn_word_dense, Hst.
Qed.

Lemma init_dense : laser_dense (Laser.init (R:=R)).
Proof.
  split; [apply init_ok|]. split.
  - intros w1 w2 i Hw. simpl in Hw. rewrite lookup_empty in Hw. discriminate.
  - intros i Hi. simpl in Hi. rewrite map_size_empty in Hi. lia.
Qed.

Lemma forward_dense (sentences : sentences_arg) (mean_sequence : bool)
    (st : Laser.LaserEmbedding R) :
  laser_dense st -> laser_dense (Laser.forward sentences mean_sequence st).2.
Proof.
  intros Hst. unfold Laser.forward.
  destruct (Py.max _) as [max_len|e]; [|exact Hst].
  destruct mean_sequence; cbn [snd].
  - eapply laser_dense_ext; [| |exact Hst]; reflexivity.
  - eapply laser_dense_ext;
      [| |apply (learn_list_dense
                   (concat (map word_tokenize (map lower (as_list sentences))))
                   st Hst)];
      cbn [Laser.word2idx Laser.vectors];
      rewrite learn_words_concat; reflexivity.
Qed.

End LaserMore.

Section LaserRows.
Context {R : Type} `{Scalar R} `{Tokenizer} `{Embedder R}.




End LaserRows.



Section LaserUniform.
Context {R : Type} `{Scalar R} `{Tokenizer} `{Embedder R}.




End LaserUniform.





(** ** [PretrainedEmbedding.__init__] *)

Section InitMore.
Context {R : Type} `{Scalar R}.

(** A copy that is accepted fills the [n] by [dim] weight. *)
Lemma copy_weight_shape (n dim : nat) (vs w : list (list R)) :
  copy_weight n dim vs = Ok w ->
  length w = n /\ Forall (fun v => length v = dim) w.
Proof.
  unfold copy_weight. destruct vs as [|v0 vs']; [discriminate|].
  set (vs := v0 :: vs').
  destruct (negb (forallb _ vs)) eqn:Hall; [discriminate|].
  apply negb_false_iff in Hall. rewrite forallb_forall in Hall.
  destruct (negb ((length v0 =? dim) || (length v0 =? 1))) eqn:Hc;
    [discriminate|].
  destruct (negb ((length vs =? n) || (length vs =? 1))) eqn:Hr;
    [discriminate|].
  apply negb_false_iff, orb_true_iff in Hr.
  set (wide := map (fun v => if length v0 =? dim then v
                             else replicate dim (hd szero v)) vs).
  assert (Hwide : Forall (fun v => length v = dim) wide).
  { apply Forall_forall. intros v Hv. unfold wide in Hv. to_fmap.
    apply list_elem_of_fmap in Hv as (v' & -> & Hv').
    destruct (length v0 =? dim) eqn:Hd.
    - apply Nat.eqb_eq in Hd. rewrite <- Hd. apply Nat.eqb_eq.
      apply Hall. apply list_elem_of_In. exact Hv'.
    - apply length_replicate. }
  destruct (length vs =? n) eqn:Hn; intros Hw; injection Hw as <-.
  - apply Nat.eqb_eq in Hn. split; [|exact Hwide].
    unfold wide. rewrite length_map. exact Hn.
  - split; [apply length_replicate|].
    apply Forall_replicate. unfold wide, vs in *. cbn [map hd] in *.
    inversion Hwide; assumption.
Qed.

End InitMore.

(** X16. An object [PretrainedEmbedding.__init__] returns keeps the
    arguments it was given, [num_embeddings] is at least 1, and its
    weight has [num_embeddings] rows of [embedding_dim] entries
    each. *)
Theorem X16_init_weight_shape {R : Type} `{Scalar R}
    (n dim : nat) (w2i : gmap string nat) (vs : list (list R)) (cache : bool)
    (e : PretrainedEmbedding R) :
  PretrainedEmbedding_init n dim w2i vs cache = Ok e ->
  num_embeddings e = n /\ embedding_dim e = dim /\ word2idx e = w2i /\
  vectors e = vs /\ use_column_cache e = cache /\
  1 <= n /\ length (weight e) = n /\ weight_ok e.
Proof.
  unfold PretrainedEmbedding_init.
  destruct (n =? 0) eqn:Hn; [discriminate|]. apply Nat.eqb_neq in Hn.
  destruct (copy_weight n dim vs) as [w|err] eqn:Hcopy; [|discriminate].
  cbn [mbind result_bind rbind]. intros He. inversion He; subst e. clear He.
  cbn [num_embeddings embedding_dim word2idx vectors use_column_cache weight].
  destruct (copy_weight_shape n dim vs w Hcopy) as [Hlen Hrows].
  repeat (split; [reflexivity|]).
  split; [lia|]. split; [exact Hlen|exact Hrows].
Qed.

Lemma X16_init_weight_shape_witness :
  exists e : PretrainedEmbedding Q,
    PretrainedEmbedding_init 3 2 (<["a" := 1]> (<["b" := 2]> ∅))
      [[0; 0]; [1; 2]; [3; 4]]%Q true = Ok e /\
    num_embeddings e = 3 /\ embedding_dim e = 2 /\
    length (weight e) = 3 /\ weight_ok e.
Proof.
  exists SampleTable.tiny.
  destruct (X16_init_weight_shape 3 2 (<["a" := 1]> (<["b" := 2]> ∅))
              [[0; 0]; [1; 2]; [3; 4]]%Q true SampleTable.tiny)
    as (Hn & Hd & _ & _ & _ & _ & Hl & Hw).
  - reflexivity.
  - split; [reflexivity|]. split; [exact Hn|]. split; [exact Hd|].
    split; [exact Hl|exact Hw].
Defined.

Section LaserAgain.
Context {R : Type} `{Scalar R} `{Tokenizer} `{Embedder R}.

(** Tokens the dictionary knows cause no change. *)
Lemma learn_known (ws : list string) (st : Laser.LaserEmbedding R) :
  (forall w, w ∈ ws -> is_Some (Laser.word2idx st !! w)) ->
  foldl Laser.learn_word st ws = st.
Proof.
  induction ws as [|w ws IH]; intros Hknown; [reflexivity|].
  simpl. destruct (Hknown w (list_elem_of_here _ _)) as [i Hi].
  unfold Laser.learn_word at 2. rewrite Hi.
  apply IH. intros w' Hw'. apply Hknown. right. exact Hw'.
Qed.

Lemma forward_again (sentences : sentences_arg) (st : Laser.LaserEmbedding R) :
  Laser.forward sentences false (Laser.forward sentences false st).2 =
  Laser.forward sentences false st.
Proof.
  unfold Laser.forward.
  set (sw := map word_tokenize (map lower (as_list sentences))).
  destruct (Py.max (map length sw)) as [max_len|e] eqn:Hmax;
    cbn [snd]; rewrite ?Hmax; [|reflexivity].
  rewrite !learn_words_concat.
  set (st1 := foldl Laser.learn_word st (concat sw)).
  destruct (learn_list_spec (concat sw) st)
    as (new & _ & _ & _ & _ & _ & _ & Hall & _).
  fold st1 in Hall.
  set (st2 := Laser.Build_LaserEmbedding (size (Laser.word2idx st1))
                (Laser.embedding_dim st1) (Laser.word2idx st1)
                (Laser.vectors st1) (Laser.embedder_calls st1)).
  rewrite (learn_known (concat sw) st2) by exact Hall.
  reflexivity.
Qed.

End LaserAgain.

Section ColumnsShape.
Context {R : Type} `{Scalar R} `{Tokenizer}.
Variable self : PretrainedEmbedding R.

(** The copy of a well-formed entry fills a row of the arrays. *)
Lemma hit_shape (m1 m2 : nat) (e : list (list (list R)) * list nat) :
  entry_ok e ->
  length (hit_emb m1 m2 (embedding_dim self) e) = m1 /\
  Forall (fun r => length r = m2) (hit_emb m1 m2 (embedding_dim self) e) /\
  length (hit_lens m1 m2 e) = m1.
Proof.
  destruct e as [cemb clens]. intros (Hne & Hrect & Hlens).
  cbn [fst snd] in *. unfold hit_emb, hit_lens, assign_region, zero_row, zero_lens.
  cbn [fst snd]. unfold rectangular in Hrect.
  set (c2 := length (hd [] cemb)) in *.
  split; [|split].
  - rewrite length_app, length_zip_with, !length_take, length_drop,
      !length_replicate. lia.
  - apply Forall_app. split.
    + apply Forall_forall. intros r Hr.
      apply elem_of_lookup_zip_with in Hr as (i & src & dst & -> & Hsrc & Hdst).
      apply lookup_take_Some in Hsrc as [Hsrc _].
      apply lookup_take_Some in Hdst as [Hdst _].
      apply lookup_replicate in Hdst as [-> _].
      rewrite Forall_forall in Hrect.
      pose proof (Hrect src (list_elem_of_lookup_2 _ _ _ Hsrc)) as Hl.
      unfold Py.slice_assign.
      rewrite length_app, length_take, length_drop, length_replicate. lia.
    + apply Forall_forall. intros r Hr.
      apply list_elem_of_lookup in Hr as [i Hi].
      rewrite lookup_drop in Hi. apply lookup_replicate in Hi as [-> _].
      apply length_replicate.
  - unfold Py.slice_assign.
    rewrite length_app, !length_take, length_map, length_drop,
      length_replicate. lia.
Qed.

(** The loop over the batch keeps the arrays in shape. *)
Lemma db_loop_shape (m1 m2 b : nat) (dbs : list (list string)) :
  forall (st0 st : mstate R) (E : list (list (list (list R))))
         (C : list (list nat)),
  1 <= m1 -> length dbs <= b -> cache_ok st0 ->
  foldM (db_step self m1 m2)
        (replicate b (zero_row m1 m2 (embedding_dim self)),
         replicate b (zero_lens m1))
        (enumerate dbs) st0 = (Ok (E, C), st) ->
  Forall (fun row => length row = m1 /\ Forall (fun r => length r = m2) row) E /\
  Forall (fun lens => length lens = m1) C.
Proof.
  induction dbs as [|db dbs IH] using rev_ind;
    intros st0 st E C Hm1 Hb Hok0 Hrun.
  - simpl in Hrun. inversion Hrun; subst. split.
    + apply Forall_replicate. unfold zero_row. split.
      * apply length_replicate.
      * apply Forall_replicate, length_replicate.
    + apply Forall_replicate. apply length_replicate.
  - rewrite length_app in Hb. simpl in Hb.
    rewrite enumerate_snoc, foldM_app in Hrun.
    pose proof (db_loop_cache self m1 m2 b dbs st0 Hm1 ltac:(lia) Hok0)
      as (Hok1 & _).
    destruct (foldM _ _ (enumerate dbs) st0) as [[[E1 C1]|e] st1] eqn:Hpre;
      [|discriminate].
    cbn [snd] in Hok1.
    destruct (IH st0 st1 E1 C1 Hm1 ltac:(lia) Hok0 Hpre) as [HE1 HC1].
    pose proof (db_loop_inv self m1 m2 b dbs st0 st1 E1 C1 ltac:(lia) Hpre)
      as (HlE & HlC & Hzero & _).
    destruct (Hzero (length dbs) (le_n _) ltac:(lia)) as [HEi HCi].
    rewrite foldM_cons in Hrun.
    destruct (db_step self m1 m2 (E1, C1) (length dbs, db) st1)
      as [[[E' C']|e] st2] eqn:Hstep; [|discriminate].
    cbn [foldM mret M_ret] in Hrun. inversion Hrun; subst E' C' st2.
    clear Hrun.
    destruct (db_step_spec self m1 m2 (length dbs) db E1 E C1 C st1 st)
      as (row & lens & -> & -> & Hcase); try lia.
    { apply list_lookup_total_correct. exact HEi. }
    { apply list_lookup_total_correct. exact HCi. }
    { exact Hstep. }
    assert (Hrow : length row = m1 /\ Forall (fun r => length r = m2) row /\
                   length lens = m1).
    { destruct (column_cache st1 !! db) as [entry|] eqn:Hdb.
      - destruct Hcase as (_ & -> & ->).
        apply hit_shape. exact (Hok1 db entry Hdb).
      - destruct Hcase as (_ & _ & Hl & Hr & Hll & _). auto. }
    destruct Hrow as (Hr1 & Hr2 & Hr3). split.
    + apply Forall_insert; [exact HE1|]. split; assumption.
    + apply Forall_insert; [exact HC1|]. exact Hr3.
Qed.

End ColumnsShape.

(** X18. Whenever [get_columns_emb] returns on a well-formed cache,
    the arrays have the shape the method allocates: [embeddings] has
    one row per schema, each of [max_len] columns of
    [max_col_name_len] vectors, [col_name_lengths] has one row of
    [max_len] counts per schema, and [lengths] are the column counts
    of the schemas; the batch is not empty and [max_len] is at least
    1. *)
Theorem X18_columns_shape {R : Type} `{Scalar R} `{Tokenizer}
    (self : PretrainedEmbedding R) (columns : list (list (list string)))
    (st st' : mstate R) (E : list (list (list (list R)))) (lengths : list nat)
    (C : list (list nat)) :
  cache_ok st ->
  get_columns_emb self columns st = (Ok (E, lengths, C), st') ->
  lengths = map length columns /\
  length E = length columns /\ length C = length columns /\
  1 <= max_columns columns /\
  Forall (fun row => length row = max_columns columns /\
                     Forall (fun r => length r = max_tokens columns) row) E /\
  Forall (fun lens => length lens = max_columns columns) C.
Proof.
  intros Hok Hrun.
  destruct (get_columns_emb_ok_inv self columns st st' _ Hrun) as [Hne Hdbs].
  rewrite get_columns_emb_run in Hrun by assumption.
  destruct (foldM _ _ (enumerate (columns_joined columns)) st)
    as [[[E1 C1]|e] st1] eqn:Hloop; [|discriminate].
  inversion Hrun; subst E1 lengths C1 st1. clear Hrun.
  assert (Hm1 : 1 <= max_columns columns).
  { destruct columns as [|db columns']; [congruence|].
    pose proof (Forall_inv Hdbs) as Hdb. simpl in Hdb.
    unfold max_columns. simpl. destruct db; [congruence|]. simpl. lia. }
  assert (Hb : length (columns_joined columns) <= length columns)
    by (rewrite length_columns_joined; lia).
  destruct (db_loop_inv self _ _ _ _ st st' E C Hb Hloop) as (HlE & HlC & _).
  destruct (db_loop_shape self _ _ _ _ st st' E C Hm1 Hb Hok Hloop)
    as [HE HC].
  repeat split; assumption.
Qed.

Lemma X18_columns_shape_witness :
  exists E C st',
    get_columns_emb SampleTable.tiny [[["a"]]; [["b"]; ["a"; "zebra"]]]
      SampleTable.cached_a = (Ok (E, [1; 2], C), st') /\
    length E = 2 /\ length C = 2 /\
    Forall (fun row => length row = 2 /\ Forall (fun r => length r = 2) row) E /\
    Forall (fun lens => length lens = 2) C.
Proof.
  destruct (get_columns_emb SampleTable.tiny [[["a"]]; [["b"]; ["a"; "zebra"]]]
              SampleTable.cached_a) as [[[[E lengths] C]|e] st'] eqn:Hrun;
    [|vm_compute in Hrun; discriminate].
  destruct (X18_columns_shape SampleTable.tiny _ _ _ _ _ _ cached_a_ok Hrun)
    as (Hl & HlE & HlC & _ & HE & HC).
  exists E, C, st'. subst lengths.
  split; [reflexivity|]. split; [exact HlE|]. split; [exact HlC|].
  split; [exact HE|exact HC].
Defined.

(** ** [LaserEmbedding.forward] and the failures of the embedder *)

Section LaserExnRun.
Context {R : Type} {S : Scalar R} {T : Tokenizer} {E : Embedder R}
        {F : EmbedderFailure}.

Lemma each_app {A : Type}
    (body : Laser.LaserEmbedding R -> A -> result unit * Laser.LaserEmbedding R)
    (l1 l2 : list A) :
  forall st,
  LaserExn.each body st (l1 ++ l2) =
  match LaserExn.each body st l1 with
  | (Ok _, st') => LaserExn.each body st' l2
  | (Raise e, st') => (Raise e, st')
  end.
Proof.
  induction l1 as [|x l1 IH]; intros st; [reflexivity|].
  simpl. destruct (body st x) as [[u|e] st']; [apply IH|reflexivity].
Qed.

(** The two loops visit the tokens of the batch in order. *)
Lemma learn_words_concat_exn (sentences_words : list (list string)) :
  forall st,
  LaserExn.learn_words st sentences_words =
  LaserExn.each LaserExn.learn_word st (concat sentences_words).
Proof.
  unfold LaserExn.learn_words.
  induction sentences_words as [|s sw IH]; intros st; [reflexivity|].
  simpl. rewrite each_app.
  destruct (LaserExn.each LaserExn.learn_word st s) as [[u|e] st'];
    [apply IH|reflexivity].
Qed.

(** A token for which the embedder returns is learnt as in the run
    without failures. *)
Lemma learn_word_returns (st : Laser.LaserEmbedding R) (w : string) :
  (Laser.word2idx st !! w = None -> embedder_raises w = None) ->
  LaserExn.learn_word st w = (Ok tt, Laser.learn_word st w).
Proof.
  intros Hret.
  unfold LaserExn.learn_word, Laser.learn_word, LaserExn.call_embedder.
  destruct (Laser.word2idx st !! w) as [i|]; [reflexivity|].
  cbn [Laser.num_embeddings Laser.embedding_dim Laser.word2idx
       Laser.vectors Laser.embedder_calls].
  rewrite (Hret eq_refl). reflexivity.
Qed.

Lemma learn_word_unknown (st : Laser.LaserEmbedding R) (w w' : string) :
  Laser.word2idx (Laser.learn_word st w) !! w' = None ->
  Laser.word2idx st !! w' = None.
Proof.
  unfold Laser.learn_word.
  destruct (Laser.word2idx st !! w) as [i|] eqn:Hw; [exact (fun x => x)|].
  cbn [Laser.word2idx]. intros Hnone.
  destruct (decide (w = w')) as [<-|Hne]; [exact Hw|].
  rewrite lookup_insert_ne in Hnone by exact Hne. exact Hnone.
Qed.

Lemma learn_list_returns (ws : list string) :
  forall st : Laser.LaserEmbedding R,
  (forall w, w ∈ ws -> Laser.word2idx st !! w = None ->
     embedder_raises w = None) ->
  LaserExn.each LaserExn.learn_word st ws =
    (Ok tt, foldl Laser.learn_word st ws).
Proof.
  induction ws as [|w ws IH]; intros st Hret; [reflexivity|].
  simpl. rewrite learn_word_returns by (apply Hret; left).
  apply IH. intros w' Hw' Hnone. apply Hret; [right; exact Hw'|].
  exact (learn_word_unknown st w w' Hnone).
Qed.

(** [Laser.forward] is the run of [forward] in which the embedder
    returns for every new token of the batch. *)
Lemma forward_returns (sentences : sentences_arg)
    (st : Laser.LaserEmbedding R) :
  LaserExn.returns_on_new st sentences ->
  LaserExn.forward sentences false st = Laser.forward sentences false st.
Proof.
  intros Hret. unfold LaserExn.forward, Laser.forward.
  destruct (Py.max _) as [max_len|e]; [|reflexivity].
  rewrite learn_words_concat_exn, learn_list_returns by exact Hret.
  rewrite learn_words_concat. reflexivity.
Qed.

(** The loop of the branch with the mean only records its calls. *)
Lemma embed_sentences_state (sentences : list string) :
  forall (st : Laser.LaserEmbedding R) (acc : list (ndarray R)),
  let st' := (LaserExn.embed_sentences st sentences acc).2 in
  Laser.word2idx st' = Laser.word2idx st /\
  Laser.vectors st' = Laser.vectors st /\
  Laser.num_embeddings st' = Laser.num_embeddings st.
Proof.
  induction sentences as [|s rest IH]; intros st acc; [repeat split|].
  simpl. unfold LaserExn.call_embedder.
  destruct (embedder_raises s) as [e|]; [repeat split|].
  destruct (IH (Laser.Build_LaserEmbedding (Laser.num_embeddings st)
                  (Laser.embedding_dim st) (Laser.word2idx st)
                  (Laser.vectors st) (Laser.embedder_calls st ++ [s]))
               (acc ++ [embedder s])) as (Hw & Hv & Hn).
  repeat split; assumption.
Qed.

(** Once the tokens of a batch are known, no call reaches the
    embedder. *)
Lemma returns_on_known (sentences : sentences_arg)
    (st : Laser.LaserEmbedding R) :
  LaserExn.returns_on_new (Laser.forward sentences false st).2 sentences.
Proof.
  intros w Hw Hnone. exfalso. revert Hnone.
  unfold Laser.forward. unfold tokens_of in Hw.
  set (sw := map word_tokenize (map lower (as_list sentences))) in *.
  destruct (Py.max (map length sw)) as [max_len|e] eqn:Hmax.
  - cbn [snd Laser.word2idx]. rewrite learn_words_concat.
    destruct (learn_list_spec (concat sw) st)
      as (new & _ & _ & _ & _ & _ & _ & Hall & _).
    destruct (Hall w Hw) as [i Hi]. rewrite Hi. discriminate.
  - destruct sw; [inversion Hw|discriminate].
Qed.

End LaserExnRun.

Section LaserExnFailure.
Context {R : Type} {S : Scalar R} {T : Tokenizer} {E : Embedder R}
        {F : EmbedderFailure}.

(** The loop stops at the first new token on which the embedder
    raises, with that token in the dictionary and no vector for
    it. *)
Lemma learn_list_raises (ws : list string) :
  forall (st : Laser.LaserEmbedding R) (w : string),
  length (Laser.vectors st) = size (Laser.word2idx st) ->
  w ∈ ws -> Laser.word2idx st !! w = None -> embedder_raises w <> None ->
  exists e st' w',
    LaserExn.each LaserExn.learn_word st ws = (Raise e, st') /\
    size (Laser.word2idx st') = Datatypes.S (length (Laser.vectors st')) /\
    Laser.num_embeddings st' = Laser.num_embeddings st /\
    w' ∈ ws /\ embedder_raises w' = Some e /\
    Laser.word2idx st' !! w' = Some (length (Laser.vectors st')).
Proof.
  induction ws as [|x ws IH]; intros st w Hlen Hin Hnew Hraise;
    [inversion Hin|].
  simpl. unfold LaserExn.learn_word at 1.
  destruct (Laser.word2idx st !! x) as [i|] eqn:Hx.
  - assert (Hin' : w ∈ ws).
    { apply elem_of_cons in Hin as [->|Hin]; [congruence|exact Hin]. }
    destruct (IH st w Hlen Hin' Hnew Hraise)
      as (e & st' & w' & Hrun & Hsize & Hnum & Hw' & He & Hidx).
    exists e, st', w'. repeat split; try assumption. right. exact Hw'.
  - unfold LaserExn.call_embedder.
    cbn [Laser.num_embeddings Laser.embedding_dim Laser.word2idx
         Laser.vectors Laser.embedder_calls].
    destruct (embedder_raises x) as [e|] eqn:Hex.
    + eexists e, _, x. split; [reflexivity|].
      cbn [Laser.num_embeddings Laser.word2idx Laser.vectors].
      rewrite map_size_insert_None by exact Hx.
      split; [rewrite Hlen; reflexivity|]. split; [reflexivity|].
      split; [left|]. split; [exact Hex|].
      rewrite lookup_insert_eq, Hlen. reflexivity.
    + assert (Hne : x <> w) by (intros ->; congruence).
      assert (Hin' : w ∈ ws).
      { apply elem_of_cons in Hin as [->|Hin]; [congruence|exact Hin]. }
      match goal with
      | |- context [LaserExn.each _ ?st1 ws] =>
          destruct (IH st1 w) as (e & st' & w' & Hrun & Hsize & Hnum & Hw' & He & Hidx)
      end.
      * cbn [Laser.vectors Laser.word2idx].
        rewrite length_app, map_size_insert_None by exact Hx.
        simpl. lia.
      * exact Hin'.
      * cbn [Laser.word2idx]. rewrite lookup_insert_ne by exact Hne.
        exact Hnew.
      * exact Hraise.
      * exists e, st', w'. repeat split; try assumption. right. exact Hw'.
Qed.

End LaserExnFailure.

(** C8, on an embedder that raises on the token [b]. The first call
    enters [b] in the dictionary at index 1 and raises before a vector
    is stored for it. From then on the store is one entry short: in
    the second call the embedder returns for [cc] and [ddd], [cc]
    receives index 2 while its vector lands in slot 1, and the call
    raises an [IndexError]; the third call, on [cc] alone, makes no
    call to the embedder and returns the vector stored for [ddd]. *)
Theorem C8_embedder_failure_shifts_store :
  let forward := LaserExn.forward (R:=Q) (F:=SampleFailure.on_b) in
  let first := forward (StrList ["a b"]) false Laser.init in
  let second := forward (StrList ["cc ddd"]) false first.2 in
  let third := forward (StrList ["cc"]) false second.2 in
  first.1 = Raise RuntimeError /\
  Laser.word2idx first.2 !! "b" = Some 1 /\
  Laser.vectors first.2 = [embedder "a"] /\
  second.1 = Raise IndexError /\
  Laser.embedder_calls second.2 = ["a"; "b"; "cc"; "ddd"] /\
  Laser.word2idx second.2 !! "cc" = Some 2 /\
  Laser.vectors second.2 !! 1 = Some (embedder "cc") /\
  Laser.vectors second.2 !! 2 = Some (embedder "ddd") /\
  Laser.embedder_calls third.2 = Laser.embedder_calls second.2 /\
  (exists t : ndarray Q,
     third.1 = Ok (t, [1]) /\
     flat t = flat (embedder "ddd") /\ flat t <> flat (embedder "cc")).
Proof.
  cbv zeta.
  repeat (split; [vm_compute; reflexivity|]).
  eexists. split; [vm_compute; reflexivity|].
  split; [vm_compute; reflexivity|].
  vm_compute. intros Heq. discriminate Heq.
Qed.

(** X12. The dictionary of a [LaserEmbedding] stays well formed over
    every call of [forward] in which the embedder returns for each
    new token of the batch, and over every call with the mean,
    whether the call then returns or raises: it holds for a new
    object and each such call preserves that the store has one vector
    per entry, the vector at the index of a token is the one the
    embedder gives for it, no two tokens share an index, and every
    index below the size of the dictionary belongs to a token. *)
Theorem X12_laser_dictionary_invariant {R : Type} `{Scalar R} `{Tokenizer}
    `{Embedder R} `{EmbedderFailure} :
  laser_dense (Laser.init (R:=R)) /\
  forall (st : Laser.LaserEmbedding R) (sentences : sentences_arg)
         (mean_sequence : bool),
    laser_dense st ->
    (mean_sequence = false -> LaserExn.returns_on_new st sentences) ->
    laser_dense (LaserExn.forward sentences mean_sequence st).2.
Proof.
  split; [apply init_dense|].
  intros st sentences [|] Hst Hret.
  - unfold LaserExn.forward.
    destruct (Py.max _) as [max_len|e]; [|exact Hst].
    pose proof (embed_sentences_state
                  (map lower (as_list sentences)) st []) as (Hw & Hv & _).
    destruct (LaserExn.embed_sentences st _ []) as [[arrays|e] st'];
      cbn [snd] in *; eapply laser_dense_ext; eassumption.
  - rewrite (forward_returns sentences st (Hret eq_refl)).
    apply forward_dense. exact Hst.
Qed.

Lemma X12_laser_dictionary_invariant_witness :
  laser_dense
    (LaserExn.forward (R:=Q) (F:=SampleFailure.on_b) (StrList ["b"; "a"]) true
       (LaserExn.forward (R:=Q) (F:=SampleFailure.on_b)
          (StrList ["a c"; "a"]) false Laser.init).2).2.
Proof.
  destruct (X12_laser_dictionary_invariant (R:=Q) (H2:=SampleFailure.on_b))
    as [Hinit Hstep].
  apply Hstep; [apply Hstep; [exact Hinit|]|discriminate].
  intros _ w Hw _.
  replace (concat (tokens_of (as_list (StrList ["a c"; "a"]))))
    with ["a"; "c"; "a"] in Hw by (vm_compute; reflexivity).
  repeat match goal with
         | Hin : _ ∈ _ :: _ |- _ => apply elem_of_cons in Hin as [->|Hin]
         | Hin : _ ∈ [] |- _ => inversion Hin
         end; reflexivity.
Defined.

(** X17. When the embedder returned for every new token of a call of
    [forward] without the mean, repeating the call on the same
    sentences gives the same outcome, tensor or exception, and
    changes nothing: every token is known by then, so the embedder is
    not called again and the dictionary, the store and
    [num_embeddings] stay as the first call left them. *)
Theorem X17_laser_second_call {R : Type} `{Scalar R} `{Tokenizer}
    `{Embedder R} `{EmbedderFailure}
    (sentences : sentences_arg) (st : Laser.LaserEmbedding R) :
  LaserExn.returns_on_new st sentences ->
  let first := LaserExn.forward sentences false st in
  LaserExn.forward sentences false first.2 = (first.1, first.2) /\
  Laser.embedder_calls (LaserExn.forward sentences false first.2).2 =
    Laser.embedder_calls first.2.
Proof.
  intros Hret first. unfold first.
  rewrite (forward_returns sentences st Hret).
  rewrite (forward_returns sentences _ (returns_on_known sentences st)).
  rewrite forward_again. split; [|reflexivity].
  destruct (Laser.forward sentences false st); reflexivity.
Qed.

Lemma X17_laser_second_call_witness :
  let first :=
    LaserExn.forward (R:=Q) (F:=SampleFailure.on_b)
      (StrList ["a c"; "a"]) false Laser.init in
  LaserExn.forward (R:=Q) (F:=SampleFailure.on_b)
    (StrList ["a c"; "a"]) false first.2 = (first.1, first.2).
Proof.
  intros first.
  destruct (X17_laser_second_call (R:=Q) (H2:=SampleFailure.on_b)
              (StrList ["a c"; "a"]) Laser.init) as [Hsame _]; [|exact Hsame].
  intros w Hw _.
  replace (concat (tokens_of (as_list (StrList ["a c"; "a"]))))
    with ["a"; "c"; "a"] in Hw by (vm_compute; reflexivity).
  repeat match goal with
         | Hin : _ ∈ _ :: _ |- _ => apply elem_of_cons in Hin as [->|Hin]
         | Hin : _ ∈ [] |- _ => inversion Hin
         end; reflexivity.
Defined.

(** X19. On a store in step with its dictionary, a call of [forward]
    without the mean on a batch that is not empty, in which the
    embedder returns for every new token, embeds exactly the tokens
    of the batch that the dictionary did not know, once each and in
    the order in which they are first met; the [k]-th of them
    receives the index [size + k] and its vector is appended to the
    store at that position, the tokens known before keep their index
    and cause no call, [num_embeddings] becomes the size of the
    dictionary, the store is again in step with the dictionary, and
    every token of the batch is read back from the store. *)
Theorem X19_laser_vocabulary_grows {R : Type} `{Scalar R} `{Tokenizer}
    `{Embedder R} `{EmbedderFailure}
    (st : Laser.LaserEmbedding R) (sentences : list string) :
  laser_ok st -> sentences <> [] ->
  LaserExn.returns_on_new st (StrList sentences) ->
  let post := (LaserExn.forward (StrList sentences) false st).2 in
  exists new : list string,
    NoDup new /\
    (forall w, w ∈ new <->
       w ∈ concat (tokens_of sentences) /\ Laser.word2idx st !! w = None) /\
    Laser.embedder_calls post = Laser.embedder_calls st ++ new /\
    Laser.vectors post = Laser.vectors st ++ map embedder new /\
    (forall k w, new !! k = Some w ->
       Laser.word2idx post !! w = Some (size (Laser.word2idx st) + k) /\
       Laser.vectors post !! (size (Laser.word2idx st) + k) = Some (embedder w)) /\
    (forall w i, Laser.word2idx st !! w = Some i ->
       (w ∉ new) /\ Laser.word2idx post !! w = Some i) /\
    Laser.num_embeddings post = size (Laser.word2idx post) /\
    laser_ok post /\
    (forall w, w ∈ concat (tokens_of sentences) ->
       Laser.fetch post w = Ok (Laser.reshape_flat (embedder w))).
Proof.
  intros Hok Hne Hret post. unfold post.
  rewrite (forward_returns (StrList sentences) st Hret).
  exact (vocabulary_grows st sentences Hok Hne).
Qed.

Lemma X19_laser_vocabulary_grows_witness :
  exists new : list string,
    Laser.embedder_calls
      (LaserExn.forward (R:=Q) (F:=SampleFailure.on_b)
         (StrList ["a c"; "c d"]) false Laser.init).2 = new /\
    NoDup new /\
    (forall w, w ∈ new <-> w ∈ ["a"; "c"; "c"; "d"]) /\
    (forall k w, new !! k = Some w ->
       Laser.word2idx
         (LaserExn.forward (R:=Q) (F:=SampleFailure.on_b)
            (StrList ["a c"; "c d"]) false Laser.init).2 !! w
       = Some k).
Proof.
  pose proof (X19_laser_vocabulary_grows (R:=Q) (H2:=SampleFailure.on_b)
                Laser.init ["a c"; "c d"] init_ok) as Hx.
  cbv zeta in Hx.
  destruct Hx as (new & Hnd & Hmem & Hcalls & _ & Hidx & _); [discriminate| |].
  - intros w Hw _.
    replace (concat (tokens_of (as_list (StrList ["a c"; "c d"]))))
      with ["a"; "c"; "c"; "d"] in Hw by (vm_compute; reflexivity).
    repeat match goal with
           | Hin : _ ∈ _ :: _ |- _ => apply elem_of_cons in Hin as [->|Hin]
           | Hin : _ ∈ [] |- _ => inversion Hin
           end; reflexivity.
  - exists new. split; [exact Hcalls|]. split; [exact Hnd|]. split.
    + intros w. rewrite Hmem.
      replace (concat (tokens_of ["a c"; "c d"])) with ["a"; "c"; "c"; "d"]
        by (vm_compute; reflexivity).
      split; [intros [Hw _]; exact Hw|].
      intros Hw. split; [exact Hw|apply lookup_empty].
    + intros k w Hk. apply (Hidx k w Hk).
Defined.

(** X20. From a store in step with its dictionary, a call of
    [forward] without the mean in which the embedder raises on a new
    token of the batch raises the exception of the embedder and
    leaves the dictionary one entry ahead of the store: the token the
    embedder raised on is in the dictionary at the index where the
    next vector will be appended, and [num_embeddings] is not
    updated. *)
Theorem X20_laser_embedder_failure {R : Type} `{Scalar R} `{Tokenizer}
    `{Embedder R} `{EmbedderFailure}
    (st : Laser.LaserEmbedding R) (sentences : list string) (w : string) :
  laser_ok st ->
  w ∈ concat (tokens_of sentences) ->
  Laser.word2idx st !! w = None -> embedder_raises w <> None ->
  let post := (LaserExn.forward (StrList sentences) false st).2 in
  exists (e : exn) (w' : string),
    (LaserExn.forward (StrList sentences) false st).1 = Raise e /\
    embedder_raises w' = Some e /\
    Laser.word2idx post !! w' = Some (length (Laser.vectors post)) /\
    size (Laser.word2idx post) = Datatypes.S (length (Laser.vectors post)) /\
    Laser.num_embeddings post = Laser.num_embeddings st /\
    ~ laser_ok post.
Proof.
  intros [Hlen _] Hw Hnew Hraise post. unfold post. clear post.
  unfold LaserExn.forward. cbn [as_list]. unfold tokens_of in Hw.
  set (sw := map word_tokenize (map lower sentences)) in *.
  destruct (Py.max (map length sw)) as [max_len|e0] eqn:Hmax;
    [|destruct sw; [inversion Hw|discriminate]].
  rewrite learn_words_concat_exn.
  destruct (learn_list_raises (concat sw) st w Hlen Hw Hnew Hraise)
    as (e & st' & w' & Hrun & Hsize & Hnum & _ & He & Hidx).
  rewrite Hrun. cbn [fst snd].
  exists e, w'. repeat split; try assumption.
  intros [Hlen' _]. lia.
Qed.

Lemma X20_laser_embedder_failure_witness :
  let post :=
    (LaserExn.forward (R:=Q) (F:=SampleFailure.on_b)
       (StrList ["a b"; "c"]) false Laser.init).2 in
  exists (e : exn) (w' : string),
    (LaserExn.forward (R:=Q) (F:=SampleFailure.on_b)
       (StrList ["a b"; "c"]) false Laser.init).1 = Raise e /\
    embedder_raises (EmbedderFailure := SampleFailure.on_b) w' = Some e /\
    Laser.word2idx post !! w' = Some (length (Laser.vectors post)) /\
    size (Laser.word2idx post) = Datatypes.S (length (Laser.vectors post)) /\
    Laser.num_embeddings post = 1 /\
    ~ laser_ok post.
Proof.
  apply (X20_laser_embedder_failure (R:=Q) (H2:=SampleFailure.on_b)
           Laser.init ["a b"; "c"] "b").
  - apply init_ok.
  - replace (concat (tokens_of ["a b"; "c"])) with ["a"; "b"; "c"]
      by (vm_compute; reflexivity).
    right. left.
  - apply lookup_empty.
  - discriminate.
Defined.
